(** * Dreamscape: the 3D co-occurrence graph view (src/source.js)

    A shallow embedding of the rendering, tick, hover and submit code of
    [source.js], and the properties of it that the specification states.

    Numbers.  A JavaScript number is modelled as an exact rational, or one of
    the two infinities, or NaN ([jsnum]); the rounding and the overflow of
    binary64 arithmetic and the sign of zero are not modelled, and a
    statement that needs a bound for them has it as a hypothesis.  Numbers
    that arrive in a JSON document (link weights) are finite, hence plain
    [Q].  The vertices of a line are stored in a [Float32Array]: the
    narrowing to single precision is modelled ([fround]).

    Objects.  The three.js objects the code creates (node meshes and lines)
    live in two stores indexed by allocation order; a reference is an index.
    References are never reused, so reference equality ([===] on objects) is
    equality of indices.  A mesh or a line that several places refer to (the
    children of the group, [n.mesh], [l.line], [userData.links]) is one entry
    of its store, and a change of it is seen through every reference.

    Libraries.  three.js is modelled by what the code reads and writes of
    its objects (colour, opacity, position, vertices, [userData], children).
    The force simulation and the ray caster are environment: a step of a
    simulation gives the nodes arbitrary coordinates and, when the simulation
    has a tick handler and was not stopped, calls it; the ray meets an
    arbitrary node mesh of the group or none.  One more behaviour of the
    force library is part of the model: registering the link force throws
    when the id of an endpoint of a link is the id of no node, which ends
    [renderGraph3D] by an exception after the scene has been built.
    Documents from the backend have the shape the interface gives them: a
    response of the submit has a graph, a graph has its nodes and its links,
    and ids are strings. *)

From Stdlib Require Import ZArith QArith Qround Qminmax Lia Bool.
From stdpp Require Import base list strings.

Local Open Scope Z_scope.

(** ** JavaScript numbers *)

Module JS.

Inductive jsnum : Type :=
| Num (q : Q)
| PosInf
| NegInf
| NaN.

(** [a - b] *)
Definition sub (a b : jsnum) : jsnum :=
  match a, b with
  | NaN, _ | _, NaN => NaN
  | Num x, Num y => Num (x - y)
  | PosInf, PosInf | NegInf, NegInf => NaN
  | PosInf, _ | _, NegInf => PosInf
  | NegInf, _ | _, PosInf => NegInf
  end.

(** sign of a finite number: [Lt], [Eq] or [Gt] with respect to 0 *)
Definition sgn (x : Q) : comparison := (0 ?= x)%Q.

(** [a * b] *)
Definition mul (a b : jsnum) : jsnum :=
  let inf_times (pos : bool) (x : Q) :=
    match sgn x with
    | Eq => NaN
    | Lt => if pos then PosInf else NegInf
    | Gt => if pos then NegInf else PosInf
    end in
  match a, b with
  | NaN, _ | _, NaN => NaN
  | Num x, Num y => Num (x * y)
  | PosInf, PosInf | NegInf, NegInf => PosInf
  | PosInf, NegInf | NegInf, PosInf => NegInf
  | PosInf, Num y | Num y, PosInf => inf_times true y
  | NegInf, Num y | Num y, NegInf => inf_times false y
  end.

(** [a / b]; a finite number over 0 is an infinity, 0 over 0 is NaN *)
Definition div (a b : jsnum) : jsnum :=
  match a, b with
  | NaN, _ | _, NaN => NaN
  | Num x, Num y =>
      match sgn y with
      | Eq => match sgn x with Eq => NaN | Lt => PosInf | Gt => NegInf end
      | _ => Num (x / y)
      end
  | Num _, _ => Num 0
  | PosInf, Num y => match sgn y with Gt => NegInf | _ => PosInf end
  | NegInf, Num y => match sgn y with Gt => PosInf | _ => NegInf end
  | _, _ => NaN
  end.

(** truthiness of a number: 0 and NaN are falsy *)
Definition truthy (a : jsnum) : bool :=
  match a with
  | Num x => negb (Qeq_bool x 0)
  | NaN => false
  | _ => true
  end.

(** [a || b] on numbers *)
Definition or_else (a b : jsnum) : jsnum := if truthy a then a else b.

(** [Math.floor] *)
Definition floor (a : jsnum) : jsnum :=
  match a with
  | Num x => Num (inject_Z (Qfloor x))
  | _ => a
  end.

(** *** Single precision *)

(** [2 ^ e], for an exponent of either sign *)
Definition pow2 (e : Z) : Q :=
  match e with
  | Z0 => 1%Q
  | Zpos p => inject_Z (2 ^ Zpos p)
  | Zneg p => Qmake 1 (2 ^ p)
  end.

(** the integer part of the binary logarithm of a positive number *)
Definition ilog2 (a : Q) : Z :=
  let e := Z.log2 (Qnum a) - Z.log2 (Zpos (Qden a)) in
  if Qle_bool (pow2 e) a then e else e - 1.

(** the integer nearest to [x], the even one when two are equally near *)
Definition round_half_even (x : Q) : Z :=
  let f := Qfloor x in
  match (x - inject_Z f ?= 1 # 2)%Q with
  | Lt => f
  | Gt => f + 1
  | Eq => if Z.even f then f else f + 1
  end.

(** [Math.fround] of a positive number: the nearest number with 24
    significant bits and an exponent of at least -126, the one with an even
    last bit when two are equally near; [Infinity] when that is [2 ^ 128] or
    more. *)
Definition fround_pos (a : Q) : jsnum :=
  let e := Z.max (ilog2 a) (-126) in
  let ulp := pow2 (e - 23) in
  let r := (inject_Z (round_half_even (a / ulp)) * ulp)%Q in
  if Qle_bool (pow2 128) r then PosInf else Num (Qred r).

(** [Math.fround], the narrowing of a finite number to single precision that
    a [Float32Array] applies to what is stored in it *)
Definition fround (x : Q) : jsnum :=
  match sgn x with
  | Eq => Num 0
  | Lt => fround_pos x
  | Gt => match fround_pos (- x) with
          | Num r => Num (- r)
          | _ => NegInf
          end
  end.

(** [a <= b] on numbers *)
Definition leb (a b : jsnum) : bool :=
  match a, b with
  | NaN, _ | _, NaN => false
  | Num x, Num y => Qle_bool x y
  | NegInf, _ | _, PosInf => true
  | _, _ => false
  end.

Definition le (a b : jsnum) : Prop := leb a b = true.

(** [Math.min(...ws)] and [Math.max(...ws)] of finite numbers: with no
    argument the results are [Infinity] and [-Infinity]. *)
Fixpoint Math_min (ws : list Q) : jsnum :=
  match ws with
  | [] => PosInf
  | w :: ws' =>
      match Math_min ws' with
      | Num m => Num (Qmin w m)
      | _ => Num w
      end
  end.

Fixpoint Math_max (ws : list Q) : jsnum :=
  match ws with
  | [] => NegInf
  | w :: ws' =>
      match Math_max ws' with
      | Num m => Num (Qmax w m)
      | _ => Num w
      end
  end.

(** *** 32-bit integers of the bitwise operators *)

Definition wrap32 (z : Z) : Z := (z + 2 ^ 31) mod 2 ^ 32 - 2 ^ 31.

(** truncation toward zero *)
Definition Qtrunc (x : Q) : Z :=
  if Qle_bool 0 x then Qfloor x else Qceiling x.

(** [ToInt32]: NaN and the infinities become 0 *)
Definition ToInt32 (a : jsnum) : Z :=
  match a with
  | Num x => wrap32 (Qtrunc x)
  | _ => 0
  end.

(** [a << k], for a shift count [0 <= k < 32] *)
Definition shl (a : jsnum) (k : Z) : Z := wrap32 (Z.shiftl (ToInt32 a) k).

(** [a | b] on values that are already 32-bit integers *)
Definition bitor (a b : Z) : Z := Z.lor a b.

End JS.

Import JS.

Declare Scope js_scope.
Delimit Scope js_scope with js.
Bind Scope js_scope with jsnum.
Infix "-" := JS.sub : js_scope.
Infix "*" := JS.mul : js_scope.
Infix "/" := JS.div : js_scope.
Infix "||" := JS.or_else : js_scope.
Infix "<=" := JS.le : js_scope.
Coercion Num : Q >-> jsnum.

(** ** The weight-to-colour mapping (source.js, lines 97-108) *)

(** A link as it arrives from the backend:
    [{ source, target, weight?, value? }].  An absent (or [null]) field is
    [None]. *)
Record link_json : Type := LinkJson {
  source : string;
  target : string;
  weight : option Q;
  value : option Q
}.

(** [l.weight ?? l.value] *)
Definition weight_or_value (l : link_json) : option Q :=
  match weight l with
  | Some w => Some w
  | None => value l
  end.

(** [(l.weight ?? l.value) || 1]: [undefined] and [0] are falsy *)
Definition effective_weight (l : link_json) : Q :=
  match weight_or_value l with
  | Some w => if Qeq_bool w 0 then 1%Q else w
  | None => 1%Q
  end.

(** [const t = (weight - min) / (max - min || 1)] *)
Definition divisor (min max : jsnum) : jsnum := ((max - min) || Num 1)%js.

Definition normalize (weight min max : jsnum) : jsnum :=
  ((weight - min) / divisor min max)%js.

(** [const r = Math.floor(255 * t)] and [const b = Math.floor(255 * (1 - t))] *)
Definition red (t : jsnum) : jsnum := floor (Num 255 * t)%js.
Definition green : jsnum := Num 0.
Definition blue (t : jsnum) : jsnum := floor (Num 255 * (Num 1 - t))%js.

(** [return (r << 16) | (g << 8) | b] *)
Definition getColorForWeight (weight min max : jsnum) : Z :=
  let t := normalize weight min max in
  let r := red t in
  let g := green in
  let b := blue t in
  bitor (bitor (shl r 16) (shl g 8)) (ToInt32 b).

(** The channels three.js reads back from a colour given as [0xRRGGBB]. *)
Definition hex_red (c : Z) : Z := Z.land (Z.shiftr c 16) 255.
Definition hex_green (c : Z) : Z := Z.land (Z.shiftr c 8) 255.
Definition hex_blue (c : Z) : Z := Z.land c 255.

(** ** Graph snapshots and the objects of the scene *)

(** A node as it arrives from the backend: [{ id, ... }]. *)
Record node_json : Type := NodeJson { id : string }.

(** A snapshot: [{ nodes: [...], links: [...] }]. *)
Record graph_json : Type := GraphJson {
  nodes : list node_json;
  links : list link_json
}.

Definition vec3 : Type := Q * Q * Q.
Definition origin : vec3 := (0, 0, 0)%Q.

(** A vertex of the position attribute of a geometry: three numbers of a
    [Float32Array]. *)
Definition vertex : Type := jsnum * jsnum * jsnum.

(** What [setFromPoints] and [setXYZ] store of a point. *)
Definition to_float32 (p : vec3) : vertex :=
  (fround p.1.1, fround p.1.2, fround p.2).

(** A node object once [renderGraph3D] has attached [mesh], [x], [y] and [z]
    to it.  [mesh] is a reference into the store of meshes. *)
Record node : Type := Node {
  node_id : string;
  mesh : option nat;
  x : Q;
  y : Q;
  z : Q
}.

(** A link object with the fields [renderGraph3D] attaches: [sourceObj] and
    [targetObj] refer to node objects (positions in [graph.nodes]), [line] to
    a line of the store. *)
Record link : Type := Link {
  json : link_json;
  sourceObj : option nat;
  targetObj : option nat;
  line : option nat
}.

Record graph : Type := Graph {
  graph_nodes : list node;
  graph_links : list link
}.

(** A text mesh: [userData = { id, isNode: true, links }], the colour of its
    material and its position. *)
Record mesh_obj : Type := Mesh {
  mesh_id : string;
  mesh_links : list nat;
  mesh_color : Z;
  mesh_position : vec3
}.

(** A line: the position attribute of its geometry, its material and
    [userData = { source, target, weight, originalColor }]. *)
Record line_obj : Type := Line {
  positions : list vertex;
  line_color : Z;
  opacity : Q;
  ud_source : nat;
  ud_target : nat;
  ud_weight : Q;
  originalColor : option Z
}.

(** A child of [graphGroup]: a mesh ([userData.isNode]) or a line
    ([type === "Line"]). *)
Inductive child : Type :=
| ChildMesh (r : nat)
| ChildLine (r : nat).

#[global] Instance child_eq_dec : EqDecision child.
Proof. solve_decision. Defined.

Definition isNode (c : child) : bool :=
  match c with ChildMesh _ => true | ChildLine _ => false end.

(** The three.js side: both stores and [graphGroup.children]. *)
Record scene : Type := Scene {
  meshes : list mesh_obj;
  lines : list line_obj;
  children : list child
}.

Inductive log_entry : Type :=
| Warn (msg : string)
| Error (msg : string).

(** The simulation that [simulation] refers to.  Its tick handler closes
    over [graph], [minWeight] and [maxWeight]; [stopped] tells whether
    [simulation.stop()] has been called.  A simulation that was not stopped
    is the one of the last call of [renderGraph3D] with the font loaded, as
    every such call stops the former one: its [graph] is the one
    [currentGraph] refers to.  A stopped one may be older; it makes no
    step. *)
Record simulation_obj : Type := Simulation {
  minWeight : jsnum;
  maxWeight : jsnum;
  stopped : bool
}.

(** The module-level variables of source.js. *)
Record state : Type := State {
  loadedFont : bool;
  currentGraph : graph;
  simulation : option simulation_obj;
  graphGroup : scene;
  highlightedNode : option nat;
  tooltip_visible : bool;
  tooltip_innerHTML : string;
  console : list log_entry
}.

Definition initial_state : state :=
  {| loadedFont := false;
     currentGraph := Graph [] [];
     simulation := None;
     graphGroup := Scene [] [] [];
     highlightedNode := None;
     tooltip_visible := false;
     tooltip_innerHTML := "";
     console := [] |}.

(** ** renderGraph3D (source.js, lines 63-189) *)

Definition axisLength : Q := 40.

(** [new THREE.Mesh(textGeo, textMat)]: white, at the origin. *)
Definition new_mesh (i : string) : mesh_obj :=
  {| mesh_id := i; mesh_links := []; mesh_color := 0xffffff;
     mesh_position := origin |}.

(** The body of the first [forEach]; [random k] is the result of the [k]-th
    of the calls of [Math.random] that this body makes (three.js makes calls
    of its own in between, which are not counted). *)
Definition init_node (random : nat → Q) (k : nat) (n : node_json) (sc : scene)
  : node * scene :=
  let textMesh := length (meshes sc) in
  let sc' := {| meshes := meshes sc ++ [new_mesh (id n)];
                lines := lines sc;
                children := children sc ++ [ChildMesh textMesh] |} in
  ({| node_id := id n;
      mesh := Some textMesh;
      x := (random (3 * k)%nat - (1 # 2)) * axisLength;
      y := (random (3 * k + 1)%nat - (1 # 2)) * axisLength;
      z := (random (3 * k + 2)%nat - (1 # 2)) * axisLength |}%Q, sc').

Fixpoint init_nodes (random : nat → Q) (k : nat) (ns : list node_json)
  (sc : scene) : list node * scene :=
  match ns with
  | [] => ([], sc)
  | n :: ns' =>
      let '(nd, sc1) := init_node random k n sc in
      let '(nds, sc2) := init_nodes random (S k) ns' sc1 in
      (nd :: nds, sc2)
  end.

(** [graph.nodes.find(n => n.id === i)], as the position of the node found *)
Definition find_node (ns : list node) (i : string) : option nat :=
  fst <$> list_find (λ n, node_id n = i) ns.

(** The body of the second [forEach]. *)
Definition bind_link (ns : list node) (l : link_json) : link :=
  {| json := l;
     sourceObj := find_node ns (source l);
     targetObj := find_node ns (target l);
     line := None |}.

(** [graph.links.map(l => (l.weight ?? l.value) || 1)] *)
Definition weights (ls : list link_json) : list Q := map effective_weight ls.

(** [n.mesh.position] of the node object [i]; the node and its mesh exist
    whenever the code reads this (lemma [wf_position_of]), the origin stands
    for the other case. *)
Definition position_of (ns : list node) (sc : scene) (i : nat) : vec3 :=
  match ns !! i with
  | Some n =>
      match mesh n with
      | Some r =>
          match meshes sc !! r with
          | Some m => mesh_position m
          | None => origin
          end
      | None => origin
      end
  | None => origin
  end.

(** [if (n.mesh) n.mesh.userData.links.push(line)] for the node object [i] *)
Definition push_line (ln : nat) (m : mesh_obj) : mesh_obj :=
  {| mesh_id := mesh_id m; mesh_links := mesh_links m ++ [ln];
     mesh_color := mesh_color m; mesh_position := mesh_position m |}.

Definition push_to_node (ns : list node) (i ln : nat) (sc : scene) : scene :=
  match ns !! i with
  | Some n =>
      match mesh n with
      | Some r => {| meshes := alter (push_line ln) r (meshes sc);
                     lines := lines sc; children := children sc |}
      | None => sc
      end
  | None => sc
  end.

(** [new THREE.Line(geometry, lineMat)] with the geometry set from the points
    [p1] and [p2], the material
    [{ color: colorHex, transparent: true, opacity: 0.9 }] and
    [userData = { source, target, weight, originalColor: colorHex }]. *)
Definition new_line (p1 p2 : vec3) (colorHex : Z) (weight : Q) (s t : nat)
  : line_obj :=
  {| positions := [to_float32 p1; to_float32 p2];
     line_color := colorHex; opacity := 9 # 10;
     ud_source := s; ud_target := t; ud_weight := weight;
     originalColor := Some colorHex |}.

(** Creation of the line of a link whose endpoints [s] and [t] resolved
    (lines 114-132, and again lines 178-185). *)
Definition create_line (ns : list node) (min max : jsnum) (l : link)
  (s t : nat) (sc : scene) : link * scene :=
  let p1 := position_of ns sc s in
  let p2 := position_of ns sc t in
  let weight := effective_weight (json l) in
  let colorHex := getColorForWeight (Num weight) min max in
  let r := length (lines sc) in
  let sc1 := {| meshes := meshes sc;
                lines := lines sc ++ [new_line p1 p2 colorHex weight s t];
                children := children sc ++ [ChildLine r] |} in
  let sc2 := push_to_node ns s r sc1 in
  let sc3 := push_to_node ns t r sc2 in
  ({| json := json l; sourceObj := sourceObj l; targetObj := targetObj l;
      line := Some r |}, sc3).

(** The body of the fourth [forEach]. *)
Definition create_link (ns : list node) (min max : jsnum) (l : link)
  (sc : scene) : link * scene :=
  match sourceObj l, targetObj l with
  | Some s, Some t => create_line ns min max l s t sc
  | _, _ => (l, sc)
  end.

(** [ls.forEach(body)] for a body that updates the link and the scene. *)
Fixpoint for_each_link (body : link → scene → link * scene) (ls : list link)
  (sc : scene) : list link * scene :=
  match ls with
  | [] => ([], sc)
  | l :: ls' =>
      let '(l1, sc1) := body l sc in
      let '(ls1, sc2) := for_each_link body ls' sc1 in
      (l1 :: ls1, sc2)
  end.

(** [graphGroup.clear()] *)
Definition clear (sc : scene) : scene :=
  {| meshes := meshes sc; lines := lines sc; children := [] |}.

(** [simulation.stop()] *)
Definition stop (sim : simulation_obj) : simulation_obj :=
  {| minWeight := minWeight sim; maxWeight := maxWeight sim;
     stopped := true |}.

(** Both ids of a link of the snapshot [g] are ids of nodes of [g]. *)
Definition endpoints_known (g : graph_json) (lj : link_json) : bool :=
  bool_decide (source lj ∈ map id (nodes g))
  && bool_decide (target lj ∈ map id (nodes g)).

(** [forceLink(graph.links).id(d => d.id)] when it is registered as a force
    (line 140): the force library looks the [source] and the [target] of
    every link up among the ids of the nodes and throws ["node not found"]
    for an id that is missing. *)
Definition forceLink_throws (g : graph_json) : bool :=
  negb (forallb (endpoints_known g) (links g)).

(** The page when the call [renderGraph3D(graph)] ends.  With the font
    loaded the call ends by the exception of [forceLink] when a link has an
    unknown id ([renderGraph3D_throws]): the scene has been built and the
    former simulation stopped by then, and [simulation] is not assigned. *)
Definition renderGraph3D (g : graph_json) (random : nat → Q) (st : state)
  : state :=
  if negb (loadedFont st) then
    {| loadedFont := loadedFont st; currentGraph := currentGraph st;
       simulation := simulation st; graphGroup := graphGroup st;
       highlightedNode := highlightedNode st;
       tooltip_visible := tooltip_visible st;
       tooltip_innerHTML := tooltip_innerHTML st;
       console := console st ++ [Warn "Font not loaded yet, skipping render"]
    |}
  else
    let '(ns, sc1) := init_nodes random 0 (nodes g) (clear (graphGroup st)) in
    let bound := map (bind_link ns) (links g) in
    let ws := weights (links g) in
    let min := Math_min ws in
    let max := Math_max ws in
    let '(ls, sc2) := for_each_link (create_link ns min max) bound sc1 in
    {| loadedFont := loadedFont st;
       currentGraph := Graph ns ls;
       simulation :=
         if forceLink_throws g then stop <$> simulation st
         else Some (Simulation min max false);
       graphGroup := sc2;
       highlightedNode := highlightedNode st;
       tooltip_visible := tooltip_visible st;
       tooltip_innerHTML := tooltip_innerHTML st;
       console := console st |}.

(** Whether the call [renderGraph3D(graph)] ends by an exception. *)
Definition renderGraph3D_throws (g : graph_json) (st : state) : bool :=
  loadedFont st && forceLink_throws g.

(** ** The tick handler (source.js, lines 143-188) *)

Definition set_position (p : vec3) (m : mesh_obj) : mesh_obj :=
  {| mesh_id := mesh_id m; mesh_links := mesh_links m;
     mesh_color := mesh_color m; mesh_position := p |}.

(** [if (n.mesh) n.mesh.position.set(n.x, n.y, n.z)] *)
Definition tick_node (n : node) (sc : scene) : scene :=
  match mesh n with
  | Some r => {| meshes := alter (set_position (x n, y n, z n)) r (meshes sc);
                 lines := lines sc; children := children sc |}
  | None => sc
  end.

Definition tick_nodes (ns : list node) (sc : scene) : scene :=
  foldl (λ sc n, tick_node n sc) sc ns.

(** Lines 164-175: [setXYZ(0, ...)] and [setXYZ(1, ...)] when the attribute
    holds at least two vertices, [setFromPoints([p1, p2])] otherwise; then the
    colour and [userData.weight]. *)
Definition update_line (p1 p2 : vec3) (colorHex : Z) (weight : Q)
  (ln : line_obj) : line_obj :=
  {| positions :=
       if (2 <=? length (positions ln))%nat
       then <[1%nat := to_float32 p2]>
              (<[0%nat := to_float32 p1]> (positions ln))
       else [to_float32 p1; to_float32 p2];
     line_color := colorHex;
     opacity := opacity ln;
     ud_source := ud_source ln;
     ud_target := ud_target ln;
     ud_weight := weight;
     originalColor := originalColor ln |}.

(** The body of the second [forEach] of the handler.  A line of the store
    always has a geometry with a position attribute, so the test of line 162
    is the test of [l.line]. *)
Definition tick_link (ns : list node) (min max : jsnum) (l : link)
  (sc : scene) : link * scene :=
  match sourceObj l, targetObj l with
  | Some s, Some t =>
      let p1 := position_of ns sc s in
      let p2 := position_of ns sc t in
      let weight := effective_weight (json l) in
      let colorHex := getColorForWeight (Num weight) min max in
      match line l with
      | Some r =>
          (l, {| meshes := meshes sc;
                 lines := alter (update_line p1 p2 colorHex weight) r (lines sc);
                 children := children sc |})
      | None => create_line ns min max l s t sc
      end
  | _, _ => (l, sc)
  end.

Definition set_scene (st : state) (g : graph) (sc : scene) : state :=
  {| loadedFont := loadedFont st; currentGraph := g;
     simulation := simulation st; graphGroup := sc;
     highlightedNode := highlightedNode st;
     tooltip_visible := tooltip_visible st;
     tooltip_innerHTML := tooltip_innerHTML st;
     console := console st |}.

Definition on_tick (st : state) : state :=
  match simulation st with
  | Some sim =>
      let ns := graph_nodes (currentGraph st) in
      let sc1 := tick_nodes ns (graphGroup st) in
      let '(ls, sc2) :=
        for_each_link (tick_link ns (minWeight sim) (maxWeight sim))
          (graph_links (currentGraph st)) sc1 in
      set_scene st (Graph ns ls) sc2
  | None => st
  end.

(** The force library is not part of the repository.  One step of a
    simulation gives every node new coordinates, here the arbitrary
    [coords k] for the [k]-th node, and then calls the handler registered
    for ["tick"], if there is one. *)
Definition move_node (coords : nat → vec3) (k : nat) (n : node) : node :=
  {| node_id := node_id n; mesh := mesh n;
     x := (coords k).1.1; y := (coords k).1.2; z := (coords k).2 |}.

Definition simulation_step (coords : nat → vec3) (st : state) : state :=
  set_scene st
    (Graph (imap (move_node coords) (graph_nodes (currentGraph st)))
       (graph_links (currentGraph st)))
    (graphGroup st).

Definition tick (coords : nat → vec3) (st : state) : state :=
  on_tick (simulation_step coords st).

(** ** Hovering (source.js, lines 222-270) *)

Definition set_mesh_color (c : Z) (m : mesh_obj) : mesh_obj :=
  {| mesh_id := mesh_id m; mesh_links := mesh_links m;
     mesh_color := c; mesh_position := mesh_position m |}.

Definition set_line_color (c : Z) (ln : line_obj) : line_obj :=
  {| positions := positions ln; line_color := c; opacity := opacity ln;
     ud_source := ud_source ln; ud_target := ud_target ln;
     ud_weight := ud_weight ln; originalColor := originalColor ln |}.

(** [child.userData.originalColor ? child.userData.originalColor : 0x888888]:
    [undefined] and [0] are falsy *)
Definition orig_or_gray (ln : line_obj) : Z :=
  match originalColor ln with
  | Some c => if c =? 0 then 0x888888 else c
  | None => 0x888888
  end.

Definition reset_line (ln : line_obj) : line_obj :=
  {| positions := positions ln; line_color := orig_or_gray ln;
     opacity := 9 # 10;
     ud_source := ud_source ln; ud_target := ud_target ln;
     ud_weight := ud_weight ln; originalColor := originalColor ln |}.

(** The body of the [forEach] of [resetHighlights]. *)
Definition reset_child (c : child) (sc : scene) : scene :=
  match c with
  | ChildMesh r =>
      {| meshes := alter (set_mesh_color 0xffffff) r (meshes sc);
         lines := lines sc; children := children sc |}
  | ChildLine r =>
      {| meshes := meshes sc; lines := alter reset_line r (lines sc);
         children := children sc |}
  end.

Definition reset_scene (sc : scene) : scene :=
  foldl (λ sc c, reset_child c sc) sc (children sc).

Definition resetHighlights (st : state) : state :=
  {| loadedFont := loadedFont st; currentGraph := currentGraph st;
     simulation := simulation st;
     graphGroup := reset_scene (graphGroup st);
     highlightedNode := None;
     tooltip_visible := tooltip_visible st;
     tooltip_innerHTML := tooltip_innerHTML st;
     console := console st |}.

Definition set_tooltip (visible : bool) (html : string) (st : state) : state :=
  {| loadedFont := loadedFont st; currentGraph := currentGraph st;
     simulation := simulation st; graphGroup := graphGroup st;
     highlightedNode := highlightedNode st;
     tooltip_visible := visible; tooltip_innerHTML := html;
     console := console st |}.

(** [obj.userData.id] and [obj.userData.links] of a mesh of the store *)
Definition userData_id (sc : scene) (obj : nat) : string :=
  match meshes sc !! obj with Some m => mesh_id m | None => "" end.

Definition userData_links (sc : scene) (obj : nat) : list nat :=
  match meshes sc !! obj with Some m => mesh_links m | None => [] end.

(** Lines 242-248. *)
Definition highlight (obj : nat) (st : state) : state :=
  let sc := graphGroup st in
  let sc1 := {| meshes := alter (set_mesh_color 0xffff00) obj (meshes sc);
                lines := lines sc; children := children sc |} in
  let sc2 := {| meshes := meshes sc1;
                lines := foldl (λ lns r, alter (set_line_color 0xffff00) r lns)
                           (lines sc1) (userData_links sc1 obj);
                children := children sc1 |} in
  {| loadedFont := loadedFont st; currentGraph := currentGraph st;
     simulation := simulation st; graphGroup := sc2;
     highlightedNode := Some obj;
     tooltip_visible := tooltip_visible st;
     tooltip_innerHTML := tooltip_innerHTML st;
     console := console st |}.

(** The [mousemove] listener.  [hit] is [intersects[0].object] when the ray
    meets a node mesh of [graphGroup], [None] when [intersects] is empty; the
    position of the tooltip on the page is not modelled. *)
Definition mousemove (hit : option nat) (st : state) : state :=
  match hit with
  | Some obj =>
      let st1 := set_tooltip true (userData_id (graphGroup st) obj) st in
      if decide (highlightedNode st1 = Some obj) then st1
      else highlight obj (resetHighlights st1)
  | None =>
      resetHighlights (set_tooltip false (tooltip_innerHTML st) st)
  end.

(** ** The network client (source.js, lines 193-217) *)

(** The outcome of [fetch(...).then(res => res.json())]: the request is
    rejected, or the body is not JSON, or the parsed document, which the
    second [then] passes to [renderGraph3D].  The [catch] that follows
    receives the rejections and the exception of [renderGraph3D]. *)
Inductive fetched (A : Type) : Type :=
| FetchRejected
| JsonRejected
| Resolved (data : A).
Arguments FetchRejected {A}.
Arguments JsonRejected {A}.
Arguments Resolved {A} data.

(** The response of [POST /api/submit]: [{ graph: { nodes, links } }]. *)
Record submit_response : Type := SubmitResponse { response_graph : graph_json }.

Definition log (e : log_entry) (st : state) : state :=
  {| loadedFont := loadedFont st; currentGraph := currentGraph st;
     simulation := simulation st; graphGroup := graphGroup st;
     highlightedNode := highlightedNode st;
     tooltip_visible := tooltip_visible st;
     tooltip_innerHTML := tooltip_innerHTML st;
     console := console st ++ [e] |}.

Definition submitDream (res : fetched submit_response) (random : nat → Q)
  (st : state) : state :=
  match res with
  | Resolved data =>
      let st' := renderGraph3D (response_graph data) random st in
      if renderGraph3D_throws (response_graph data) st
      then log (Error "Fetch error:") st' else st'
  | _ => log (Error "Fetch error:") st
  end.

Definition loadInitialGraph (res : fetched graph_json) (random : nat → Q)
  (st : state) : state :=
  match res with
  | Resolved g =>
      let st' := renderGraph3D g random st in
      if renderGraph3D_throws g st
      then log (Error "Graph load error:") st' else st'
  | _ => log (Error "Graph load error:") st
  end.

(** ** The page as a transition system *)

Definition font_loaded (st : state) : state :=
  {| loadedFont := true; currentGraph := currentGraph st;
     simulation := simulation st; graphGroup := graphGroup st;
     highlightedNode := highlightedNode st;
     tooltip_visible := tooltip_visible st;
     tooltip_innerHTML := tooltip_innerHTML st;
     console := console st |}.

Inductive event : Type :=
| FontLoaded
| SubmitSettled (res : fetched submit_response) (random : nat → Q)
| InitialSettled (res : fetched graph_json) (random : nat → Q)
| Tick (coords : nat → vec3)
| Drift (coords : nat → vec3)
| MouseMove (hit : option nat).

Definition step (e : event) (st : state) : state :=
  match e with
  | FontLoaded => font_loaded st
  | SubmitSettled res random => submitDream res random st
  | InitialSettled res random => loadInitialGraph res random st
  | Tick coords => tick coords st
  | Drift coords => simulation_step coords st
  | MouseMove hit => mousemove hit st
  end.

(** [graphGroup.children.filter((o) => o.userData.isNode)], the objects the
    ray is intersected with *)
Definition node_meshes (sc : scene) : list child :=
  filter (λ o, isNode o = true) (children sc).

(** [simulation] refers to a simulation that was not stopped. *)
Definition running (st : state) : bool :=
  match simulation st with
  | Some sim => negb (stopped sim)
  | None => false
  end.

(** A tick is a step of the simulation that [simulation] refers to, which
    makes steps until it is stopped; a drift is a step of a simulation
    without a handler (the one that line 138 has created and started when
    [forceLink] throws is never stopped); the object the ray meets is one of
    the node meshes it is intersected with. *)
Definition enabled (e : event) (st : state) : bool :=
  match e with
  | Tick _ => running st
  | MouseMove (Some obj) =>
      bool_decide (ChildMesh obj ∈ node_meshes (graphGroup st))
  | _ => true
  end.

Inductive reachable : state → Prop :=
| reachable_initial : reachable initial_state
| reachable_step e st :
    reachable st → enabled e st = true → reachable (step e st).

(** ** Auxiliary definitions of the statements *)

(** The channels of a finite fraction [t], as integers. *)
Definition red_Z (t : Q) : Z := Qfloor (255 * t).
Definition blue_Z (t : Q) : Z := Qfloor (255 * (1 - t)).

(** The weight rule in the words of the specification: [weight] when it is
    present, otherwise [value], and 1 exactly when neither is present. *)
Definition weight_as_stated (l : link_json) : Q :=
  match weight l with
  | Some w => w
  | None => match value l with Some v => v | None => 1%Q end
  end.

(** Both endpoints of a link were found among the nodes. *)
Definition resolved (l : link) : bool :=
  match sourceObj l, targetObj l with
  | Some _, Some _ => true
  | _, _ => false
  end.

(** Colours that [getColorForWeight] gives: with no green. *)
Definition weight_color (c : Z) : Prop := hex_green c = 0.

(** The references a graph and the scene hold to each other are live and
    unshared.  Every reachable state satisfies this (lemma
    [reachable_wf]). *)
Record wf (g : graph) (sc : scene) : Prop := Wf {
  wf_mesh : ∀ k n, graph_nodes g !! k = Some n →
    ∃ m, mesh n = Some m ∧ (m < length (meshes sc))%nat;
  wf_mesh_inj : ∀ k1 k2 n1 n2 m,
    graph_nodes g !! k1 = Some n1 → graph_nodes g !! k2 = Some n2 →
    mesh n1 = Some m → mesh n2 = Some m → k1 = k2;
  wf_source : ∀ k l s, graph_links g !! k = Some l → sourceObj l = Some s →
    (s < length (graph_nodes g))%nat;
  wf_target : ∀ k l t, graph_links g !! k = Some l → targetObj l = Some t →
    (t < length (graph_nodes g))%nat;
  wf_line : ∀ k l, graph_links g !! k = Some l → resolved l = true →
    ∃ r ln, line l = Some r ∧ lines sc !! r = Some ln
            ∧ length (positions ln) = 2%nat;
  wf_line_inj : ∀ k1 k2 l1 l2 r,
    graph_links g !! k1 = Some l1 → graph_links g !! k2 = Some l2 →
    line l1 = Some r → line l2 = Some r → k1 = k2;
  wf_child_mesh : ∀ m, ChildMesh m ∈ children sc →
    ∃ mo, meshes sc !! m = Some mo
          ∧ ∀ r, r ∈ mesh_links mo → (r < length (lines sc))%nat;
  wf_child_line : ∀ r, ChildLine r ∈ children sc →
    ∃ ln c, lines sc !! r = Some ln ∧ originalColor ln = Some c
            ∧ weight_color c
}.

Definition graph_1_5 : graph_json :=
  GraphJson [NodeJson "a"; NodeJson "b"; NodeJson "c"]
    [LinkJson "a" "b" (Some 1%Q) None; LinkJson "b" "c" (Some 5%Q) None].

Definition graph_3_3 : graph_json :=
  GraphJson [NodeJson "a"; NodeJson "b"; NodeJson "c"]
    [LinkJson "a" "b" (Some 3%Q) None; LinkJson "b" "c" None (Some 3%Q)].

(** What the loop that creates the lines has done after the links [done]
    (now [done']), from the scene [sc0] to the scene [sc]. *)
Record created (ns : list node) (min max : jsnum) (sc0 : scene)
  (done done' : list link) (sc : scene) : Prop := Created {
  cr_count : length (lines sc)
    = (length (lines sc0) + length (filter (λ l, resolved l = true) done))%nat;
  cr_old_lines : ∀ r, (r < length (lines sc0))%nat →
    lines sc !! r = lines sc0 !! r;
  cr_children : children sc
    = children sc0
      ++ map ChildLine (seq (length (lines sc0))
                          (length (filter (λ l, resolved l = true) done)));
  cr_refs : omap line done'
    = seq (length (lines sc0))
        (length (filter (λ l, resolved l = true) done));
  cr_links : Forall2 (λ l l',
      json l' = json l ∧ sourceObj l' = sourceObj l
      ∧ targetObj l' = targetObj l
      ∧ (resolved l = false → line l' = None)
      ∧ (resolved l = true → ∃ r s t,
           line l' = Some r ∧ sourceObj l = Some s ∧ targetObj l = Some t
           ∧ lines sc !! r
             = Some (new_line (position_of ns sc0 s) (position_of ns sc0 t)
                       (getColorForWeight (effective_weight (json l)) min max)
                       (effective_weight (json l)) s t)))
    done done';
  cr_meshes_length : length (meshes sc) = length (meshes sc0);
  cr_meshes : ∀ m mo, meshes sc !! m = Some mo →
    ∃ mo0, meshes sc0 !! m = Some mo0
           ∧ mesh_id mo = mesh_id mo0 ∧ mesh_color mo = mesh_color mo0
           ∧ mesh_position mo = mesh_position mo0
           ∧ ∀ r, r ∈ mesh_links mo →
               r ∈ mesh_links mo0
               ∨ (length (lines sc0) ≤ r < length (lines sc))%nat
}.

(** The two halves of [renderGraph3D] when the font is loaded: the node
    objects and the scene after the first loop, the link objects and the
    scene after the last one. *)
Definition render_nodes (g : graph_json) (random : nat → Q) (st : state)
  : list node * scene :=
  init_nodes random 0 (nodes g) (clear (graphGroup st)).

Definition render_links (g : graph_json) (random : nat → Q) (st : state)
  : list link * scene :=
  let ns := (render_nodes g random st).1 in
  for_each_link
    (create_link ns (Math_min (weights (links g)))
       (Math_max (weights (links g))))
    (map (bind_link ns) (links g)) (render_nodes g random st).2.

(** What the tick handler and the hover code leave untouched in an object:
    the incident lines of a mesh; the recorded colour of a line, and that its
    position attribute holds two vertices. *)
Definition mesh_shape (m m' : mesh_obj) : Prop :=
  mesh_links m' = mesh_links m.

Definition line_shape (ln ln' : line_obj) : Prop :=
  originalColor ln' = originalColor ln
  ∧ (length (positions ln) = 2%nat → length (positions ln') = 2%nat).

(** Two scenes with the same children whose meshes and lines are related
    one by one. *)
Definition scene_rel (RM : relation mesh_obj) (RL : relation line_obj)
  (sc sc' : scene) : Prop :=
  children sc' = children sc
  ∧ Forall2 RM (meshes sc) (meshes sc')
  ∧ Forall2 RL (lines sc) (lines sc').

Definition same_shape : relation scene := scene_rel mesh_shape line_shape.

(** What the hover code leaves untouched besides: the position of a mesh and
    the vertices of a line. *)
Definition mesh_geometry (m m' : mesh_obj) : Prop :=
  mesh_position m' = mesh_position m.

Definition line_geometry (ln ln' : line_obj) : Prop :=
  positions ln' = positions ln.

Definition same_geometry : relation scene :=
  scene_rel mesh_geometry line_geometry.

(** Every line holds the positions of the meshes of its two endpoints, in
    single precision.  Every reachable state satisfies this (lemma
    [reachable_synced]). *)
Definition synced (g : graph) (sc : scene) : Prop :=
  ∀ k l s t r,
    graph_links g !! k = Some l →
    sourceObj l = Some s → targetObj l = Some t → line l = Some r →
    ∃ ln, lines sc !! r = Some ln
          ∧ positions ln = [to_float32 (position_of (graph_nodes g) sc s);
                            to_float32 (position_of (graph_nodes g) sc t)].

(** The line of a link in the second loop of the tick handler, when the link
    has one. *)
Definition tick_line (ns : list node) (sc : scene) (min max : jsnum)
  (l : link) (lns : list line_obj) : list line_obj :=
  match sourceObj l, targetObj l, line l with
  | Some s, Some t, Some r =>
      alter (update_line (position_of ns sc s) (position_of ns sc t)
               (getColorForWeight (effective_weight (json l)) min max)
               (effective_weight (json l))) r lns
  | _, _, _ => lns
  end.

(** The link [l] with endpoints [s] and [t] has a line of exactly two
    vertices, [v1] and [v2], and the meshes of the node objects [s] and [t]
    are at [p1] and [p2]. *)
Definition line_between (st : state) (l : link) (s t : nat) (p1 p2 : vec3)
  (v1 v2 : vertex) : Prop :=
  ∃ r ln n1 n2 m1 m2 mo1 mo2,
    line l = Some r
    ∧ lines (graphGroup st) !! r = Some ln
    ∧ graph_nodes (currentGraph st) !! s = Some n1
    ∧ graph_nodes (currentGraph st) !! t = Some n2
    ∧ mesh n1 = Some m1 ∧ mesh n2 = Some m2
    ∧ meshes (graphGroup st) !! m1 = Some mo1
    ∧ meshes (graphGroup st) !! m2 = Some mo2
    ∧ mesh_position mo1 = p1 ∧ mesh_position mo2 = p2
    ∧ positions ln = [v1; v2].

(** The number [a] is the finite number [q]. *)
Definition is_num (a : jsnum) (q : Q) : Prop := ∃ x, a = Num x ∧ (x == q)%Q.

(** The vertex [v] is the point [p]. *)
Definition at_point (v : vertex) (p : vec3) : Prop :=
  is_num v.1.1 p.1.1 ∧ is_num v.1.2 p.1.2 ∧ is_num v.2 p.2.

(** The line of [l] holds exactly the current positions of the two
    meshes. *)
Definition line_holds_positions (st : state) (l : link) (s t : nat) : Prop :=
  ∃ p1 p2 v1 v2,
    line_between st l s t p1 p2 v1 v2 ∧ at_point v1 p1 ∧ at_point v2 p2.

(** The line of [l] holds the current positions of the two meshes in single
    precision. *)
Definition line_follows_meshes (st : state) (l : link) (s t : nat) : Prop :=
  ∃ p1 p2, line_between st l s t p1 p2 (to_float32 p1) (to_float32 p2).

(** The line of [l] holds the positions of the two meshes in single
    precision, and these positions are the coordinates [coords s] and
    [coords t]. *)
Definition line_synced (st : state) (coords : nat → vec3) (l : link)
  (s t : nat) : Prop :=
  line_between st l s t (coords s) (coords t)
    (to_float32 (coords s)) (to_float32 (coords t)).

(** The example of the specification: three nodes, two links between them
    and one link to an unknown node [x]. *)
Definition graph_abc : graph_json :=
  GraphJson [NodeJson "a"; NodeJson "b"; NodeJson "c"]
    [LinkJson "a" "b" (Some 1%Q) None; LinkJson "b" "c" (Some 5%Q) None;
     LinkJson "a" "x" (Some 3%Q) None].

Definition random_half : nat → Q := λ _, (1 # 2)%Q.

Definition coords_k : nat → vec3 := λ k, (inject_Z (Z.of_nat k), 1, 2)%Q.

(** Coordinates that need more than the 24 bits of single precision:
    [k + 1 + 2 ^ -30] for the [k]-th node. *)
Definition coords_fine : nat → vec3 :=
  λ k, (inject_Z (Z.of_nat k) + 1 + (1 # 2 ^ 30), 1, 2)%Q.

(** The page after the font has loaded. *)
Definition state_font : state := step FontLoaded initial_state.

(** The page after the font has loaded and the example of the specification
    has arrived as the initial graph: its render has thrown. *)
Definition state_abc : state :=
  step (InitialSettled (Resolved graph_abc) random_half)
    (step FontLoaded initial_state).

(** The page after the font has loaded and a graph of three nodes and two
    links has been rendered. *)
Definition state_1_5 : state :=
  step (InitialSettled (Resolved graph_1_5) random_half)
    (step FontLoaded initial_state).

Definition highlight_color : Z := 0xffff00.
Definition default_color : Z := 0xffffff.

(** In the scene exactly the mesh [obj] and the lines of its incident-line
    list have the highlight colour: the other node meshes have the default
    colour, the other lines their recorded colour or the gray (neither is the
    highlight colour) and the default opacity. *)
Definition highlighted_exactly (obj : nat) (sc : scene) : Prop :=
  (∃ mo, meshes sc !! obj = Some mo
         ∧ mesh_color mo = highlight_color
         ∧ ∀ r, r ∈ mesh_links mo →
             ∃ ln, lines sc !! r = Some ln ∧ line_color ln = highlight_color)
  ∧ (∀ m, ChildMesh m ∈ children sc → m ≠ obj →
       ∃ mo, meshes sc !! m = Some mo ∧ mesh_color mo = default_color)
  ∧ (∀ r, ChildLine r ∈ children sc → r ∉ userData_links sc obj →
       ∃ ln, lines sc !! r = Some ln
             ∧ line_color ln = orig_or_gray ln
             ∧ line_color ln ≠ highlight_color
             ∧ opacity ln = (9 # 10)%Q).

(** No highlight is left: every node mesh has the default colour, every line
    its recorded colour, or the gray where none is recorded or it is 0, and
    the default opacity. *)
Definition highlights_reset (sc : scene) : Prop :=
  (∀ m, ChildMesh m ∈ children sc →
     ∃ mo, meshes sc !! m = Some mo ∧ mesh_color mo = default_color)
  ∧ (∀ r, ChildLine r ∈ children sc →
       ∃ ln, lines sc !! r = Some ln
             ∧ line_color ln = orig_or_gray ln
             ∧ opacity ln = (9 # 10)%Q).

(** The page after the pointer has met the mesh of ["b"] and the simulation
    has then made a step. *)
Definition state_hover_tick : state :=
  step (Tick coords_k) (step (MouseMove (Some 1%nat)) state_1_5).

(** The number of links of [g] that get a line. *)
Definition rendered_links (g : graph_json) : nat :=
  length (filter (λ lj, endpoints_known g lj = true) (links g)).

(** The example of the specification with another weight on the link that is
    dropped. *)
Definition graph_abc_9 : graph_json :=
  GraphJson [NodeJson "a"; NodeJson "b"; NodeJson "c"]
    [LinkJson "a" "b" (Some 1%Q) None; LinkJson "b" "c" (Some 5%Q) None;
     LinkJson "a" "x" (Some 9%Q) None].

(** The colours of the lines among the children of a scene, in order. *)
Definition child_line_colors (sc : scene) : list Z :=
  omap (λ c, match c with
             | ChildLine r => line_color <$> lines sc !! r
             | ChildMesh _ => None
             end) (children sc).

(** The shapes are preorders; the constructors of [child] are injective. *)
#[global] Instance mesh_shape_refl : Reflexive mesh_shape.
Proof. by intros m. Qed.

#[global] Instance mesh_shape_trans : Transitive mesh_shape.
Proof. unfold mesh_shape. intros a b c ? ?. congruence. Qed.

#[global] Instance line_shape_refl : Reflexive line_shape.
Proof. by intros ln. Qed.

#[global] Instance line_shape_trans : Transitive line_shape.
Proof.
  unfold line_shape. intros a b c [? ?] [? ?]. split; [congruence|auto].
Qed.

#[global] Instance mesh_geometry_refl : Reflexive mesh_geometry.
Proof. by intros m. Qed.

#[global] Instance mesh_geometry_trans : Transitive mesh_geometry.
Proof. unfold mesh_geometry. intros a b c ? ?. congruence. Qed.

#[global] Instance line_geometry_refl : Reflexive line_geometry.
Proof. by intros ln. Qed.

#[global] Instance line_geometry_trans : Transitive line_geometry.
Proof. unfold line_geometry. intros a b c ? ?. congruence. Qed.

#[global] Instance scene_rel_refl RM RL `{!Reflexive RM, !Reflexive RL} :
  Reflexive (scene_rel RM RL).
Proof. intros sc. by repeat split. Qed.

#[global] Instance scene_rel_trans RM RL `{!Transitive RM, !Transitive RL} :
  Transitive (scene_rel RM RL).
Proof.
  intros a b c (? & ? & ?) (? & ? & ?). repeat split.
  - congruence.
  - by etransitivity.
  - by etransitivity.
Qed.

#[global] Instance same_shape_refl : Reflexive same_shape.
Proof. apply _. Qed.

#[global] Instance same_shape_trans : Transitive same_shape.
Proof. apply _. Qed.

#[global] Instance same_geometry_refl : Reflexive same_geometry.
Proof. apply _. Qed.

#[global] Instance same_geometry_trans : Transitive same_geometry.
Proof. apply _. Qed.

#[global] Instance ChildMesh_inj : Inj (=) (=) ChildMesh.
Proof. by intros a b [= ->]. Qed.

#[global] Instance ChildLine_inj : Inj (=) (=) ChildLine.
Proof. by intros a b [= ->]. Qed.

(** ** The pointer (source.js, lines 223-224) *)

(** [a + b] and [-a] on numbers *)
Definition js_add (a b : jsnum) : jsnum :=
  match a, b with
  | NaN, _ | _, NaN => NaN
  | Num x, Num y => Num (x + y)
  | PosInf, NegInf | NegInf, PosInf => NaN
  | PosInf, _ | _, PosInf => PosInf
  | NegInf, _ | _, NegInf => NegInf
  end.

Definition js_neg (a : jsnum) : jsnum :=
  match a with
  | Num x => Num (- x)
  | PosInf => NegInf
  | NegInf => PosInf
  | NaN => NaN
  end.

(** [mouse.x = (event.clientX / window.innerWidth) * 2 - 1] *)
Definition mouse_x (clientX innerWidth : jsnum) : jsnum :=
  ((clientX / innerWidth) * Num 2 - Num 1)%js.

(** [mouse.y = -(event.clientY / window.innerHeight) * 2 + 1] *)
Definition mouse_y (clientY innerHeight : jsnum) : jsnum :=
  js_add (js_neg (clientY / innerHeight) * Num 2)%js (Num 1).

(** [Number.MAX_VALUE], the largest binary64 number *)
Definition MAX_VALUE : Q := inject_Z (2 ^ 1024 - 2 ^ 971).

(** The response of a submit that carries the document [res]. *)
Definition as_response (res : fetched graph_json) : fetched submit_response :=
  match res with
  | FetchRejected => FetchRejected
  | JsonRejected => JsonRejected
  | Resolved g => Resolved (SubmitResponse g)
  end.

(** ** Invariants of the page *)

(** Nothing has been rendered and nothing is highlighted. *)
Definition nothing_rendered (st : state) : Prop :=
  currentGraph st = Graph [] []
  ∧ graphGroup st = Scene [] [] []
  ∧ highlightedNode st = None
  ∧ tooltip_visible st = false.

(** ** What a render builds *)

(** The colour [renderGraph3D] computes for a link of the snapshot [g]. *)
Definition colour_of (g : graph_json) (lj : link_json) : Z :=
  getColorForWeight (effective_weight lj) (Math_min (weights (links g)))
    (Math_max (weights (links g))).

(** The links of [g] whose two ids are ids of nodes of [g], in order. *)
Definition known_links (g : graph_json) : list link_json :=
  filter (λ lj, endpoints_known g lj = true) (links g).

(** The colours of the lines the loop has created after the links [done]. *)
Definition painted (min max : jsnum) (sc0 : scene) (done : list link)
  (sc : scene) : Prop :=
  (length (lines sc0) ≤ length (lines sc))%nat
  ∧ map line_color (drop (length (lines sc0)) (lines sc))
    = map (λ l, getColorForWeight (effective_weight (json l)) min max)
        (filter (λ l, resolved l = true) done).

(** ** What no handler changes *)

(** The label and the incident-line list of a mesh, the recorded colour and
    the two node objects of a line are set when the object is created and
    never after. *)
Definition mesh_static (m m' : mesh_obj) : Prop :=
  mesh_id m' = mesh_id m ∧ mesh_links m' = mesh_links m.

Definition line_static (ln ln' : line_obj) : Prop :=
  originalColor ln' = originalColor ln
  ∧ ud_source ln' = ud_source ln ∧ ud_target ln' = ud_target ln.

(** The tick handler besides leaves the colour of a mesh as it is. *)
Definition mesh_paint (m m' : mesh_obj) : Prop :=
  mesh_static m m' ∧ mesh_color m' = mesh_color m.

#[global] Instance mesh_static_refl : Reflexive mesh_static.
Proof. by intros m. Qed.

#[global] Instance mesh_static_trans : Transitive mesh_static.
Proof. unfold mesh_static. intros a b c [? ?] [? ?]. split; congruence. Qed.

#[global] Instance line_static_refl : Reflexive line_static.
Proof. by intros ln. Qed.

#[global] Instance line_static_trans : Transitive line_static.
Proof.
  unfold line_static. intros a b c (? & ? & ?) (? & ? & ?).
  repeat split; congruence.
Qed.

#[global] Instance mesh_paint_refl : Reflexive mesh_paint.
Proof. by intros m. Qed.

#[global] Instance mesh_paint_trans : Transitive mesh_paint.
Proof.
  unfold mesh_paint. intros a b c [? ?] [? ?].
  split; [by etransitivity|congruence].
Qed.

(** The group holds the meshes of the nodes and the lines of the links of the
    current graph, a line refers to the endpoints of its link, and the
    incident-line list of the mesh of a node holds the lines of the links
    that have the node as source or as target.  Every reachable state
    satisfies this (lemma [reachable_structure]). *)
Record structure (g : graph) (sc : scene) : Prop := Structure {
  st_child_mesh : ∀ m, ChildMesh m ∈ children sc ↔
    ∃ k n, graph_nodes g !! k = Some n ∧ mesh n = Some m;
  st_child_line : ∀ r, ChildLine r ∈ children sc ↔
    ∃ k l, graph_links g !! k = Some l ∧ line l = Some r;
  st_ends : ∀ k l r, graph_links g !! k = Some l → line l = Some r →
    ∃ ln s t, lines sc !! r = Some ln
              ∧ sourceObj l = Some s ∧ targetObj l = Some t
              ∧ ud_source ln = s ∧ ud_target ln = t;
  st_incident : ∀ k n m mo r,
    graph_nodes g !! k = Some n → mesh n = Some m →
    meshes sc !! m = Some mo →
    (r ∈ mesh_links mo ↔
     ∃ j l, graph_links g !! j = Some l ∧ line l = Some r
            ∧ (sourceObj l = Some k ∨ targetObj l = Some k))
}.

(** What the loop that creates the lines has pushed to the incident-line
    lists after the links [done']. *)
Definition pushed (ns : list node) (sc0 : scene) (done' : list link)
  (sc : scene) : Prop :=
  ∀ k n m mo, ns !! k = Some n → mesh n = Some m → meshes sc !! m = Some mo →
    ∃ mo0, meshes sc0 !! m = Some mo0
           ∧ ∀ r, r ∈ mesh_links mo ↔
                  r ∈ mesh_links mo0
                  ∨ ∃ l, l ∈ done' ∧ line l = Some r
                         ∧ (sourceObj l = Some k ∨ targetObj l = Some k).

(** The weights of the links of the current graph. *)
Definition current_weights (st : state) : list Q :=
  weights (map json (graph_links (currentGraph st))).

(** The recorded colour of the line of every link is the colour of the
    effective weight of the link between the least and the greatest weight
    of the current graph, which are finite and have that weight between
    them; a simulation that was not stopped has these two bounds.  Every
    reachable state satisfies this (lemma [reachable_coloured]). *)
Record coloured (st : state) : Prop := Coloured {
  col_lines : ∀ k l r,
    graph_links (currentGraph st) !! k = Some l → line l = Some r →
    ∃ ln mn mx,
      lines (graphGroup st) !! r = Some ln
      ∧ Math_min (current_weights st) = Num mn
      ∧ Math_max (current_weights st) = Num mx
      ∧ (mn <= effective_weight (json l) <= mx)%Q
      ∧ originalColor ln
        = Some (getColorForWeight (effective_weight (json l))
                  (Math_min (current_weights st))
                  (Math_max (current_weights st)));
  col_running : ∀ sim,
    simulation st = Some sim → stopped sim = false →
    minWeight sim = Math_min (current_weights st)
    ∧ maxWeight sim = Math_max (current_weights st)
}.

(** While a simulation makes steps, both endpoints of every link of the
    current graph have resolved; while none does, every node mesh of the
    group is where the render has put it, at the origin.  Every reachable
    state satisfies this (lemma [reachable_laid_out]). *)
Record laid_out (st : state) : Prop := LaidOut {
  lo_running : running st = true →
    ∀ k l, graph_links (currentGraph st) !! k = Some l → resolved l = true;
  lo_still : running st = false →
    ∀ m, ChildMesh m ∈ children (graphGroup st) →
         ∃ mo, meshes (graphGroup st) !! m = Some mo
               ∧ mesh_position mo = origin
}.

(** At most one node is highlighted: the highlighted node, if any, is a mesh
    of the store whose label the visible tooltip shows; every node mesh of
    the group has the default colour, but the highlighted one, which has the
    highlight colour.  Every reachable state satisfies this (lemma
    [reachable_lit]). *)
Record lit (st : state) : Prop := Lit {
  lit_live : ∀ h, highlightedNode st = Some h →
    (h < length (meshes (graphGroup st)))%nat
    ∧ tooltip_visible st = true
    ∧ tooltip_innerHTML st = userData_id (graphGroup st) h;
  lit_none : highlightedNode st = None → tooltip_visible st = false;
  lit_colors : ∀ m, ChildMesh m ∈ children (graphGroup st) →
    ∃ mo, meshes (graphGroup st) !! m = Some mo
          ∧ mesh_color mo
            = if decide (highlightedNode st = Some m) then highlight_color
              else default_color
}.

(** * Properties *)

Example color_low : getColorForWeight (Num 1) (Num 1) (Num 5) = 0x0000ff.
Proof. vm_compute. reflexivity. Qed.

Example color_high : getColorForWeight (Num 5) (Num 1) (Num 5) = 0xff0000.
Proof. vm_compute. reflexivity. Qed.

Example color_mid : getColorForWeight (Num 3) (Num 1) (Num 5) = 0x7f007f.
Proof. vm_compute. reflexivity. Qed.

(** ** Facts about the numbers *)

Section Numbers.
Local Open Scope Q_scope.

Lemma Math_min_Num (ws : list Q) : ws ≠ [] → ∃ m, Math_min ws = Num m.
Proof.
  destruct ws as [|w ws]; [done|]. intros _. simpl.
  destruct (Math_min ws); eauto.
Qed.

Lemma Math_max_Num (ws : list Q) : ws ≠ [] → ∃ m, Math_max ws = Num m.
Proof.
  destruct ws as [|w ws]; [done|]. intros _. simpl.
  destruct (Math_max ws); eauto.
Qed.

Lemma Math_min_le (ws : list Q) m w :
  Math_min ws = Num m → w ∈ ws → m <= w.
Proof.
  revert m. induction ws as [|v ws IH]; intros m Hm Hw.
  - by apply elem_of_nil in Hw.
  - simpl in Hm. apply elem_of_cons in Hw.
    destruct (Math_min ws) as [m'| | |] eqn:E.
    + injection Hm as <-. destruct Hw as [->|Hw].
      * apply Q.le_min_l.
      * eapply Qle_trans; [apply Q.le_min_r|]. by apply IH.
    + destruct ws; [|simpl in E; destruct (Math_min ws); discriminate].
      injection Hm as <-. destruct Hw as [->|Hw]; [apply Qle_refl|].
      by apply elem_of_nil in Hw.
    + destruct ws; simpl in E; [discriminate|destruct (Math_min ws); discriminate].
    + destruct ws; simpl in E; [discriminate|destruct (Math_min ws); discriminate].
Qed.

Lemma Math_max_le (ws : list Q) m w :
  Math_max ws = Num m → w ∈ ws → w <= m.
Proof.
  revert m. induction ws as [|v ws IH]; intros m Hm Hw.
  - by apply elem_of_nil in Hw.
  - simpl in Hm. apply elem_of_cons in Hw.
    destruct (Math_max ws) as [m'| | |] eqn:E.
    + injection Hm as <-. destruct Hw as [->|Hw].
      * apply Q.le_max_l.
      * eapply Qle_trans; [|apply Q.le_max_r]. by apply IH.
    + destruct ws; simpl in E; [discriminate|destruct (Math_max ws); discriminate].
    + destruct ws; [|simpl in E; destruct (Math_max ws); discriminate].
      injection Hm as <-. destruct Hw as [->|Hw]; [apply Qle_refl|].
      by apply elem_of_nil in Hw.
    + destruct ws; simpl in E; [discriminate|destruct (Math_max ws); discriminate].
Qed.

Lemma Qeq_bool_false (a b : Q) : Qeq_bool a b = false ↔ ¬ a == b.
Proof.
  split.
  - intros H E. apply Qeq_bool_iff in E. congruence.
  - intros H. destruct (Qeq_bool a b) eqn:E; [|done].
    apply Qeq_bool_iff in E. contradiction.
Qed.

Lemma Qminus_0 (a b : Q) : a - b == 0 ↔ a == b.
Proof.
  split; intros H.
  - transitivity (a - b + b); [ring|]. rewrite H. ring.
  - rewrite H. ring.
Qed.

Lemma divisor_fin (mn mx : Q) :
  ¬ mn == mx → divisor (Num mn) (Num mx) = Num (mx - mn).
Proof.
  intros H. unfold divisor, or_else. simpl.
  replace (Qeq_bool (mx - mn) 0) with false; [done|].
  symmetry. apply Qeq_bool_false. intros E. apply H.
  symmetry. by apply Qminus_0.
Qed.

Lemma divisor_equal (mn mx : Q) :
  mn == mx → divisor (Num mn) (Num mx) = Num 1.
Proof.
  intros H. unfold divisor, or_else. simpl.
  replace (Qeq_bool (mx - mn) 0) with true; [done|].
  symmetry. apply Qeq_bool_iff. rewrite H. ring.
Qed.

Lemma normalize_fin (w mn mx : Q) :
  ¬ mn == mx → normalize (Num w) (Num mn) (Num mx) = Num ((w - mn) / (mx - mn)).
Proof.
  intros H. unfold normalize. rewrite divisor_fin by done. simpl.
  unfold sgn. destruct (0 ?= mx - mn) eqn:E; [|done..].
  apply Qeq_alt in E. exfalso. apply H. symmetry. apply Qminus_0. by symmetry.
Qed.

Lemma normalize_equal (w mn mx : Q) :
  mn == mx → normalize (Num w) (Num mn) (Num mx) = Num ((w - mn) / 1).
Proof.
  intros H. unfold normalize. by rewrite divisor_equal.
Qed.

Lemma red_fin (t : Q) : red (Num t) = Num (inject_Z (red_Z t)).
Proof. reflexivity. Qed.

Lemma blue_fin (t : Q) : blue (Num t) = Num (inject_Z (blue_Z t)).
Proof. reflexivity. Qed.

Lemma red_Z_mono (t1 t2 : Q) : t1 <= t2 → (red_Z t1 ≤ red_Z t2)%Z.
Proof.
  intros H. apply Qfloor_resp_le. apply Qmult_le_l; [reflexivity|done].
Qed.

Lemma blue_Z_anti (t1 t2 : Q) : t1 <= t2 → (blue_Z t2 ≤ blue_Z t1)%Z.
Proof.
  intros H. apply Qfloor_resp_le. apply Qmult_le_l; [reflexivity|].
  apply Qplus_le_r. by apply Qopp_le_compat.
Qed.

Lemma red_Z_bounds (t : Q) : 0 <= t <= 1 → (0 ≤ red_Z t ≤ 255)%Z.
Proof.
  intros [H0 H1]. unfold red_Z. split.
  - rewrite <- (Qfloor_Z 0). apply Qfloor_resp_le.
    apply Qmult_le_0_compat; [discriminate|done].
  - rewrite <- (Qfloor_Z 255) at 2. apply Qfloor_resp_le.
    change (inject_Z 255) with (255 * 1).
    apply Qmult_le_l; [reflexivity|done].
Qed.

Lemma blue_Z_bounds (t : Q) : 0 <= t <= 1 → (0 ≤ blue_Z t ≤ 255)%Z.
Proof.
  intros [H0 H1]. unfold blue_Z. split.
  - rewrite <- (Qfloor_Z 0). apply Qfloor_resp_le.
    apply Qmult_le_0_compat; [discriminate|].
    apply (Qplus_le_l _ _ t). ring_simplify. done.
  - rewrite <- (Qfloor_Z 255) at 2. apply Qfloor_resp_le.
    change (inject_Z 255) with (255 * 1).
    apply Qmult_le_l; [reflexivity|].
    apply (Qplus_le_l _ _ t). ring_simplify.
    apply (Qplus_le_l _ _ (-1)). ring_simplify. done.
Qed.

Lemma fraction_mono (w1 w2 mn mx : Q) :
  mn < mx → w1 <= w2 → (w1 - mn) / (mx - mn) <= (w2 - mn) / (mx - mn).
Proof.
  intros Hlt H. apply Qmult_le_r.
  - apply Qinv_lt_0_compat. by apply Qlt_minus_iff in Hlt.
  - apply Qplus_le_l. done.
Qed.

Lemma fraction_bounds (w mn mx : Q) :
  mn < mx → mn <= w <= mx → 0 <= (w - mn) / (mx - mn) <= 1.
Proof.
  intros Hlt [H1 H2].
  assert (0 < mx - mn) as Hpos by (by apply Qlt_minus_iff in Hlt).
  split.
  - apply Qle_shift_div_l; [done|]. ring_simplify.
    apply (Qplus_le_l _ _ mn). ring_simplify. done.
  - apply Qle_shift_div_r; [done|]. ring_simplify.
    apply (Qplus_le_l _ _ mn). ring_simplify. done.
Qed.

Lemma wrap32_small (z : Z) : (- 2 ^ 31 ≤ z < 2 ^ 31)%Z → wrap32 z = z.
Proof.
  intros H. unfold wrap32. rewrite Z.mod_small; lia.
Qed.

Lemma Qtrunc_Z (z : Z) : Qtrunc (inject_Z z) = z.
Proof.
  unfold Qtrunc. destruct (Qle_bool 0 (inject_Z z)).
  - apply Qfloor_Z.
  - apply Qceiling_Z.
Qed.

Lemma ToInt32_Z (z : Z) :
  (- 2 ^ 31 ≤ z < 2 ^ 31)%Z → ToInt32 (Num (inject_Z z)) = z.
Proof. intros H. simpl. rewrite Qtrunc_Z. by apply wrap32_small. Qed.

Lemma land_shifted_byte (r b : Z) :
  (0 ≤ b < 2 ^ 16)%Z → Z.land (Z.shiftl r 16) b = 0%Z.
Proof.
  intros Hb. apply Z.bits_inj'. intros n Hn.
  rewrite Z.land_spec, Z.bits_0.
  destruct (Z.lt_ge_cases n 16) as [Hlt|Hge].
  - rewrite Z.shiftl_spec_low by done. done.
  - rewrite <- (Z.mod_small b (2 ^ 16)) by done.
    rewrite Z.mod_pow2_bits_high by lia. apply andb_false_r.
Qed.

Lemma lor_shifted_byte (r b : Z) :
  (0 ≤ b < 2 ^ 16)%Z → Z.lor (Z.shiftl r 16) b = (r * 65536 + b)%Z.
Proof.
  intros Hb. rewrite <- Z.lxor_lor by (by apply land_shifted_byte).
  rewrite <- Z.add_nocarry_lxor by (by apply land_shifted_byte).
  rewrite Z.shiftl_mul_pow2 by lia. done.
Qed.

(** The integer the bitwise operators build from two channels in range. *)
Lemma pack_channels (r b : Z) :
  (0 ≤ r ≤ 255)%Z → (0 ≤ b ≤ 255)%Z →
  bitor (bitor (shl (Num (inject_Z r)) 16) (shl green 8))
    (ToInt32 (Num (inject_Z b))) = (r * 65536 + b)%Z.
Proof.
  intros Hr Hb. unfold bitor, shl.
  rewrite !ToInt32_Z by lia.
  change (wrap32 (Z.shiftl (ToInt32 green) 8)) with 0%Z.
  rewrite Z.lor_0_r.
  rewrite wrap32_small by (rewrite Z.shiftl_mul_pow2; lia).
  apply lor_shifted_byte. lia.
Qed.

Lemma hex_channels (r b : Z) :
  (0 ≤ r ≤ 255)%Z → (0 ≤ b ≤ 255)%Z →
  hex_red (r * 65536 + b) = r ∧ hex_green (r * 65536 + b) = 0%Z
  ∧ hex_blue (r * 65536 + b) = b.
Proof.
  intros Hr Hb. unfold hex_red, hex_green, hex_blue.
  change 255%Z with (Z.ones 8). rewrite !Z.land_ones by lia.
  rewrite !Z.shiftr_div_pow2 by lia.
  change (2 ^ 16)%Z with 65536%Z. change (2 ^ 8)%Z with 256%Z.
  repeat split.
  - rewrite Z.div_add_l by lia. rewrite (Z.div_small b) by lia.
    rewrite Z.add_0_r. apply Z.mod_small. change (Z.ones 8) with 255%Z in *. lia.
  - replace (r * 65536 + b)%Z with (b + (r * 256) * 256)%Z by lia.
    rewrite Z.div_add by lia. rewrite (Z.div_small b) by (change (Z.ones 8) with 255%Z in *; lia).
    rewrite Z.add_0_l. apply Z.mod_mul. lia.
  - replace (r * 65536 + b)%Z with (b + (r * 256) * 256)%Z by lia.
    rewrite Z.mod_add by lia. apply Z.mod_small. change (Z.ones 8) with 255%Z in *. lia.
Qed.

(** The colour of a weight between two distinct bounds. *)
Lemma getColorForWeight_fin (w mn mx : Q) :
  mn < mx → mn <= w <= mx →
  let t := (w - mn) / (mx - mn) in
  getColorForWeight (Num w) (Num mn) (Num mx)
  = (red_Z t * 65536 + blue_Z t)%Z.
Proof.
  intros Hlt Hw t. unfold getColorForWeight.
  rewrite normalize_fin by (intros E; rewrite E in Hlt; by apply Qlt_irrefl in Hlt).
  fold t. rewrite red_fin, blue_fin.
  pose proof (fraction_bounds w mn mx Hlt Hw) as Ht. fold t in Ht.
  apply pack_channels; [by apply red_Z_bounds|by apply blue_Z_bounds].
Qed.

End Numbers.

Section WeightColour.
Local Open Scope Q_scope.

Lemma weight_color_fin (t : Q) :
  0 <= t <= 1 → weight_color (red_Z t * 65536 + blue_Z t).
Proof.
  intros Ht.
  pose proof (red_Z_bounds _ Ht) as Hr. pose proof (blue_Z_bounds _ Ht) as Hb.
  by apply hex_channels.
Qed.

(** The colour of a weight between the bounds has no green. *)
Lemma getColorForWeight_weight_color (w mn mx : Q) :
  mn <= w <= mx → weight_color (getColorForWeight w mn mx).
Proof.
  intros [H1 H2].
  destruct (Qlt_le_dec mn mx) as [Hlt|Hge].
  - rewrite getColorForWeight_fin by done.
    apply weight_color_fin. by apply fraction_bounds.
  - assert (mn == mx) as Heq.
    { apply Qle_antisym; [|done]. by apply Qle_trans with w. }
    unfold getColorForWeight. rewrite normalize_equal by done.
    rewrite red_fin, blue_fin.
    assert ((w - mn) / 1 == 0) as Ht.
    { assert (w == mn) as -> by (apply Qle_antisym; [by rewrite Heq|done]). field. }
    unfold red_Z, blue_Z. rewrite !Ht.
    change (Qfloor (255 * 0)) with 0%Z. change (Qfloor (255 * (1 - 0))) with 255%Z.
    rewrite pack_channels by lia. reflexivity.
Qed.

End WeightColour.

(** ** The loops of [renderGraph3D] *)

Section InitNodes.
Context (random : nat → Q).

Lemma init_nodes_meshes k ns sc :
  meshes (init_nodes random k ns sc).2
  = meshes sc ++ map (λ n, new_mesh (id n)) ns.
Proof.
  revert k sc. induction ns as [|n ns IH]; intros k sc; simpl.
  - by rewrite app_nil_r.
  - specialize (IH (S k) (init_node random k n sc).2).
    destruct (init_nodes random (S k) ns _) as [nds sc2] eqn:E. simpl in *.
    rewrite IH. by rewrite <- app_assoc.
Qed.

Lemma init_nodes_lines k ns sc :
  lines (init_nodes random k ns sc).2 = lines sc.
Proof.
  revert k sc. induction ns as [|n ns IH]; intros k sc; simpl; [done|].
  specialize (IH (S k) (init_node random k n sc).2).
  destruct (init_nodes random (S k) ns _) as [nds sc2] eqn:E. simpl in *.
  by rewrite IH.
Qed.

Lemma init_nodes_children k ns sc :
  children (init_nodes random k ns sc).2
  = children sc ++ map ChildMesh (seq (length (meshes sc)) (length ns)).
Proof.
  revert k sc. induction ns as [|n ns IH]; intros k sc; simpl.
  - by rewrite app_nil_r.
  - specialize (IH (S k) (init_node random k n sc).2).
    destruct (init_nodes random (S k) ns _) as [nds sc2] eqn:E. simpl in *.
    rewrite IH. rewrite length_app. simpl.
    rewrite <- app_assoc. simpl. by rewrite Nat.add_1_r.
Qed.

Lemma init_nodes_mesh k ns sc :
  map mesh (init_nodes random k ns sc).1
  = map Some (seq (length (meshes sc)) (length ns)).
Proof.
  revert k sc. induction ns as [|n ns IH]; intros k sc; simpl; [done|].
  specialize (IH (S k) (init_node random k n sc).2).
  destruct (init_nodes random (S k) ns _) as [nds sc2] eqn:E. simpl in *.
  rewrite IH. rewrite length_app. simpl. by rewrite Nat.add_1_r.
Qed.

Lemma init_nodes_id k ns sc :
  map node_id (init_nodes random k ns sc).1 = map id ns.
Proof.
  revert k sc. induction ns as [|n ns IH]; intros k sc; simpl; [done|].
  specialize (IH (S k) (init_node random k n sc).2).
  destruct (init_nodes random (S k) ns _) as [nds sc2] eqn:E. simpl in *.
  by rewrite IH.
Qed.

Lemma init_nodes_length k ns sc :
  length (init_nodes random k ns sc).1 = length ns.
Proof.
  rewrite <- (length_map node_id), init_nodes_id. apply length_map.
Qed.

(** The [k]-th node object refers to the [k]-th mesh allocated. *)
Lemma init_nodes_lookup k0 ns sc k n :
  (init_nodes random k0 ns sc).1 !! k = Some n →
  mesh n = Some (length (meshes sc) + k)%nat ∧ (k < length ns)%nat.
Proof.
  intros H.
  assert (map mesh (init_nodes random k0 ns sc).1 !! k = Some (mesh n)) as Hm
    by (by rewrite list_lookup_fmap, H).
  rewrite init_nodes_mesh, list_lookup_fmap in Hm.
  destruct (seq _ _ !! k) as [j|] eqn:E; [|done].
  apply lookup_seq in E as [-> ?]. simpl in Hm. by injection Hm as <-.
Qed.

End InitNodes.

Section ForEachLink.
Context (body : link → scene → link * scene).

Lemma for_each_link_snoc ls l sc :
  for_each_link body (ls ++ [l]) sc
  = ((for_each_link body ls sc).1
       ++ [(body l (for_each_link body ls sc).2).1],
     (body l (for_each_link body ls sc).2).2).
Proof.
  revert sc. induction ls as [|l0 ls IH]; intros sc; simpl.
  - by destruct (body l sc).
  - destruct (body l0 sc) as [l1 sc1]. rewrite IH.
    by destruct (for_each_link body ls sc1) as [ls1 sc2].
Qed.

(** An invariant of the loop holds at its end. *)
Lemma for_each_link_inv (I : list link → list link → scene → Prop) sc0 :
  I [] [] sc0 →
  (∀ done done' l sc,
     I done done' sc →
     I (done ++ [l]) (done' ++ [(body l sc).1]) (body l sc).2) →
  ∀ ls, I ls (for_each_link body ls sc0).1 (for_each_link body ls sc0).2.
Proof.
  intros H0 Hstep ls. induction ls as [|l ls IH] using rev_ind; [done|].
  rewrite for_each_link_snoc. simpl. by apply Hstep.
Qed.

End ForEachLink.

Section Push.
Context (ns : list node).

Lemma push_to_node_lines i r sc : lines (push_to_node ns i r sc) = lines sc.
Proof. unfold push_to_node. by repeat case_match. Qed.

Lemma push_to_node_children i r sc :
  children (push_to_node ns i r sc) = children sc.
Proof. unfold push_to_node. by repeat case_match. Qed.

Lemma push_to_node_length i r sc :
  length (meshes (push_to_node ns i r sc)) = length (meshes sc).
Proof.
  unfold push_to_node. repeat case_match; simpl; try done.
  apply length_alter.
Qed.

Lemma push_to_node_lookup i r sc m mo :
  meshes (push_to_node ns i r sc) !! m = Some mo →
  ∃ mo0, meshes sc !! m = Some mo0
         ∧ mesh_id mo = mesh_id mo0 ∧ mesh_color mo = mesh_color mo0
         ∧ mesh_position mo = mesh_position mo0
         ∧ ∀ x, x ∈ mesh_links mo → x ∈ mesh_links mo0 ∨ x = r.
Proof.
  unfold push_to_node. intros H.
  repeat case_match; simpl in H; try (by exists mo; eauto 10).
  destruct (decide (m = n0)) as [->|Hne].
  - rewrite list_lookup_alter_eq in H.
    destruct (meshes sc !! n0) as [mo0|]; [|done].
    injection H as <-. exists mo0. repeat split; try done.
    simpl. intros x Hx. apply elem_of_app in Hx as [?|Hx]; [by left|].
    right. by apply list_elem_of_singleton in Hx.
  - rewrite list_lookup_alter_ne in H by done. exists mo; eauto 10.
Qed.

End Push.

Section Create.
Context (ns : list node) (min max : jsnum) (sc0 : scene).

Lemma resolved_Some l s t :
  sourceObj l = Some s → targetObj l = Some t → resolved l = true.
Proof. unfold resolved. by intros -> ->. Qed.

Lemma resolved_true l :
  resolved l = true → ∃ s t, sourceObj l = Some s ∧ targetObj l = Some t.
Proof. unfold resolved. repeat case_match; naive_solver. Qed.

Lemma create_link_unresolved l sc :
  resolved l = false → create_link ns min max l sc = (l, sc).
Proof. unfold resolved, create_link. by repeat case_match. Qed.

Lemma position_of_same sc sc' i :
  length (meshes sc) = length (meshes sc') →
  (∀ m mo, meshes sc !! m = Some mo →
     ∃ mo', meshes sc' !! m = Some mo'
            ∧ mesh_position mo = mesh_position mo') →
  position_of ns sc i = position_of ns sc' i.
Proof.
  intros Hlen H. unfold position_of.
  destruct (ns !! i) as [n|]; [|done]. destruct (mesh n) as [r|]; [|done].
  destruct (meshes sc !! r) as [mo|] eqn:E.
  - by destruct (H _ _ E) as (mo' & -> & ->).
  - apply lookup_ge_None in E. rewrite Hlen in E.
    apply lookup_ge_None in E. by rewrite E.
Qed.

Lemma created_start : created ns min max sc0 [] [] sc0.
Proof.
  split; rewrite ?filter_nil; simpl; rewrite ?Nat.add_0_r, ?app_nil_r;
    try done.
  intros m mo H. exists mo. naive_solver.
Qed.

Lemma created_step done done' l sc :
  line l = None →
  created ns min max sc0 done done' sc →
  created ns min max sc0 (done ++ [l])
    (done' ++ [(create_link ns min max l sc).1])
    (create_link ns min max l sc).2.
Proof.
  intros Hl [Hcount Hold Hchildren Hrefs Hlinks Hlen Hmeshes].
  destruct (resolved l) eqn:Hres.
  - destruct (resolved_true _ Hres) as (s & t & Hs & Ht).
    unfold create_link. rewrite Hs, Ht. unfold create_line.
    set (ln := new_line _ _ _ _ s t).
    set (sc1 := {| meshes := meshes sc; lines := lines sc ++ [ln];
                   children := children sc ++ [ChildLine (length (lines sc))] |}).
    assert (filter (λ l, resolved l = true) (done ++ [l])
            = filter (λ l, resolved l = true) done ++ [l]) as Hfilter.
    { rewrite filter_app. f_equal. by rewrite filter_cons_True. }
    split; simpl; rewrite ?push_to_node_lines, ?push_to_node_children,
      ?push_to_node_length, ?Hfilter, ?length_app; simpl;
      rewrite ?length_app; simpl.
    + lia.
    + intros r Hr. rewrite lookup_app_l by lia. by apply Hold.
    + rewrite Hchildren, <- app_assoc. f_equal.
      rewrite Nat.add_1_r, seq_S, map_app. simpl. by rewrite Hcount.
    + rewrite omap_app. simpl. rewrite Hrefs, Nat.add_1_r, seq_S.
      by rewrite Hcount.
    + apply Forall2_app.
      * eapply Forall2_impl; [exact Hlinks|]. simpl.
        intros a b (? & ? & ? & ? & Hb). repeat split; try done.
        intros Ha. destruct (Hb Ha) as (r & s' & t' & ? & ? & ? & Hr).
        exists r, s', t'. repeat split; try done.
        by apply lookup_app_l_Some.
      * constructor; [|constructor]. simpl. repeat split; try done.
        -- congruence.
        -- intros _. exists (length (lines sc)), s, t.
           repeat split; try done.
           rewrite list_lookup_middle by done. unfold ln.
           rewrite !(position_of_same sc sc0); try done.
           all: intros m mo Hmo; destruct (Hmeshes m mo Hmo)
                  as (mo0 & ? & _ & _ & ? & _); by exists mo0.
    + done.
    + intros m mo Hmo.
      apply push_to_node_lookup in Hmo as (mo2 & Hmo2 & ? & ? & ? & Hl2).
      apply push_to_node_lookup in Hmo2 as (mo1 & Hmo1 & ? & ? & ? & Hl1).
      simpl in Hmo1. apply Hmeshes in Hmo1 as (mo0 & ? & ? & ? & ? & Hl0).
      exists mo0. repeat split; try congruence.
      intros r Hr. apply Hl2 in Hr as [Hr| ->]; [|right; lia].
      apply Hl1 in Hr as [Hr| ->]; [|right; lia].
      apply Hl0 in Hr as [Hr|Hr]; [by left|right; lia].
  - rewrite create_link_unresolved by done. simpl.
    assert (filter (λ l, resolved l = true) (done ++ [l])
            = filter (λ l, resolved l = true) done) as Hfilter.
    { rewrite filter_app, filter_cons_False by congruence.
      by rewrite filter_nil, app_nil_r. }
    split; rewrite ?Hfilter; try done.
    + rewrite omap_app. simpl. rewrite Hl. simpl. by rewrite app_nil_r.
    + apply Forall2_app; [done|]. constructor; [|constructor].
      repeat split; try done. congruence.
Qed.

(** The loop of lines 111-133 on links that have no line yet. *)
Lemma create_links_created ls :
  Forall (λ l, line l = None) ls →
  created ns min max sc0 ls
    (for_each_link (create_link ns min max) ls sc0).1
    (for_each_link (create_link ns min max) ls sc0).2.
Proof.
  intros Hls.
  apply (for_each_link_inv (create_link ns min max)
           (λ done done' sc,
              Forall (λ l, line l = None) done →
              created ns min max sc0 done done' sc)); [| |done].
  - intros _. apply created_start.
  - intros done done' l sc IH Hall.
    apply Forall_app in Hall as [Hdone Hl].
    apply Forall_cons in Hl as [Hl _].
    apply created_step; [done|]. by apply IH.
Qed.

End Create.

Section Render.
Context (g : graph_json) (random : nat → Q) (st : state).
Context (Hfont : loadedFont st = true).

Lemma renderGraph3D_loaded :
  renderGraph3D g random st
  = {| loadedFont := loadedFont st;
       currentGraph := Graph (render_nodes g random st).1
                         (render_links g random st).1;
       simulation :=
         if forceLink_throws g then stop <$> simulation st
         else Some (Simulation (Math_min (weights (links g)))
                      (Math_max (weights (links g))) false);
       graphGroup := (render_links g random st).2;
       highlightedNode := highlightedNode st;
       tooltip_visible := tooltip_visible st;
       tooltip_innerHTML := tooltip_innerHTML st;
       console := console st |}.
Proof.
  unfold renderGraph3D, render_links, render_nodes. rewrite Hfont. simpl.
  destruct (init_nodes random 0 (nodes g) (clear (graphGroup st)))
    as [ns sc1]. simpl.
  by destruct (for_each_link _ _ sc1) as [ls sc2].
Qed.

Lemma render_created :
  created (render_nodes g random st).1
    (Math_min (weights (links g))) (Math_max (weights (links g)))
    (render_nodes g random st).2
    (map (bind_link (render_nodes g random st).1) (links g))
    (render_links g random st).1 (render_links g random st).2.
Proof.
  unfold render_links. apply create_links_created.
  apply Forall_forall. intros l Hl. apply list_elem_of_fmap in Hl as (lj & -> & _).
  done.
Qed.

Lemma render_nodes_meshes :
  meshes (render_nodes g random st).2
  = meshes (graphGroup st) ++ map (λ n, new_mesh (id n)) (nodes g).
Proof. unfold render_nodes. by rewrite init_nodes_meshes. Qed.

Lemma render_nodes_lines :
  lines (render_nodes g random st).2 = lines (graphGroup st).
Proof. unfold render_nodes. by rewrite init_nodes_lines. Qed.

Lemma render_nodes_children :
  children (render_nodes g random st).2
  = map ChildMesh (seq (length (meshes (graphGroup st))) (length (nodes g))).
Proof. unfold render_nodes. by rewrite init_nodes_children. Qed.

Lemma render_nodes_lookup k n :
  (render_nodes g random st).1 !! k = Some n →
  mesh n = Some (length (meshes (graphGroup st)) + k)%nat
  ∧ (k < length (nodes g))%nat.
Proof.
  exact (init_nodes_lookup random 0 (nodes g) (clear (graphGroup st)) k n).
Qed.

Lemma render_nodes_length :
  length (render_nodes g random st).1 = length (nodes g).
Proof. unfold render_nodes. apply init_nodes_length. Qed.

End Render.

Lemma weights_elem (g : graph_json) (l : link_json) :
  l ∈ links g → effective_weight l ∈ weights (links g).
Proof. intros H. unfold weights. apply list_elem_of_fmap. eauto. Qed.

Lemma omap_lookup_inj {A B} (f : A → option B) (l : list A) k1 k2 a b r :
  NoDup (omap f l) → l !! k1 = Some a → l !! k2 = Some b →
  f a = Some r → f b = Some r → k1 = k2.
Proof.
  revert k1 k2. induction l as [|x l IH]; intros k1 k2 Hnd H1 H2 Ha Hb.
  - done.
  - simpl in Hnd. destruct k1 as [|k1], k2 as [|k2]; simpl in *.
    + done.
    + injection H1 as ->. rewrite Ha in Hnd. apply NoDup_cons in Hnd as [Hn _].
      exfalso. apply Hn. apply list_elem_of_omap. exists b. split; [|done].
      by eapply list_elem_of_lookup_2.
    + injection H2 as ->. rewrite Hb in Hnd. apply NoDup_cons in Hnd as [Hn _].
      exfalso. apply Hn. apply list_elem_of_omap. exists a. split; [|done].
      by eapply list_elem_of_lookup_2.
    + f_equal. apply IH; try done.
      destruct (f x); [by apply NoDup_cons in Hnd as [_ ?]|done].
Qed.

Lemma find_node_Some ns i s :
  find_node ns i = Some s →
  ∃ n, ns !! s = Some n ∧ node_id n = i
       ∧ ∀ j m, ns !! j = Some m → (j < s)%nat → node_id m ≠ i.
Proof.
  unfold find_node. intros H.
  destruct (list_find _ ns) as [[s' n]|] eqn:E; [|done].
  injection H as ->. apply list_find_Some in E as (? & ? & ?). eauto.
Qed.

Lemma find_node_None ns i :
  find_node ns i = None ↔ ∀ n, n ∈ ns → node_id n ≠ i.
Proof.
  unfold find_node. split.
  - intros H. destruct (list_find _ ns) as [[s' n]|] eqn:E; [done|].
    apply list_find_None in E. by apply Forall_forall.
  - intros H. replace (list_find _ ns) with (@None (nat * node)); [done|].
    symmetry. apply list_find_None. by apply Forall_forall.
Qed.

Section RenderWf.
Context (g : graph_json) (random : nat → Q) (st : state).

Let min := Math_min (weights (links g)).
Let max := Math_max (weights (links g)).
Let ns := (render_nodes g random st).1.
Let sc1 := (render_nodes g random st).2.
Let ls := (render_links g random st).1.
Let sc2 := (render_links g random st).2.

(** The link object at position [k] is the [k]-th link of the snapshot
    with its endpoints looked up. *)
Lemma render_links_lookup k l :
  ls !! k = Some l →
  ∃ lj, links g !! k = Some lj ∧ json l = lj
        ∧ sourceObj l = find_node ns (source lj)
        ∧ targetObj l = find_node ns (target lj)
        ∧ (resolved l = false → line l = None)
        ∧ (resolved l = true → ∃ r s t,
             line l = Some r ∧ sourceObj l = Some s ∧ targetObj l = Some t
             ∧ lines sc2 !! r
               = Some (new_line (position_of ns sc1 s) (position_of ns sc1 t)
                         (getColorForWeight (effective_weight lj) min max)
                         (effective_weight lj) s t)).
Proof.
  intros Hl. pose proof (cr_links _ _ _ _ _ _ _ (render_created g random st)) as HF.
  destruct (Forall2_lookup_r _ _ _ _ _ HF Hl)
    as (b & Hb & Hj & Hs & Ht & Hn & Hr).
  rewrite list_lookup_fmap in Hb.
  destruct (links g !! k) as [lj|] eqn:E; [|done]. injection Hb as <-.
  simpl in *. exists lj. repeat split; try done.
  - intros H. apply Hn. unfold resolved in *. simpl. by rewrite <- Hs, <- Ht.
  - intros H. destruct Hr as (r & s & t & ? & Hs1 & Ht1 & ?).
    { unfold resolved in *. simpl. by rewrite <- Hs, <- Ht. }
    exists r, s, t. by rewrite Hs, Ht.
Qed.

Lemma render_links_length : length ls = length (links g).
Proof.
  pose proof (cr_links _ _ _ _ _ _ _ (render_created g random st)) as HF.
  apply Forall2_length in HF. rewrite length_map in HF. done.
Qed.

Lemma render_line_refs_NoDup : NoDup (omap line ls).
Proof.
  unfold ls. rewrite (cr_refs _ _ _ _ _ _ _ (render_created g random st)).
  apply NoDup_seq.
Qed.

(** Every weight of the snapshot lies between [min] and [max]. *)
Lemma weight_between lj :
  lj ∈ links g →
  ∃ mn mx : Q, min = Num mn ∧ max = Num mx
               ∧ (mn <= effective_weight lj <= mx)%Q.
Proof.
  intros Hl. apply weights_elem in Hl.
  destruct (Math_min_Num (weights (links g))) as [mn Hmn];
    [by intros E; rewrite E in Hl; apply elem_of_nil in Hl|].
  destruct (Math_max_Num (weights (links g))) as [mx Hmx];
    [by intros E; rewrite E in Hl; apply elem_of_nil in Hl|].
  exists mn, mx. repeat split; try done.
  - by apply (Math_min_le _ _ _ Hmn).
  - by apply (Math_max_le _ _ _ Hmx).
Qed.

Lemma render_wf : wf (Graph ns ls) sc2.
Proof.
  pose proof (render_created g random st) as Hcr.
  fold ns sc1 ls sc2 min max in Hcr.
  destruct Hcr as [Hcount Hold Hchildren Hrefs Hlinks Hlen Hmeshes].
  assert (length (meshes sc2)
          = (length (meshes (graphGroup st)) + length (nodes g))%nat) as Hlen2.
  { rewrite Hlen. unfold sc1. rewrite render_nodes_meshes, length_app.
    by rewrite length_map. }
  split; simpl.
  - intros k n Hn. apply render_nodes_lookup in Hn as [Hm Hk].
    eexists; split; [done|]. lia.
  - intros k1 k2 n1 n2 m H1 H2 E1 E2.
    apply render_nodes_lookup in H1 as [Hm1 _].
    apply render_nodes_lookup in H2 as [Hm2 _].
    rewrite Hm1 in E1. rewrite Hm2 in E2. simplify_eq. lia.
  - intros k l s Hl Hs.
    apply render_links_lookup in Hl as (lj & _ & _ & Hs' & _).
    rewrite Hs' in Hs. apply find_node_Some in Hs as (n & Hn & _).
    by apply lookup_lt_Some in Hn.
  - intros k l t Hl Ht.
    apply render_links_lookup in Hl as (lj & _ & _ & _ & Ht' & _).
    rewrite Ht' in Ht. apply find_node_Some in Ht as (n & Hn & _).
    by apply lookup_lt_Some in Hn.
  - intros k l Hl Hres.
    apply render_links_lookup in Hl as (lj & _ & _ & _ & _ & _ & Hr).
    destruct (Hr Hres) as (r & s & t & ? & ? & ? & ?).
    by eexists r, _.
  - intros k1 k2 l1 l2 r H1 H2 E1 E2.
    by eapply (omap_lookup_inj line ls), E2; [apply render_line_refs_NoDup|..].
  - intros m Hm. rewrite Hchildren in Hm. apply elem_of_app in Hm as [Hm|Hm].
    + unfold sc1 in Hm. rewrite render_nodes_children in Hm.
      apply list_elem_of_fmap in Hm as (j & [= ->] & Hj).
      apply elem_of_seq in Hj.
      destruct (lookup_lt_is_Some_2 (meshes sc2) j) as [mo Hmo]; [lia|].
      exists mo. split; [done|].
      destruct (Hmeshes _ _ Hmo) as (mo0 & Hmo0 & _ & _ & _ & Hl).
      intros r Hr. apply Hl in Hr as [Hr|Hr]; [|lia].
      unfold sc1 in Hmo0. rewrite render_nodes_meshes in Hmo0.
      rewrite lookup_app_r in Hmo0 by lia.
      rewrite list_lookup_fmap in Hmo0.
      destruct (nodes g !! _); [|done]. injection Hmo0 as <-.
      by apply elem_of_nil in Hr.
    + apply list_elem_of_fmap in Hm as (j & [=] & _).
  - intros r Hr. rewrite Hchildren in Hr. apply elem_of_app in Hr as [Hr|Hr].
    + unfold sc1 in Hr. rewrite render_nodes_children in Hr.
      apply list_elem_of_fmap in Hr as (j & [=] & _).
    + apply list_elem_of_fmap in Hr as (j & [= ->] & Hj).
      rewrite <- Hrefs in Hj. apply list_elem_of_omap in Hj as (l & Hl & Hline).
      apply list_elem_of_lookup in Hl as [k Hl].
      pose proof Hl as Hl'.
      apply render_links_lookup in Hl as (lj & Hlj & _ & _ & _ & Hn & Hres).
      destruct (resolved l) eqn:E; [|rewrite Hn in Hline; done].
      destruct Hres as (r & s & t & Hr & _ & _ & Hlook); [done|].
      rewrite Hr in Hline. injection Hline as ->.
      eexists _, _. split; [done|]. split; [done|].
      destruct (weight_between lj) as (mn & mx & -> & -> & Hw);
        [by eapply list_elem_of_lookup_2|].
      by apply getColorForWeight_weight_color.
Qed.

End RenderWf.

(** ** What the handlers preserve *)

Lemma Forall2_alter_refl {A} (R : relation A) `{!Reflexive R} (f : A → A)
  (i : nat) (l : list A) :
  (∀ x, R x (f x)) → Forall2 R l (alter f i l).
Proof.
  intros Hf. revert i. induction l as [|x l IH]; intros i; [constructor|].
  destruct i; simpl; constructor; auto.
  - reflexivity.
  - apply IH.
Qed.

Lemma foldl_shape {A B} (R : relation A) `{!Reflexive R, !Transitive R}
  (step : A → B → A) (bs : list B) (a : A) :
  (∀ a b, R a (step a b)) → R a (foldl step a bs).
Proof.
  intros Hstep. revert a. induction bs as [|b bs IH]; intros a; simpl.
  - reflexivity.
  - etransitivity; [apply (Hstep a b)|apply IH].
Qed.

Lemma scene_rel_meshes RM RL `{!Reflexive RM, !Reflexive RL} sc f i :
  (∀ m, RM m (f m)) →
  scene_rel RM RL sc {| meshes := alter f i (meshes sc); lines := lines sc;
                        children := children sc |}.
Proof.
  intros Hf. repeat split; simpl; [|reflexivity].
  by apply Forall2_alter_refl.
Qed.

Lemma scene_rel_lines RM RL `{!Reflexive RM, !Reflexive RL} sc f i :
  (∀ ln, RL ln (f ln)) →
  scene_rel RM RL sc {| meshes := meshes sc; lines := alter f i (lines sc);
                        children := children sc |}.
Proof.
  intros Hf. repeat split; simpl; [reflexivity|].
  by apply Forall2_alter_refl.
Qed.

Lemma update_line_shape p1 p2 c w ln : line_shape ln (update_line p1 p2 c w ln).
Proof.
  split; simpl; [done|]. intros H. rewrite H. simpl.
  by rewrite !length_insert.
Qed.

Lemma wf_same_shape g sc sc' : wf g sc → same_shape sc sc' → wf g sc'.
Proof.
  intros [Hm Hmi Hs Ht Hl Hli Hcm Hcl] (Hch & HM & HL).
  pose proof (Forall2_length _ _ _ HM) as HlenM.
  pose proof (Forall2_length _ _ _ HL) as HlenL.
  split; try done.
  - intros k n Hn. destruct (Hm k n Hn) as (m & ? & ?). exists m. split; [done|lia].
  - intros k l Hk Hres. destruct (Hl k l Hk Hres) as (r & ln & ? & Hr & Hlen).
    destruct (Forall2_lookup_l _ _ _ _ _ HL Hr) as (ln' & Hr' & _ & Hp).
    exists r, ln'. repeat split; auto.
  - intros m Hin. rewrite Hch in Hin. destruct (Hcm m Hin) as (mo & Hmo & Hr).
    destruct (Forall2_lookup_l _ _ _ _ _ HM Hmo) as (mo' & Hmo' & Hlinks).
    exists mo'. split; [done|]. intros r. rewrite Hlinks, <- HlenL. apply Hr.
  - intros r Hin. rewrite Hch in Hin. destruct (Hcl r Hin) as (ln & c & Hr & Hc & ?).
    destruct (Forall2_lookup_l _ _ _ _ _ HL Hr) as (ln' & Hr' & Ho & _).
    exists ln', c. split; [done|]. split; [congruence|done].
Qed.

(** ** The tick handler *)

Section TickNodes.

Lemma tick_node_shape n sc : same_shape sc (tick_node n sc).
Proof.
  unfold tick_node. destruct (mesh n); [|reflexivity].
  by apply (scene_rel_meshes mesh_shape line_shape).
Qed.

Lemma tick_nodes_shape ns sc : same_shape sc (tick_nodes ns sc).
Proof.
  unfold tick_nodes.
  apply (foldl_shape same_shape (λ sc n, tick_node n sc)).
  intros a b. apply tick_node_shape.
Qed.

Lemma tick_node_lines n sc : lines (tick_node n sc) = lines sc.
Proof. unfold tick_node. by destruct (mesh n). Qed.

Lemma tick_nodes_lines ns sc : lines (tick_nodes ns sc) = lines sc.
Proof.
  unfold tick_nodes. revert sc. induction ns as [|n ns IH]; intros sc; [done|].
  simpl. by rewrite IH, tick_node_lines.
Qed.

Lemma tick_nodes_snoc ns n sc :
  tick_nodes (ns ++ [n]) sc = tick_node n (tick_nodes ns sc).
Proof. unfold tick_nodes. by rewrite foldl_app. Qed.

(** A mesh that belongs to none of the nodes stays where it is. *)
Lemma tick_nodes_lookup_other ns sc m :
  (∀ n, n ∈ ns → mesh n ≠ Some m) →
  meshes (tick_nodes ns sc) !! m = meshes sc !! m.
Proof.
  induction ns as [|n ns IH] using rev_ind; intros H; [done|].
  rewrite tick_nodes_snoc. unfold tick_node.
  assert (mesh n ≠ Some m) as Hn by (apply H, elem_of_app; right; left).
  rewrite <- IH by (intros n' Hn'; apply H, elem_of_app; by left).
  destruct (mesh n) as [r|]; [|done]. simpl.
  apply list_lookup_alter_ne. congruence.
Qed.

(** The mesh of the [k]-th node takes the coordinates of that node. *)
Lemma tick_nodes_lookup ns sc k n m :
  (∀ k1 k2 n1 n2 m, ns !! k1 = Some n1 → ns !! k2 = Some n2 →
     mesh n1 = Some m → mesh n2 = Some m → k1 = k2) →
  ns !! k = Some n → mesh n = Some m →
  meshes (tick_nodes ns sc) !! m
  = set_position (x n, y n, z n) <$> meshes sc !! m.
Proof.
  induction ns as [|n' ns IH] using rev_ind; intros Hinj Hk Hm; [done|].
  rewrite tick_nodes_snoc.
  destruct (decide (k = length ns)) as [->|Hne].
  - rewrite list_lookup_middle in Hk by done. injection Hk as ->.
    unfold tick_node. rewrite Hm. simpl. rewrite list_lookup_alter_eq.
    f_equal. apply tick_nodes_lookup_other.
    intros n0 Hn0 E. apply list_elem_of_lookup in Hn0 as [j Hj].
    assert (j = length ns) as ->.
    { apply (Hinj j (length ns) n0 n m); try done.
      - by apply lookup_app_l_Some.
      - by rewrite list_lookup_middle. }
    apply lookup_lt_Some in Hj. lia.
  - assert (k < length ns)%nat as Hlt.
    { apply lookup_lt_Some in Hk. rewrite length_app in Hk. simpl in Hk. lia. }
    rewrite lookup_app_l in Hk by done.
    unfold tick_node. destruct (mesh n') as [r|] eqn:E; simpl.
    + rewrite list_lookup_alter_ne.
      * apply IH; try done. intros k1 k2 n1 n2 m0 H1 H2.
        apply Hinj; by apply lookup_app_l_Some.
      * intros ->. apply Hne.
        apply (Hinj k (length ns) n n' m); try done.
        -- by apply lookup_app_l_Some.
        -- by rewrite list_lookup_middle.
    + apply IH; try done. intros k1 k2 n1 n2 m0 H1 H2.
      apply Hinj; by apply lookup_app_l_Some.
Qed.

End TickNodes.

Section TickLinks.
Context (ns : list node) (min max : jsnum).

Lemma position_of_meshes sc sc' i :
  meshes sc = meshes sc' → position_of ns sc i = position_of ns sc' i.
Proof. unfold position_of. by intros ->. Qed.

(** When every link with two endpoints has its line, the second loop of the
    handler changes nothing but these lines. *)
Lemma tick_links_spec ls sc :
  (∀ l, l ∈ ls → resolved l = true → is_Some (line l)) →
  for_each_link (tick_link ns min max) ls sc
  = (ls, {| meshes := meshes sc;
            lines := foldl (λ lns l, tick_line ns sc min max l lns)
                       (lines sc) ls;
            children := children sc |}).
Proof.
  revert sc. induction ls as [|l ls IH]; intros sc Hls; simpl.
  - by destruct sc.
  - assert (tick_link ns min max l sc
            = (l, {| meshes := meshes sc;
                     lines := tick_line ns sc min max l (lines sc);
                     children := children sc |})) as ->.
    { unfold tick_link, tick_line.
      destruct (sourceObj l) as [s|] eqn:Es; [|by destruct sc].
      destruct (targetObj l) as [t|] eqn:Et; [|by destruct sc].
      assert (is_Some (line l)) as [r Hr]
        by (apply Hls; [left|by eapply resolved_Some]).
      by rewrite Hr. }
    rewrite IH by (intros l' Hl'; apply Hls; by right). done.
Qed.

Lemma tick_line_shape sc l lns :
  Forall2 line_shape lns (tick_line ns sc min max l lns).
Proof.
  unfold tick_line. repeat case_match; try reflexivity.
  apply Forall2_alter_refl; [apply _|]. intros ln. apply update_line_shape.
Qed.

Lemma tick_lines_shape sc ls lns :
  Forall2 line_shape lns
    (foldl (λ lns l, tick_line ns sc min max l lns) lns ls).
Proof.
  apply (foldl_shape (Forall2 line_shape)
           (λ lns l, tick_line ns sc min max l lns)).
  intros a b. apply tick_line_shape.
Qed.

(** A line that belongs to none of the links is not touched. *)
Lemma tick_lines_lookup_other sc ls lns r :
  (∀ l, l ∈ ls → line l ≠ Some r) →
  foldl (λ lns l, tick_line ns sc min max l lns) lns ls !! r = lns !! r.
Proof.
  induction ls as [|l ls IH] using rev_ind; intros H; [done|].
  rewrite foldl_app. simpl.
  assert (line l ≠ Some r) as Hl by (apply H, elem_of_app; right; left).
  rewrite <- IH by (intros l' Hl'; apply H, elem_of_app; by left).
  unfold tick_line at 1. repeat case_match; try done.
  apply list_lookup_alter_ne. congruence.
Qed.

(** The line of the [k]-th link gets the positions of the meshes of its two
    endpoints, its colour and its weight. *)
Lemma tick_lines_lookup sc ls lns k l s t r ln :
  (∀ k1 k2 l1 l2 r, ls !! k1 = Some l1 → ls !! k2 = Some l2 →
     line l1 = Some r → line l2 = Some r → k1 = k2) →
  ls !! k = Some l →
  sourceObj l = Some s → targetObj l = Some t → line l = Some r →
  lns !! r = Some ln →
  foldl (λ lns l, tick_line ns sc min max l lns) lns ls !! r
  = Some (update_line (position_of ns sc s) (position_of ns sc t)
            (getColorForWeight (effective_weight (json l)) min max)
            (effective_weight (json l)) ln).
Proof.
  induction ls as [|l' ls IH] using rev_ind;
    intros Hinj Hk Hs Ht Hr Hln; [done|].
  rewrite foldl_app. simpl.
  destruct (decide (k = length ls)) as [->|Hne].
  - rewrite list_lookup_middle in Hk by done. injection Hk as ->.
    unfold tick_line at 1. rewrite Hs, Ht, Hr. rewrite list_lookup_alter_eq.
    rewrite tick_lines_lookup_other; [by rewrite Hln|].
    intros l0 Hl0 E. apply list_elem_of_lookup in Hl0 as [j Hj].
    assert (j = length ls) as ->.
    { apply (Hinj j (length ls) l0 l r); try done.
      - by apply lookup_app_l_Some.
      - by rewrite list_lookup_middle. }
    apply lookup_lt_Some in Hj. lia.
  - assert (k < length ls)%nat as Hlt.
    { apply lookup_lt_Some in Hk. rewrite length_app in Hk. simpl in Hk. lia. }
    rewrite lookup_app_l in Hk by done.
    assert (line l' ≠ Some r) as Hl'.
    { intros E. apply Hne. apply (Hinj k (length ls) l l' r); try done.
      - by apply lookup_app_l_Some.
      - by rewrite list_lookup_middle. }
    unfold tick_line at 1.
    assert (∀ k1 k2 l1 l2 r, ls !! k1 = Some l1 → ls !! k2 = Some l2 →
              line l1 = Some r → line l2 = Some r → k1 = k2) as Hinj'.
    { intros k1 k2 l1 l2 r0 H1 H2. apply Hinj; by apply lookup_app_l_Some. }
    repeat case_match; try (by apply IH).
    rewrite list_lookup_alter_ne by congruence. by apply IH.
Qed.

End TickLinks.

Section TickWf.

Lemma wf_move_nodes coords ns ls sc :
  wf (Graph ns ls) sc → wf (Graph (imap (move_node coords) ns) ls) sc.
Proof.
  intros [Hm Hmi Hs Ht Hl Hli Hcm Hcl]. simpl in *.
  assert (∀ k n, imap (move_node coords) ns !! k = Some n →
            ∃ n0, ns !! k = Some n0 ∧ mesh n = mesh n0) as Hlook.
  { intros k n H. rewrite list_lookup_imap in H.
    destruct (ns !! k) as [n0|]; [|done]. injection H as <-. by exists n0. }
  split; simpl; try done.
  - intros k n Hn. destruct (Hlook _ _ Hn) as (n0 & H0 & ->). by eapply Hm.
  - intros k1 k2 n1 n2 m H1 H2.
    destruct (Hlook _ _ H1) as (n1' & H1' & ->).
    destruct (Hlook _ _ H2) as (n2' & H2' & ->). by eapply Hmi.
  - intros k l s Hk Hso. rewrite length_imap. by eapply Hs.
  - intros k l t Hk Hta. rewrite length_imap. by eapply Ht.
Qed.

Lemma wf_lines_present g sc l :
  wf g sc → l ∈ graph_links g → resolved l = true → is_Some (line l).
Proof.
  intros Hwf Hl Hres. apply list_elem_of_lookup in Hl as [k Hk].
  destruct (wf_line _ _ Hwf k l Hk Hres) as (r & ? & -> & _). by eexists.
Qed.

(** In a well-formed state the handler leaves the graph as it is and gives
    the scene the new positions. *)
Lemma on_tick_spec st sim :
  simulation st = Some sim →
  wf (currentGraph st) (graphGroup st) →
  let ns := graph_nodes (currentGraph st) in
  let sc1 := tick_nodes ns (graphGroup st) in
  on_tick st
  = set_scene st (currentGraph st)
      {| meshes := meshes sc1;
         lines := foldl (λ lns l,
                     tick_line ns sc1 (minWeight sim) (maxWeight sim) l lns)
                    (lines sc1) (graph_links (currentGraph st));
         children := children sc1 |}.
Proof.
  intros Hsim Hwf ns sc1. unfold on_tick. rewrite Hsim.
  fold ns. fold sc1. rewrite tick_links_spec.
  - by destruct (currentGraph st).
  - intros l. by apply (wf_lines_present _ _ _ Hwf).
Qed.

Lemma on_tick_wf st :
  wf (currentGraph st) (graphGroup st) →
  wf (currentGraph (on_tick st)) (graphGroup (on_tick st)).
Proof.
  intros Hwf. destruct (simulation st) as [sim|] eqn:Hsim.
  - rewrite (on_tick_spec st sim) by done. simpl.
    eapply wf_same_shape; [exact Hwf|].
    etransitivity; [apply (tick_nodes_shape (graph_nodes (currentGraph st)))|].
    repeat split; simpl; [reflexivity|]. apply tick_lines_shape.
  - unfold on_tick. by rewrite Hsim.
Qed.

Lemma tick_wf coords st :
  wf (currentGraph st) (graphGroup st) →
  wf (currentGraph (tick coords st)) (graphGroup (tick coords st)).
Proof.
  intros Hwf. unfold tick. apply on_tick_wf. simpl.
  apply wf_move_nodes. by destruct (currentGraph st).
Qed.

End TickWf.

(** ** Hovering *)

Section HoverRel.
Context (RM : relation mesh_obj) (RL : relation line_obj).
Context `{!Reflexive RM, !Transitive RM, !Reflexive RL, !Transitive RL}.
Context (Hmesh_color : ∀ c m, RM m (set_mesh_color c m)).
Context (Hline_color : ∀ c ln, RL ln (set_line_color c ln)).
Context (Hline_reset : ∀ ln, RL ln (reset_line ln)).

(** Whatever a change of colour (and of opacity) preserves in the objects is
    preserved by the hover code in the scene. *)
Lemma reset_child_rel c sc : scene_rel RM RL sc (reset_child c sc).
Proof.
  destruct c; simpl.
  - by apply scene_rel_meshes.
  - by apply scene_rel_lines.
Qed.

Lemma reset_children_rel cs sc :
  scene_rel RM RL sc (foldl (λ sc c, reset_child c sc) sc cs).
Proof.
  apply (foldl_shape (scene_rel RM RL) (λ sc c, reset_child c sc)).
  intros a b. apply reset_child_rel.
Qed.

Lemma reset_scene_rel sc : scene_rel RM RL sc (reset_scene sc).
Proof. apply reset_children_rel. Qed.

Lemma highlight_rel obj st :
  scene_rel RM RL (graphGroup st) (graphGroup (highlight obj st)).
Proof.
  unfold highlight. simpl. repeat split; simpl.
  - by apply Forall2_alter_refl.
  - apply (foldl_shape (Forall2 RL)
             (λ lns r, alter (set_line_color 0xffff00) r lns)).
    intros a b. by apply Forall2_alter_refl.
Qed.

Lemma mousemove_rel hit st :
  scene_rel RM RL (graphGroup st) (graphGroup (mousemove hit st)).
Proof.
  unfold mousemove. destruct hit as [obj|].
  - case_decide; [reflexivity|].
    etransitivity; [|apply highlight_rel]. simpl. apply reset_scene_rel.
  - simpl. apply reset_scene_rel.
Qed.

End HoverRel.

Section Hover.

Lemma reset_children_shape cs sc :
  same_shape sc (foldl (λ sc c, reset_child c sc) sc cs).
Proof. by apply (reset_children_rel mesh_shape line_shape). Qed.

Lemma reset_scene_shape sc : same_shape sc (reset_scene sc).
Proof. apply reset_children_shape. Qed.

Lemma mousemove_graph hit st :
  currentGraph (mousemove hit st) = currentGraph st.
Proof. unfold mousemove. destruct hit; [|done]. by case_decide. Qed.

Lemma mousemove_shape hit st :
  same_shape (graphGroup st) (graphGroup (mousemove hit st)).
Proof. by apply (mousemove_rel mesh_shape line_shape). Qed.

Lemma mousemove_geometry hit st :
  same_geometry (graphGroup st) (graphGroup (mousemove hit st)).
Proof. by apply (mousemove_rel mesh_geometry line_geometry). Qed.

Lemma mousemove_wf hit st :
  wf (currentGraph st) (graphGroup st) →
  wf (currentGraph (mousemove hit st)) (graphGroup (mousemove hit st)).
Proof.
  intros Hwf. rewrite mousemove_graph.
  eapply wf_same_shape; [exact Hwf|apply mousemove_shape].
Qed.

End Hover.

(** ** Every reachable state is well formed *)

Lemma wf_initial : wf (currentGraph initial_state) (graphGroup initial_state).
Proof.
  split; simpl; try done.
  - intros m H. by apply elem_of_nil in H.
  - intros r H. by apply elem_of_nil in H.
Qed.

Lemma renderGraph3D_wf g random st :
  wf (currentGraph st) (graphGroup st) →
  wf (currentGraph (renderGraph3D g random st))
    (graphGroup (renderGraph3D g random st)).
Proof.
  intros Hwf. destruct (loadedFont st) eqn:Hfont.
  - rewrite renderGraph3D_loaded by done. simpl. apply render_wf.
  - unfold renderGraph3D. by rewrite Hfont.
Qed.

Lemma step_wf e st :
  wf (currentGraph st) (graphGroup st) →
  wf (currentGraph (step e st)) (graphGroup (step e st)).
Proof.
  intros Hwf. destruct e as [|res random|res random|coords|coords|hit]; simpl.
  - done.
  - destruct res; simpl; try done.
    destruct (renderGraph3D_throws _ _); by apply renderGraph3D_wf.
  - destruct res; simpl; try done.
    destruct (renderGraph3D_throws _ _); by apply renderGraph3D_wf.
  - by apply tick_wf.
  - apply wf_move_nodes. by destruct (currentGraph st).
  - by apply mousemove_wf.
Qed.

Lemma reachable_wf st :
  reachable st → wf (currentGraph st) (graphGroup st).
Proof.
  induction 1 as [|e st Hst IH He]; [apply wf_initial|by apply step_wf].
Qed.

(** ** A rendered page *)

Lemma reachable_abc : reachable state_abc.
Proof.
  unfold state_abc.
  apply reachable_step; [apply reachable_step; [apply reachable_initial|]|];
    reflexivity.
Defined.

Lemma reachable_1_5 : reachable state_1_5.
Proof.
  unfold state_1_5.
  apply reachable_step; [apply reachable_step; [apply reachable_initial|]|];
    reflexivity.
Defined.

(** ** The scene after [renderGraph3D] *)

Section RenderFacts.
Context (g : graph_json) (random : nat → Q) (st : state).

Let min := Math_min (weights (links g)).
Let max := Math_max (weights (links g)).
Let ns := (render_nodes g random st).1.
Let ls := (render_links g random st).1.
Let sc2 := (render_links g random st).2.
Let M0 := length (meshes (graphGroup st)).
Let L0 := length (lines (graphGroup st)).

Lemma render_node_ids : map node_id ns = map id (nodes g).
Proof. apply init_nodes_id. Qed.

Lemma render_find_is_Some i :
  is_Some (find_node ns i) ↔ i ∈ map id (nodes g).
Proof.
  rewrite <- render_node_ids. split.
  - intros [s Hs]. apply find_node_Some in Hs as (n & Hn & <- & _).
    apply list_elem_of_fmap. exists n. split; [done|].
    by eapply list_elem_of_lookup_2.
  - intros Hi. apply list_elem_of_fmap in Hi as (n & -> & Hn).
    destruct (find_node ns (node_id n)) eqn:E; [by eexists|].
    exfalso. by eapply (proj1 (find_node_None _ _) E).
Qed.

Lemma resolved_bind_link lj :
  resolved (bind_link ns lj) = endpoints_known g lj.
Proof.
  unfold resolved, endpoints_known. simpl.
  pose proof (render_find_is_Some (source lj)) as Hs.
  pose proof (render_find_is_Some (target lj)) as Ht.
  destruct (find_node ns (source lj)) as [s|].
  - rewrite (bool_decide_eq_true_2 _ (proj1 Hs (mk_is_Some _ _ eq_refl))).
    destruct (find_node ns (target lj)) as [t|].
    + by rewrite (bool_decide_eq_true_2 _ (proj1 Ht (mk_is_Some _ _ eq_refl))).
    + rewrite (bool_decide_eq_false_2 (target lj ∈ _)); [done|].
      intros H. apply Ht in H. by destruct H.
  - rewrite (bool_decide_eq_false_2 (source lj ∈ _)); [done|].
    intros H. apply Hs in H. by destruct H.
Qed.

Lemma render_count :
  length (filter (λ l, resolved l = true) (map (bind_link ns) (links g)))
  = rendered_links g.
Proof.
  unfold rendered_links.
  induction (links g) as [|lj ljs IH]; [done|]. simpl.
  rewrite !filter_cons. rewrite resolved_bind_link.
  repeat case_decide; simpl; try congruence.
Qed.

Lemma render_lines_length : length (lines sc2) = (L0 + rendered_links g)%nat.
Proof.
  unfold sc2. rewrite (cr_count _ _ _ _ _ _ _ (render_created g random st)).
  rewrite render_nodes_lines. fold ns. by rewrite render_count.
Qed.

Lemma render_meshes_length : length (meshes sc2) = (M0 + length (nodes g))%nat.
Proof.
  unfold sc2.
  rewrite (cr_meshes_length _ _ _ _ _ _ _ (render_created g random st)).
  by rewrite render_nodes_meshes, length_app, length_map.
Qed.

Lemma render_children :
  children sc2
  = map ChildMesh (seq M0 (length (nodes g)))
    ++ map ChildLine (seq L0 (rendered_links g)).
Proof.
  unfold sc2. rewrite (cr_children _ _ _ _ _ _ _ (render_created g random st)).
  rewrite render_nodes_children, render_nodes_lines. fold ns.
  by rewrite render_count.
Qed.

Lemma render_line_refs : omap line ls = seq L0 (rendered_links g).
Proof.
  unfold ls. rewrite (cr_refs _ _ _ _ _ _ _ (render_created g random st)).
  rewrite render_nodes_lines. fold ns. by rewrite render_count.
Qed.

(** Every new line is the line of a link with two endpoints. *)
Lemma render_line_owner r :
  (L0 ≤ r < length (lines sc2))%nat →
  ∃ k l, ls !! k = Some l ∧ line l = Some r ∧ resolved l = true.
Proof.
  intros Hr. rewrite render_lines_length in Hr.
  assert (r ∈ omap line ls) as Hin.
  { rewrite render_line_refs. apply elem_of_seq. lia. }
  apply list_elem_of_omap in Hin as (l & Hl & Hline).
  apply list_elem_of_lookup in Hl as [k Hk]. exists k, l.
  repeat split; try done.
  apply render_links_lookup in Hk as (lj & _ & _ & _ & _ & Hn & _).
  destruct (resolved l); [done|]. rewrite Hn in Hline; done.
Qed.

(** The mesh of the [k]-th node: labelled with its id, and its incident-line
    list only holds new lines. *)
Lemma render_mesh k nj :
  nodes g !! k = Some nj →
  ∃ n mo, ns !! k = Some n ∧ node_id n = id nj
          ∧ mesh n = Some (M0 + k)%nat
          ∧ meshes sc2 !! (M0 + k)%nat = Some mo
          ∧ mesh_id mo = id nj
          ∧ ∀ r, r ∈ mesh_links mo → (L0 ≤ r < length (lines sc2))%nat.
Proof.
  intros Hk. pose proof (lookup_lt_Some _ _ _ Hk) as Hlt.
  destruct (lookup_lt_is_Some_2 ns k) as [n Hn];
    [unfold ns; by rewrite render_nodes_length|].
  destruct (lookup_lt_is_Some_2 (meshes sc2) (M0 + k)) as [mo Hmo];
    [rewrite render_meshes_length; lia|].
  exists n, mo.
  assert (node_id n = id nj) as Hid.
  { pose proof render_node_ids as E.
    apply (f_equal (λ l, l !! k)) in E.
    rewrite !list_lookup_fmap, Hn, Hk in E. simpl in E. congruence. }
  destruct (render_nodes_lookup g random st k n Hn) as [Hm _].
  destruct (cr_meshes _ _ _ _ _ _ _ (render_created g random st) _ _ Hmo)
    as (mo0 & Hmo0 & Hi & _ & _ & Hl).
  rewrite render_nodes_meshes, lookup_app_r in Hmo0 by (fold M0; lia).
  fold M0 in Hmo0. replace (M0 + k - M0)%nat with k in Hmo0 by lia.
  rewrite list_lookup_fmap, Hk in Hmo0. injection Hmo0 as <-.
  do 5 (split; [done|]).
  intros r Hr. apply Hl in Hr as [Hr|Hr]; [by apply elem_of_nil in Hr|].
  rewrite render_nodes_lines in Hr. fold L0 sc2 in Hr. lia.
Qed.

End RenderFacts.

Section Colours.
Local Open Scope Q_scope.

Lemma leb_Z (a b : Z) :
  (a ≤ b)%Z → (Num (inject_Z a) <= Num (inject_Z b))%js.
Proof.
  intros H. unfold JS.le. simpl. apply Qle_bool_iff.
  by rewrite <- Zle_Qle.
Qed.

End Colours.

Lemma children_NoDup (M0 L0 n m : nat) :
  NoDup (map ChildMesh (seq M0 n) ++ map ChildLine (seq L0 m)).
Proof.
  apply NoDup_app. repeat split.
  - apply (NoDup_fmap_2 ChildMesh), NoDup_seq.
  - intros c Hc Hc'.
    apply list_elem_of_fmap in Hc as (i & -> & _).
    by apply list_elem_of_fmap in Hc' as (j & [=] & _).
  - apply (NoDup_fmap_2 ChildLine), NoDup_seq.
Qed.

Lemma update_line_positions p1 p2 c w ln :
  length (positions ln) = 2%nat →
  positions (update_line p1 p2 c w ln) = [to_float32 p1; to_float32 p2].
Proof.
  intros H. simpl. rewrite H. simpl.
  destruct (positions ln) as [|a [|b [|? ?]]]; done.
Qed.

(** ** The lines follow the meshes *)

Section Synced.

(** [n.mesh.position] is the position of a mesh of the store. *)
Lemma wf_position_of g sc i :
  wf g sc → (i < length (graph_nodes g))%nat →
  ∃ n m mo, graph_nodes g !! i = Some n ∧ mesh n = Some m
            ∧ meshes sc !! m = Some mo
            ∧ position_of (graph_nodes g) sc i = mesh_position mo.
Proof.
  intros Hwf Hi.
  destruct (lookup_lt_is_Some_2 _ _ Hi) as [n Hn].
  destruct (wf_mesh _ _ Hwf i n Hn) as (m & Hm & Hlt).
  destruct (lookup_lt_is_Some_2 _ _ Hlt) as [mo Hmo].
  exists n, m, mo. repeat split; try done.
  unfold position_of. by rewrite Hn, Hm, Hmo.
Qed.

Lemma position_of_move coords ns sc i :
  position_of (imap (move_node coords) ns) sc i = position_of ns sc i.
Proof.
  unfold position_of. rewrite list_lookup_imap.
  by destruct (ns !! i).
Qed.

Lemma synced_initial :
  synced (currentGraph initial_state) (graphGroup initial_state).
Proof. by intros k l s t r Hl. Qed.

Lemma synced_same_geometry g sc sc' :
  synced g sc → same_geometry sc sc' → synced g sc'.
Proof.
  intros Hs (_ & HM & HL) k l s t r Hl Hso Hta Hr.
  destruct (Hs k l s t r Hl Hso Hta Hr) as (ln & Hln & Hp).
  destruct (Forall2_lookup_l _ _ _ _ _ HL Hln) as (ln' & Hln' & Hg).
  exists ln'. split; [done|]. rewrite Hg, Hp.
  pose proof (Forall2_length _ _ _ HM) as Hlen.
  assert (∀ i, position_of (graph_nodes g) sc' i
               = position_of (graph_nodes g) sc i) as Hpos.
  { intros i. apply position_of_same; [done|].
    intros m mo' Hmo'.
    destruct (Forall2_lookup_r _ _ _ _ _ HM Hmo') as (mo & ? & ?).
    by exists mo. }
  by rewrite !Hpos.
Qed.

Lemma render_synced g random st :
  synced (Graph (render_nodes g random st).1 (render_links g random st).1)
    (render_links g random st).2.
Proof.
  intros k l s t r Hl Hso Hta Hr. simpl in *.
  destruct (render_links_lookup g random st k l Hl)
    as (lj & _ & _ & _ & _ & _ & Hres).
  destruct Hres as (r' & s' & t' & Hr' & Hs' & Ht' & Hln);
    [by eapply resolved_Some|].
  assert (r' = r) as -> by congruence.
  assert (s' = s) as -> by congruence.
  assert (t' = t) as -> by congruence.
  eexists. split; [exact Hln|]. simpl.
  pose proof (render_created g random st) as Hcr.
  assert (∀ i, position_of (render_nodes g random st).1
                 (render_links g random st).2 i
               = position_of (render_nodes g random st).1
                   (render_nodes g random st).2 i) as Hpos.
  { intros i. apply position_of_same;
      [apply (cr_meshes_length _ _ _ _ _ _ _ Hcr)|].
    intros m mo Hmo.
    destruct (cr_meshes _ _ _ _ _ _ _ Hcr m mo Hmo)
      as (mo0 & ? & _ & _ & ? & _).
    by exists mo0. }
  by rewrite !Hpos.
Qed.

(** After the handler every node mesh is where the simulation put its
    node. *)
Lemma on_tick_positions coords st sim i :
  simulation st = Some sim →
  wf (currentGraph st) (graphGroup st) →
  (i < length (graph_nodes (currentGraph st)))%nat →
  position_of (graph_nodes (currentGraph (tick coords st)))
    (graphGroup (tick coords st)) i = coords i.
Proof.
  intros Hsim Hwf0 Hi.
  set (st1 := simulation_step coords st).
  assert (wf (currentGraph st1) (graphGroup st1)) as Hwf.
  { simpl. apply wf_move_nodes. by destruct (currentGraph st). }
  unfold tick. fold st1. rewrite (on_tick_spec st1 sim) by done. simpl.
  set (ns := imap (move_node coords) (graph_nodes (currentGraph st))).
  assert (length ns = length (graph_nodes (currentGraph st))) as Hlen
    by apply length_imap.
  destruct (lookup_lt_is_Some_2 ns i) as [n Hn]; [lia|].
  destruct (wf_mesh _ _ Hwf i n Hn) as (m & Hm & Hlt).
  destruct (lookup_lt_is_Some_2 (meshes (graphGroup st)) m Hlt) as [mo0 Hmo0].
  pose proof (tick_nodes_lookup ns (graphGroup st) i n m
                (wf_mesh_inj _ _ Hwf) Hn Hm) as Hlook.
  rewrite Hmo0 in Hlook. simpl in Hlook.
  unfold position_of. rewrite Hn, Hm. simpl. rewrite Hlook. simpl.
  unfold ns in Hn. rewrite list_lookup_imap in Hn.
  destruct (graph_nodes (currentGraph st) !! i); [|done].
  injection Hn as <-. simpl. by destruct (coords i) as [[? ?] ?].
Qed.

Lemma on_tick_synced st :
  wf (currentGraph st) (graphGroup st) →
  synced (currentGraph st) (graphGroup st) →
  synced (currentGraph (on_tick st)) (graphGroup (on_tick st)).
Proof.
  intros Hwf Hsync. destruct (simulation st) as [sim|] eqn:Hsim;
    [|unfold on_tick; by rewrite Hsim].
  rewrite (on_tick_spec st sim) by done. simpl.
  intros k l s t r Hl Hso Hta Hr.
  destruct (wf_line _ _ Hwf k l Hl) as (r' & ln0 & Hr' & Hln0 & Hlen);
    [by eapply resolved_Some|].
  assert (r' = r) as -> by congruence.
  eexists. split.
  - eapply tick_lines_lookup; try done.
    + apply (wf_line_inj _ _ Hwf).
    + by rewrite tick_nodes_lines.
  - by rewrite update_line_positions.
Qed.

Lemma tick_synced coords st :
  wf (currentGraph st) (graphGroup st) →
  synced (currentGraph st) (graphGroup st) →
  synced (currentGraph (tick coords st)) (graphGroup (tick coords st)).
Proof.
  intros Hwf Hsync. unfold tick. apply on_tick_synced.
  - simpl. apply wf_move_nodes. by destruct (currentGraph st).
  - intros k l s t r Hl Hso Hta Hr. simpl in *.
    destruct (Hsync k l s t r Hl Hso Hta Hr) as (ln & Hln & Hp).
    exists ln. split; [done|]. by rewrite !position_of_move.
Qed.

Lemma step_synced e st :
  wf (currentGraph st) (graphGroup st) →
  synced (currentGraph st) (graphGroup st) →
  synced (currentGraph (step e st)) (graphGroup (step e st)).
Proof.
  intros Hwf Hsync.
  assert (∀ g random,
            synced (currentGraph (renderGraph3D g random st))
              (graphGroup (renderGraph3D g random st))) as Hrender.
  { intros g random. destruct (loadedFont st) eqn:Hfont.
    - rewrite renderGraph3D_loaded by done. simpl. apply render_synced.
    - unfold renderGraph3D. by rewrite Hfont. }
  destruct e as [|res random|res random|coords|coords|hit]; simpl.
  - done.
  - destruct res; simpl; try done.
    destruct (renderGraph3D_throws _ _); apply Hrender.
  - destruct res; simpl; try done.
    destruct (renderGraph3D_throws _ _); apply Hrender.
  - by apply tick_synced.
  - intros k l s t r Hl Hso Hta Hr. simpl in *.
    destruct (Hsync k l s t r Hl Hso Hta Hr) as (ln & Hln & Hp).
    exists ln. split; [done|]. by rewrite !position_of_move.
  - rewrite mousemove_graph.
    eapply synced_same_geometry; [exact Hsync|apply mousemove_geometry].
Qed.

Lemma reachable_synced st :
  reachable st → synced (currentGraph st) (graphGroup st).
Proof.
  induction 1 as [|e st Hst IH He]; [apply synced_initial|].
  apply step_synced; [by apply reachable_wf|done].
Qed.

(** In a well-formed, synchronised state the line of a link lies between
    the meshes of its endpoints. *)
Lemma synced_line_between st k l s t :
  wf (currentGraph st) (graphGroup st) →
  synced (currentGraph st) (graphGroup st) →
  graph_links (currentGraph st) !! k = Some l →
  sourceObj l = Some s → targetObj l = Some t →
  line_between st l s t
    (position_of (graph_nodes (currentGraph st)) (graphGroup st) s)
    (position_of (graph_nodes (currentGraph st)) (graphGroup st) t)
    (to_float32
       (position_of (graph_nodes (currentGraph st)) (graphGroup st) s))
    (to_float32
       (position_of (graph_nodes (currentGraph st)) (graphGroup st) t)).
Proof.
  intros Hwf Hsync Hl Hso Hta.
  destruct (wf_line _ _ Hwf k l Hl) as (r & ln0 & Hr & _ & _);
    [by eapply resolved_Some|].
  destruct (Hsync k l s t r Hl Hso Hta Hr) as (ln & Hln & Hp).
  destruct (wf_position_of _ _ s Hwf)
    as (n1 & m1 & mo1 & Hn1 & Hm1 & Hmo1 & Hp1);
    [by eapply (wf_source _ _ Hwf)|].
  destruct (wf_position_of _ _ t Hwf)
    as (n2 & m2 & mo2 & Hn2 & Hm2 & Hmo2 & Hp2);
    [by eapply (wf_target _ _ Hwf)|].
  exists r, ln, n1, n2, m1, m2, mo1, mo2. by repeat split.
Qed.

End Synced.

(** ** The exception of [forceLink] *)

Section Throws.

Lemma forallb_false {A} (f : A → bool) (l : list A) :
  forallb f l = false ↔ ∃ a, a ∈ l ∧ f a = false.
Proof.
  induction l as [|a l IH]; simpl.
  - split; [done|]. intros (a & Ha & _). by apply elem_of_nil in Ha.
  - rewrite andb_false_iff, IH. split.
    + intros [H|(b & Hb & H)]; [exists a; split; [left|done]|].
      exists b. split; [by right|done].
    + intros (b & Hb & H). apply elem_of_cons in Hb as [->|Hb]; [by left|].
      right. by exists b.
Qed.

Lemma endpoints_known_false g lj :
  endpoints_known g lj = false
  ↔ source lj ∉ map id (nodes g) ∨ target lj ∉ map id (nodes g).
Proof.
  unfold endpoints_known. rewrite andb_false_iff, !bool_decide_eq_false. done.
Qed.

Lemma forceLink_throws_spec g :
  forceLink_throws g = true
  ↔ ∃ lj, lj ∈ links g
          ∧ (source lj ∉ map id (nodes g) ∨ target lj ∉ map id (nodes g)).
Proof.
  unfold forceLink_throws. rewrite negb_true_iff, forallb_false.
  split; intros (lj & Hlj & H); exists lj; (split; [done|]);
    by apply endpoints_known_false.
Qed.

Lemma renderGraph3D_throws_spec g st :
  renderGraph3D_throws g st = true
  ↔ loadedFont st = true
    ∧ ∃ lj, lj ∈ links g
            ∧ (source lj ∉ map id (nodes g) ∨ target lj ∉ map id (nodes g)).
Proof.
  unfold renderGraph3D_throws. by rewrite andb_true_iff, forceLink_throws_spec.
Qed.

(** After a call that has thrown, [simulation] refers to no simulation that
    makes steps. *)
Lemma renderGraph3D_thrown g random st :
  renderGraph3D_throws g st = true →
  simulation (renderGraph3D g random st) = stop <$> simulation st
  ∧ running (renderGraph3D g random st) = false.
Proof.
  unfold renderGraph3D_throws. intros [Hfont Ht]%andb_true_iff.
  rewrite renderGraph3D_loaded by done. unfold running. simpl. rewrite Ht.
  split; [done|]. by destruct (simulation st).
Qed.

(** After a call that has returned with the font loaded, [simulation] refers
    to a new simulation with the bounds of the snapshot. *)
Lemma renderGraph3D_returned g random st :
  loadedFont st = true → forceLink_throws g = false →
  simulation (renderGraph3D g random st)
  = Some (Simulation (Math_min (weights (links g)))
            (Math_max (weights (links g))) false).
Proof.
  intros Hfont Ht. rewrite renderGraph3D_loaded by done. simpl. by rewrite Ht.
Qed.

End Throws.

(** ** C1: the colour is monotone and bounded *)

Section ColourMonotone.
Local Open Scope Q_scope.

(** C1: in a snapshot whose weights have distinct minimum and maximum, the
    red channel [Math.floor(255 * t)] does not decrease and the blue channel
    [Math.floor(255 * (1 - t))] does not increase when the weight grows; for
    a weight between the minimum and the maximum (as every weight of the
    snapshot is) both lie between 0 and 255, and the colour returned is
    [0xRRGGBB] with these two channels and green 0. *)
Theorem color_monotone_bounded (g : graph_json) (mn mx : Q) :
  Math_min (weights (links g)) = Num mn →
  Math_max (weights (links g)) = Num mx →
  ¬ mn == mx →
  (∀ w1 w2 : Q, w1 <= w2 →
     (red (normalize w1 mn mx) <= red (normalize w2 mn mx))%js
     ∧ (blue (normalize w2 mn mx) <= blue (normalize w1 mn mx))%js)
  ∧ (∀ w : Q, mn <= w <= mx →
       let c := getColorForWeight w mn mx in
       (Num 0 <= red (normalize w mn mx))%js
       ∧ (red (normalize w mn mx) <= Num 255)%js
       ∧ (Num 0 <= blue (normalize w mn mx))%js
       ∧ (blue (normalize w mn mx) <= Num 255)%js
       ∧ red (normalize w mn mx) = Num (inject_Z (hex_red c))
       ∧ hex_green c = 0%Z
       ∧ blue (normalize w mn mx) = Num (inject_Z (hex_blue c)))
  ∧ (∀ l, l ∈ links g → mn <= effective_weight l <= mx).
Proof.
  intros Hmin Hmax Hne.
  assert (∀ l, l ∈ links g → mn <= effective_weight l <= mx) as Hin.
  { intros l Hl. apply weights_elem in Hl. split.
    - by apply (Math_min_le _ _ _ Hmin).
    - by apply (Math_max_le _ _ _ Hmax). }
  assert (mn < mx) as Hlt.
  { destruct (links g) as [|l ls] eqn:E; [discriminate|].
    destruct (Hin l) as [H1 H2]; [left|].
    apply Qle_lteq in H1 as [H1|H1].
    - by apply Qlt_le_trans with (effective_weight l).
    - apply Qle_lteq in H2 as [H2|H2].
      + by apply Qle_lt_trans with (effective_weight l); [rewrite H1; apply Qle_refl|].
      + exfalso. apply Hne. by rewrite H1. }
  split; [|split; [|done]].
  - intros w1 w2 Hw. rewrite !normalize_fin by done.
    rewrite !red_fin, !blue_fin.
    pose proof (fraction_mono w1 w2 mn mx Hlt Hw) as Ht.
    split; apply leb_Z; [by apply red_Z_mono|by apply blue_Z_anti].
  - intros w Hw c. unfold c. rewrite getColorForWeight_fin by done.
    rewrite normalize_fin by done. rewrite red_fin, blue_fin.
    pose proof (fraction_bounds w mn mx Hlt Hw) as Ht.
    pose proof (red_Z_bounds _ Ht) as Hr.
    pose proof (blue_Z_bounds _ Ht) as Hb.
    destruct (hex_channels _ _ Hr Hb) as (-> & -> & ->).
    repeat split; try (apply (leb_Z 0); lia); try (apply (leb_Z _ 255); lia).
Qed.

Lemma color_monotone_bounded_witness :
  (red (normalize 2 1 5) <= red (normalize 4 1 5))%js
  ∧ (blue (normalize 4 1 5) <= blue (normalize 2 1 5))%js.
Proof.
  apply (color_monotone_bounded graph_1_5 1 5); [reflexivity|reflexivity|discriminate|discriminate].
Defined.

End ColourMonotone.

(** ** C2: equal weights *)

Section ColourEqual.
Local Open Scope Q_scope.

(** C2: in a snapshot whose weights are all equal (minimum = maximum) every
    edge gets the colour [0x0000ff], red 0 and blue 255; the divisor of the
    normalisation is then 1, and it is never 0 or NaN whatever the bounds. *)
Theorem color_equal_weights (g : graph_json) (mn mx : Q) :
  Math_min (weights (links g)) = Num mn →
  Math_max (weights (links g)) = Num mx →
  mn == mx →
  (∀ l, l ∈ links g →
     getColorForWeight (effective_weight l) mn mx = 0x0000ff%Z
     ∧ red (normalize (effective_weight l) mn mx) = Num (inject_Z 0)
     ∧ blue (normalize (effective_weight l) mn mx) = Num (inject_Z 255))
  ∧ divisor mn mx = Num 1
  ∧ (∀ min max : jsnum, truthy (divisor min max) = true).
Proof.
  intros Hmin Hmax Heq. split; [|split].
  - intros l Hl. apply weights_elem in Hl.
    pose proof (Math_min_le _ _ _ Hmin Hl) as H1.
    pose proof (Math_max_le _ _ _ Hmax Hl) as H2.
    assert (effective_weight l == mn) as Hw.
    { apply Qle_antisym; [|done]. by rewrite Heq. }
    assert (red (normalize (effective_weight l) mn mx) = Num (inject_Z 0)
            ∧ blue (normalize (effective_weight l) mn mx) = Num (inject_Z 255))
      as [Hr Hb].
    { rewrite normalize_equal by done. rewrite red_fin, blue_fin.
      unfold red_Z, blue_Z.
      assert ((effective_weight l - mn) / 1 == 0) as Ht by (rewrite Hw; field).
      rewrite !Ht. done. }
    split; [|done]. unfold getColorForWeight. rewrite Hr, Hb.
    by rewrite pack_channels by lia.
  - by apply divisor_equal.
  - intros min max. unfold divisor, or_else.
    by destruct (truthy (max - min)) eqn:E.
Qed.

Lemma color_equal_weights_witness :
  getColorForWeight (effective_weight (LinkJson "b" "c" None (Some 3))) 3 3
  = 0x0000ff%Z.
Proof.
  apply (color_equal_weights graph_3_3 3 3); [reflexivity|reflexivity|reflexivity|].
  right. left.
Defined.

End ColourEqual.

(** ** C3: the effective weight *)

Section EffectiveWeight.
Local Open Scope Q_scope.

(** C3 as stated fails: a link with [weight: 0] is given the weight 1. *)
Lemma weight_zero_counterexample :
  let l := LinkJson "a" "b" (Some 0) (Some 7) in
  weight_as_stated l == 0 ∧ effective_weight l == 1
  ∧ ¬ effective_weight l == weight_as_stated l.
Proof.
  split; [reflexivity|split; [reflexivity|]]. intros H. vm_compute in H. discriminate H.
Qed.

(** C3, amended: the number used is [weight] when present, otherwise
    [value]; the effective weight is that number unless it is 0, and 1 when
    it is 0 or when neither field is present.  It is the weight the colour is
    computed from and the one stored in [userData.weight] of the line. *)
Theorem effective_weight_rule (l : link_json) :
  (∀ w, weight l = Some w → ¬ w == 0 → effective_weight l = w)
  ∧ (∀ v, weight l = None → value l = Some v → ¬ v == 0 →
       effective_weight l = v)
  ∧ (∀ w, weight l = Some w → w == 0 → effective_weight l = 1)
  ∧ (∀ v, weight l = None → value l = Some v → v == 0 →
       effective_weight l = 1)
  ∧ (weight l = None → value l = None → effective_weight l = 1)
  ∧ (∀ ns min max lk s t sc,
       json lk = l → sourceObj lk = Some s → targetObj lk = Some t →
       ∃ r ln,
         line (create_link ns min max lk sc).1 = Some r
         ∧ lines (create_link ns min max lk sc).2 !! r = Some ln
         ∧ ud_weight ln = effective_weight l
         ∧ line_color ln = getColorForWeight (effective_weight l) min max
         ∧ originalColor ln = Some (line_color ln)).
Proof.
  split; [|split; [|split; [|split; [|split]]]].
  - intros w Hw Hne. unfold effective_weight, weight_or_value. rewrite Hw.
    apply Qeq_bool_false in Hne. by rewrite Hne.
  - intros v Hw Hv Hne. unfold effective_weight, weight_or_value.
    rewrite Hw, Hv. apply Qeq_bool_false in Hne. by rewrite Hne.
  - intros w Hw He. unfold effective_weight, weight_or_value. rewrite Hw.
    apply Qeq_bool_iff in He. by rewrite He.
  - intros v Hw Hv He. unfold effective_weight, weight_or_value.
    rewrite Hw, Hv. apply Qeq_bool_iff in He. by rewrite He.
  - intros Hw Hv. unfold effective_weight, weight_or_value. by rewrite Hw, Hv.
  - intros ns min max lk s t sc Hj Hs Ht. subst l.
    unfold create_link. rewrite Hs, Ht. unfold create_line. simpl.
    rewrite !push_to_node_lines. simpl.
    eexists _, _. split; [done|]. split; [apply list_lookup_middle; done|].
    done.
Qed.

Lemma effective_weight_rule_witness :
  effective_weight (LinkJson "a" "b" None (Some 7)) = 7.
Proof.
  apply (effective_weight_rule (LinkJson "a" "b" None (Some 7))).
  - reflexivity.
  - reflexivity.
  - discriminate.
Defined.

End EffectiveWeight.

(** ** C4: links with an unknown endpoint *)

(** C4: when the source id or the target id of a link of the snapshot is the
    id of no node of the snapshot, rendering gives the link no line; every
    line of the group and every entry of the incident-line list of a node
    mesh of the group is the line of another link, and the store has grown by
    one line per link whose two ids are known. *)
Theorem unresolved_link_dropped (g : graph_json) (random : nat → Q)
  (st : state) (k : nat) (lj : link_json) :
  loadedFont st = true →
  links g !! k = Some lj →
  source lj ∉ map id (nodes g) ∨ target lj ∉ map id (nodes g) →
  let st' := renderGraph3D g random st in
  (∃ l, graph_links (currentGraph st') !! k = Some l
        ∧ json l = lj ∧ line l = None)
  ∧ (∀ r, ChildLine r ∈ children (graphGroup st') →
       ∃ k' l', k' ≠ k ∧ graph_links (currentGraph st') !! k' = Some l'
                ∧ line l' = Some r)
  ∧ (∀ m mo r, ChildMesh m ∈ children (graphGroup st') →
       meshes (graphGroup st') !! m = Some mo → r ∈ mesh_links mo →
       ∃ k' l', k' ≠ k ∧ graph_links (currentGraph st') !! k' = Some l'
                ∧ line l' = Some r)
  ∧ length (lines (graphGroup st'))
    = (length (lines (graphGroup st)) + rendered_links g)%nat.
Proof.
  intros Hfont Hk Hunknown st'. unfold st'.
  rewrite renderGraph3D_loaded by done. simpl.
  assert (∃ l, (render_links g random st).1 !! k = Some l
               ∧ json l = lj ∧ line l = None) as (l & Hl & Hj & Hnone).
  { destruct (lookup_lt_is_Some_2 (render_links g random st).1 k) as [l Hl].
    { rewrite render_links_length. by eapply lookup_lt_Some. }
    exists l. split; [done|].
    destruct (render_links_lookup g random st k l Hl)
      as (lj' & Hlj' & Hj & Hs & Ht & Hn & _).
    assert (lj' = lj) as -> by congruence. split; [done|]. apply Hn.
    unfold resolved. rewrite Hs, Ht.
    destruct Hunknown as [Hu|Hu].
    - destruct (find_node _ (source lj)) eqn:E; [|done].
      exfalso. apply Hu. apply (render_find_is_Some g random st). by eexists.
    - destruct (find_node _ (target lj)) eqn:E;
        [|by destruct (find_node _ (source lj))].
      exfalso. apply Hu. apply (render_find_is_Some g random st). by eexists. }
  assert (∀ r, (length (lines (graphGroup st)) ≤ r
                < length (lines (render_links g random st).2))%nat →
            ∃ k' l', k' ≠ k ∧ (render_links g random st).1 !! k' = Some l'
                     ∧ line l' = Some r) as Hown.
  { intros r Hr.
    destruct (render_line_owner g random st r Hr) as (k' & l' & Hl' & Hr' & _).
    exists k', l'. repeat split; try done. intros ->. congruence. }
  split; [by exists l|]. split; [|split].
  - intros r Hr. apply Hown. rewrite render_children in Hr.
    rewrite render_lines_length.
    apply elem_of_app in Hr as [Hr|Hr];
      apply list_elem_of_fmap in Hr as (j & [=] & Hj'). subst j.
    apply elem_of_seq in Hj'. lia.
  - intros m mo r Hm Hmo Hr. apply Hown. rewrite render_children in Hm.
    apply elem_of_app in Hm as [Hm|Hm];
      apply list_elem_of_fmap in Hm as (j & [=] & Hj'). subst j.
    apply elem_of_seq in Hj' as [Hj1 Hj2].
    destruct (lookup_lt_is_Some_2 (nodes g) (m - length (meshes (graphGroup st))))
      as [nj Hnj]; [lia|].
    destruct (render_mesh g random st _ nj Hnj)
      as (n & mo' & _ & _ & _ & Hmo' & _ & Hlinks).
    replace (length (meshes (graphGroup st))
             + (m - length (meshes (graphGroup st))))%nat with m in Hmo' by lia.
    assert (mo' = mo) as -> by congruence. by apply Hlinks.
  - apply render_lines_length.
Qed.

Lemma unresolved_link_dropped_witness :
  ∃ l, graph_links (currentGraph (renderGraph3D graph_abc random_half state_font))
         !! 2%nat = Some l
       ∧ json l = LinkJson "a" "x" (Some 3%Q) None ∧ line l = None.
Proof.
  apply (unresolved_link_dropped graph_abc random_half state_font 2
           (LinkJson "a" "x" (Some 3%Q) None)); [reflexivity|reflexivity|].
  right. vm_compute. intros H.
  repeat (apply elem_of_cons in H as [H|H]; [discriminate H|]).
  by apply elem_of_nil in H.
Defined.

(** ** C5: a render replaces the scene *)

(** C5: after a render with the font loaded the children of the group are
    one new mesh per node of the snapshot, in order and labelled with the id
    of the node, followed by one new line per link whose two ids are known;
    the links with a line are these links; no child is there twice and no
    child of the group before the render is among them. *)
Theorem render_replaces_scene (g : graph_json) (random : nat → Q)
  (st : state) :
  reachable st → loadedFont st = true →
  let st' := renderGraph3D g random st in
  let M0 := length (meshes (graphGroup st)) in
  let L0 := length (lines (graphGroup st)) in
  children (graphGroup st')
  = map ChildMesh (seq M0 (length (nodes g)))
    ++ map ChildLine (seq L0 (rendered_links g))
  ∧ NoDup (children (graphGroup st'))
  ∧ (∀ k nj, nodes g !! k = Some nj →
       ∃ n mo, graph_nodes (currentGraph st') !! k = Some n
               ∧ mesh n = Some (M0 + k)%nat
               ∧ meshes (graphGroup st') !! (M0 + k)%nat = Some mo
               ∧ mesh_id mo = id nj)
  ∧ omap line (graph_links (currentGraph st')) = seq L0 (rendered_links g)
  ∧ (∀ k l, graph_links (currentGraph st') !! k = Some l →
       (is_Some (line l) ↔ endpoints_known g (json l) = true)
       ∧ links g !! k = Some (json l))
  ∧ (∀ c, c ∈ children (graphGroup st) → c ∉ children (graphGroup st')).
Proof.
  intros Hreach Hfont st' M0 L0. unfold st'.
  rewrite renderGraph3D_loaded by done. simpl.
  rewrite render_children. fold M0 L0.
  split; [done|]. split; [apply children_NoDup|]. split; [|split; [|split]].
  - intros k nj Hk.
    destruct (render_mesh g random st k nj Hk)
      as (n & mo & ? & ? & ? & ? & ? & _).
    by exists n, mo.
  - apply render_line_refs.
  - intros k l Hl.
    destruct (render_links_lookup g random st k l Hl)
      as (lj & Hlj & Hj & Hs & Ht & Hn & Hr).
    subst lj. split; [|done].
    rewrite <- (resolved_bind_link g random st).
    assert (resolved (bind_link (render_nodes g random st).1 (json l))
            = resolved l) as ->
      by (unfold resolved; simpl; by rewrite Hs, Ht).
    destruct (resolved l).
    + destruct Hr as (r & _ & _ & -> & _); [done|]. by split.
    + rewrite Hn by done. split; [by intros [? ?]|done].
  - intros c Hc Hc'. apply reachable_wf in Hreach as Hwf.
    apply elem_of_app in Hc' as [Hc'|Hc'];
      apply list_elem_of_fmap in Hc' as (j & -> & Hj);
      apply elem_of_seq in Hj.
    + destruct (wf_child_mesh _ _ Hwf j Hc) as (mo & Hmo & _).
      apply lookup_lt_Some in Hmo. fold M0 in Hmo. lia.
    + destruct (wf_child_line _ _ Hwf j Hc) as (ln & ? & Hln & _).
      apply lookup_lt_Some in Hln. fold L0 in Hln. lia.
Qed.

Lemma render_replaces_scene_witness :
  children (graphGroup (renderGraph3D graph_1_5 random_half state_abc))
  = [ChildMesh 3; ChildMesh 4; ChildMesh 5; ChildLine 2; ChildLine 3].
Proof.
  apply (render_replaces_scene graph_1_5 random_half state_abc reachable_abc).
  reflexivity.
Defined.

(** ** C6: rendering before the font has loaded *)

(** C6: while the font has not loaded, [renderGraph3D] only writes its
    warning to the console: the group (its children and every mesh and line),
    the current graph with its node and link objects, the simulation, the
    highlighted node and the tooltip are what they were. *)
Theorem render_without_font (g : graph_json) (random : nat → Q) (st : state) :
  loadedFont st = false →
  renderGraph3D g random st
  = log (Warn "Font not loaded yet, skipping render") st
  ∧ graphGroup (renderGraph3D g random st) = graphGroup st
  ∧ currentGraph (renderGraph3D g random st) = currentGraph st
  ∧ simulation (renderGraph3D g random st) = simulation st
  ∧ highlightedNode (renderGraph3D g random st) = highlightedNode st
  ∧ loadedFont (renderGraph3D g random st) = false.
Proof.
  intros Hfont. unfold renderGraph3D. rewrite Hfont. simpl.
  repeat split; try done. unfold log. by rewrite Hfont.
Qed.

Lemma render_without_font_witness :
  graphGroup (renderGraph3D graph_abc random_half initial_state)
  = graphGroup initial_state.
Proof.
  apply (render_without_font graph_abc random_half initial_state).
  reflexivity.
Defined.
(** ** C7: the tick handler *)

(** C7 as stated fails: the position attribute of a line is a
    [Float32Array].  After a tick that puts the first node at
    [x = 1 + 2 ^ -30], which is no single precision number, the first vertex
    of the line of the first link is at [x = 1], not at the position of the
    mesh. *)
Lemma tick_exact_counterexample :
  reachable state_1_5
  ∧ enabled (Tick coords_fine) state_1_5 = true
  ∧ ∃ l, graph_links (currentGraph (tick coords_fine state_1_5)) !! 0%nat
         = Some l
         ∧ sourceObj l = Some 0%nat ∧ targetObj l = Some 1%nat
         ∧ ¬ line_holds_positions (tick coords_fine state_1_5) l 0 1.
Proof.
  split; [apply reachable_1_5|]. split; [reflexivity|].
  eexists. split; [vm_compute; reflexivity|].
  split; [reflexivity|]. split; [reflexivity|].
  intros (p1 & p2 & v1 & v2 & Hb & Hv1 & _).
  destruct Hb as (r & ln & n1 & n2 & m1 & m2 & mo1 & mo2 & Hr & Hln & Hn1 & _
                  & Hm1 & _ & Hmo1 & _ & Hp1 & _ & Hpos).
  injection Hr as <-.
  vm_compute in Hln. injection Hln as <-.
  vm_compute in Hn1. injection Hn1 as <-.
  injection Hm1 as <-.
  vm_compute in Hmo1. injection Hmo1 as <-.
  simpl in Hp1. subst p1.
  injection Hpos as <- _.
  destruct Hv1 as ((x & Hx & Hq) & _).
  injection Hx as <-. vm_compute in Hq. discriminate Hq.
Qed.

(** C7, amended: in every reachable state the line of every link whose two
    endpoints resolved holds exactly two vertices, the current positions of
    the meshes of its source and of its target in single precision; after a
    tick these positions are the coordinates the simulation has just given to
    the two nodes. *)
Theorem tick_syncs_lines (st : state) :
  reachable st →
  (∀ k l s t,
     graph_links (currentGraph st) !! k = Some l →
     sourceObj l = Some s → targetObj l = Some t →
     line_follows_meshes st l s t)
  ∧ (∀ coords k l s t,
       enabled (Tick coords) st = true →
       graph_links (currentGraph (tick coords st)) !! k = Some l →
       sourceObj l = Some s → targetObj l = Some t →
       line_synced (tick coords st) coords l s t).
Proof.
  intros Hreach. split.
  - intros k l s t Hl Hso Hta. eexists _, _.
    eapply synced_line_between; try done.
    + by apply reachable_wf.
    + by apply reachable_synced.
  - intros coords k l s t Hen Hl Hso Hta.
    assert (reachable (tick coords st)) as Hreach'
      by (by apply (reachable_step (Tick coords))).
    apply reachable_wf in Hreach as Hwf.
    apply reachable_wf in Hreach' as Hwf'.
    simpl in Hen. unfold running in Hen.
    destruct (simulation st) as [sim|] eqn:Hsim; [|done].
    unfold line_synced.
    pose proof (wf_source _ _ Hwf' k l s Hl Hso) as Hs.
    pose proof (wf_target _ _ Hwf' k l t Hl Hta) as Ht.
    assert (length (graph_nodes (currentGraph (tick coords st)))
            = length (graph_nodes (currentGraph st))) as Hlen.
    { unfold tick. rewrite (on_tick_spec _ sim); [|done|].
      - simpl. apply length_imap.
      - simpl. apply wf_move_nodes. by destruct (currentGraph st). }
    rewrite <- (on_tick_positions coords st sim s) by (done || lia).
    rewrite <- (on_tick_positions coords st sim t) by (done || lia).
    eapply synced_line_between; try done. by apply reachable_synced.
Qed.

Lemma tick_syncs_lines_witness :
  line_synced (tick coords_k state_1_5) coords_k
    (Link (LinkJson "b" "c" (Some 5%Q) None) (Some 1%nat) (Some 2%nat)
       (Some 1%nat)) 1 2.
Proof.
  apply (proj2 (tick_syncs_lines state_1_5 reachable_1_5) coords_k 1%nat);
    reflexivity.
Defined.

(** ** C8: hovering *)

Section Reset.

Lemma reset_children_children cs sc :
  children (foldl (λ sc c, reset_child c sc) sc cs) = children sc.
Proof. by destruct (reset_children_shape cs sc) as [? _]. Qed.

Lemma reset_children_mesh_in cs sc m :
  ChildMesh m ∈ cs →
  meshes (foldl (λ sc c, reset_child c sc) sc cs) !! m
  = set_mesh_color 0xffffff <$> meshes sc !! m.
Proof.
  induction cs as [|c cs IH] using rev_ind; intros Hin.
  - by apply elem_of_nil in Hin.
  - rewrite foldl_app. simpl.
    destruct (decide (c = ChildMesh m)) as [->|Hne].
    + simpl. rewrite list_lookup_alter_eq.
      destruct (decide (ChildMesh m ∈ cs)) as [Hcs|Hcs].
      * rewrite IH by done. by destruct (meshes sc !! m).
      * f_equal. clear IH Hin.
        induction cs as [|c cs IH] using rev_ind; [done|].
        rewrite foldl_app. simpl.
        rewrite <- IH by (intros H; apply Hcs, elem_of_app; by left).
        destruct c as [m'|r]; simpl; [|done].
        apply list_lookup_alter_ne. intros ->.
        apply Hcs, elem_of_app. right. left.
    + apply elem_of_app in Hin as [Hin|Hin];
        [|apply list_elem_of_singleton in Hin; congruence].
      rewrite <- IH by done.
      destruct c as [m'|r]; simpl; [|done].
      apply list_lookup_alter_ne. congruence.
Qed.

Lemma reset_children_line_notin cs sc r :
  ChildLine r ∉ cs →
  lines (foldl (λ sc c, reset_child c sc) sc cs) !! r = lines sc !! r.
Proof.
  induction cs as [|c cs IH] using rev_ind; intros Hcs; [done|].
  rewrite foldl_app. simpl.
  rewrite <- IH by (intros H; apply Hcs, elem_of_app; by left).
  destruct c as [m'|r']; simpl; [done|].
  apply list_lookup_alter_ne. intros ->.
  apply Hcs, elem_of_app. right. left.
Qed.

Lemma reset_children_line_in cs sc r :
  ChildLine r ∈ cs →
  lines (foldl (λ sc c, reset_child c sc) sc cs) !! r
  = reset_line <$> lines sc !! r.
Proof.
  induction cs as [|c cs IH] using rev_ind; intros Hin.
  - by apply elem_of_nil in Hin.
  - rewrite foldl_app. simpl.
    destruct (decide (c = ChildLine r)) as [->|Hne].
    + simpl. rewrite list_lookup_alter_eq.
      destruct (decide (ChildLine r ∈ cs)) as [Hcs|Hcs].
      * rewrite IH by done. by destruct (lines sc !! r).
      * f_equal. by apply reset_children_line_notin.
    + apply elem_of_app in Hin as [Hin|Hin];
        [|apply list_elem_of_singleton in Hin; congruence].
      rewrite <- IH by done.
      destruct c as [m'|r']; simpl; [done|].
      apply list_lookup_alter_ne. congruence.
Qed.

(** A line whose recorded colour is a weight colour gets it back, or the
    gray when that colour is 0; neither is the highlight colour. *)
Lemma reset_line_recorded ln c :
  originalColor ln = Some c → weight_color c →
  line_color (reset_line ln) = orig_or_gray (reset_line ln)
  ∧ line_color (reset_line ln) ≠ highlight_color
  ∧ opacity (reset_line ln) = (9 # 10)%Q.
Proof.
  intros Hc Hg. unfold orig_or_gray. simpl. unfold orig_or_gray.
  rewrite Hc. destruct (c =? 0) eqn:E; [done|].
  repeat split. intros ->. vm_compute in Hg. done.
Qed.

Lemma reset_scene_reset sc g :
  wf g sc → highlights_reset (reset_scene sc).
Proof.
  intros Hwf. unfold reset_scene. split.
  - intros m Hm. rewrite reset_children_children in Hm.
    rewrite reset_children_mesh_in by done.
    destruct (wf_child_mesh _ _ Hwf m Hm) as (mo & -> & _).
    by eexists.
  - intros r Hr. rewrite reset_children_children in Hr.
    rewrite reset_children_line_in by done.
    destruct (wf_child_line _ _ Hwf r Hr) as (ln & c & -> & Hc & Hw).
    eexists. split; [done|].
    destruct (reset_line_recorded ln c Hc Hw) as (? & _ & ?). done.
Qed.

End Reset.

Section Highlight.

Lemma foldl_alter_notin {A} (f : A → A) (js : list nat) (l : list A) i :
  i ∉ js → foldl (λ l j, alter f j l) l js !! i = l !! i.
Proof.
  induction js as [|j js IH] using rev_ind; intros Hi; [done|].
  rewrite foldl_app. simpl.
  rewrite <- IH by (intros H; apply Hi, elem_of_app; by left).
  apply list_lookup_alter_ne. intros ->. apply Hi, elem_of_app. right. left.
Qed.

Lemma foldl_alter_in {A} (f : A → A) (js : list nat) (l : list A) i :
  (∀ a, f (f a) = f a) → i ∈ js →
  foldl (λ l j, alter f j l) l js !! i = f <$> l !! i.
Proof.
  intros Hf. induction js as [|j js IH] using rev_ind; intros Hi.
  - by apply elem_of_nil in Hi.
  - rewrite foldl_app. simpl.
    destruct (decide (j = i)) as [->|Hne].
    + rewrite list_lookup_alter_eq.
      destruct (decide (i ∈ js)) as [Hjs|Hjs].
      * rewrite IH by done. destruct (l !! i); simpl; [|done]. by rewrite Hf.
      * by rewrite foldl_alter_notin.
    + apply elem_of_app in Hi as [Hi|Hi];
        [|apply list_elem_of_singleton in Hi; congruence].
      rewrite list_lookup_alter_ne by done. by apply IH.
Qed.

Lemma highlight_exactly obj st :
  wf (currentGraph st) (graphGroup st) →
  ChildMesh obj ∈ children (graphGroup st) →
  highlighted_exactly obj (graphGroup (highlight obj (resetHighlights st))).
Proof.
  intros Hwf Hobj.
  assert (wf (currentGraph st) (reset_scene (graphGroup st))) as Hwf'
    by (eapply wf_same_shape; [exact Hwf|apply reset_scene_shape]).
  pose proof (reset_scene_reset _ _ Hwf) as [Hrm Hrl].
  assert (children (reset_scene (graphGroup st)) = children (graphGroup st))
    as Hch by apply reset_children_children.
  unfold highlight. simpl.
  set (sc := reset_scene (graphGroup st)) in *.
  destruct (wf_child_mesh _ _ Hwf' obj) as (mo & Hmo & Hlinks);
    [by rewrite Hch|].
  assert (userData_links
            {| meshes := alter (set_mesh_color 0xffff00) obj (meshes sc);
               lines := lines sc; children := children sc |} obj
          = mesh_links mo) as Hud.
  { unfold userData_links. simpl. rewrite list_lookup_alter_eq, Hmo. done. }
  unfold highlighted_exactly. simpl. rewrite Hud.
  assert (userData_links
            {| meshes := alter (set_mesh_color 0xffff00) obj (meshes sc);
               lines := foldl (λ lns r, alter (set_line_color 0xffff00) r lns)
                          (lines sc) (mesh_links mo);
               children := children sc |} obj
          = mesh_links mo) as ->.
  { unfold userData_links. simpl. rewrite list_lookup_alter_eq, Hmo. done. }
  split; [|split].
  - exists (set_mesh_color 0xffff00 mo). split; [|split; [done|]].
    + by rewrite list_lookup_alter_eq, Hmo.
    + simpl. intros r Hr. rewrite foldl_alter_in by done.
      destruct (lookup_lt_is_Some_2 (lines sc) r (Hlinks r Hr)) as [ln ->].
      by eexists.
  - intros m Hm Hne. rewrite list_lookup_alter_ne by done. by apply Hrm.
  - intros r Hr Hnotin. rewrite foldl_alter_notin by done.
    destruct (wf_child_line _ _ Hwf r) as (ln & c & Hln & Hc & Hw);
      [by rewrite <- Hch|].
    unfold sc, reset_scene. rewrite reset_children_line_in by (by rewrite <- Hch).
    rewrite Hln. eexists. split; [done|].
    by apply (reset_line_recorded ln c).
Qed.

End Highlight.

Lemma reachable_hover_tick : reachable state_hover_tick.
Proof.
  unfold state_hover_tick.
  apply reachable_step; [apply reachable_step; [apply reachable_1_5|]|];
    reflexivity.
Defined.

(** C8 as stated fails when the pointer meets the node that is already the
    highlighted one after the simulation has made a step: the step gave the
    lines their weight colours again, and the listener does nothing for the
    node it has already highlighted. *)
Lemma hover_same_node_counterexample :
  reachable state_hover_tick
  ∧ enabled (MouseMove (Some 1%nat)) state_hover_tick = true
  ∧ highlightedNode state_hover_tick = Some 1%nat
  ∧ ¬ highlighted_exactly 1
        (graphGroup (mousemove (Some 1%nat) state_hover_tick)).
Proof.
  split; [apply reachable_hover_tick|]. split; [reflexivity|].
  split; [reflexivity|].
  intros [(mo & Hmo & _ & Hlines) _].
  vm_compute in Hmo. injection Hmo as <-.
  destruct (Hlines 0%nat) as (ln & Hln & Hc); [left|].
  vm_compute in Hln. injection Hln as <-. vm_compute in Hc. discriminate Hc.
Qed.

(** C8, amended: when the pointer meets a node mesh other than the
    highlighted one, afterwards exactly that mesh and the lines of its
    incident-line list have the highlight colour, everything else having been
    reset first, and the tooltip shows the identifier of the node; when it
    meets the node that is already the highlighted one, no colour changes;
    when it meets no node, the tooltip is hidden, every node mesh has the
    default colour and every line its recorded colour (the gray where none
    is recorded or it is 0) and the default opacity. *)
Theorem hover_highlights (st : state) :
  reachable st →
  (∀ obj,
     enabled (MouseMove (Some obj)) st = true →
     highlightedNode st ≠ Some obj →
     highlighted_exactly obj (graphGroup (mousemove (Some obj) st))
     ∧ highlightedNode (mousemove (Some obj) st) = Some obj
     ∧ tooltip_visible (mousemove (Some obj) st) = true
     ∧ tooltip_innerHTML (mousemove (Some obj) st)
       = userData_id (graphGroup st) obj)
  ∧ (∀ obj,
       enabled (MouseMove (Some obj)) st = true →
       highlightedNode st = Some obj →
       graphGroup (mousemove (Some obj) st) = graphGroup st
       ∧ highlightedNode (mousemove (Some obj) st) = Some obj
       ∧ tooltip_visible (mousemove (Some obj) st) = true)
  ∧ (tooltip_visible (mousemove None st) = false
     ∧ highlights_reset (graphGroup (mousemove None st))
     ∧ highlightedNode (mousemove None st) = None).
Proof.
  intros Hreach. apply reachable_wf in Hreach as Hwf. split; [|split].
  - intros obj Hen Hne. simpl in Hen. apply bool_decide_eq_true in Hen.
    apply list_elem_of_filter in Hen as [_ Hen].
    unfold mousemove. simpl. rewrite decide_False by done.
    repeat split; try done.
    all: by apply (highlight_exactly obj
                     (set_tooltip true (userData_id (graphGroup st) obj) st)).
  - intros obj _ Heq. unfold mousemove. simpl. by rewrite decide_True.
  - simpl. repeat split; try done.
    all: by apply (reset_scene_reset _ _ Hwf).
Qed.

Lemma hover_highlights_witness :
  highlighted_exactly 1 (graphGroup (mousemove (Some 1%nat) state_abc))
  ∧ highlights_reset (graphGroup (mousemove None state_abc)).
Proof.
  destruct (hover_highlights state_abc reachable_abc)
    as (Hhit & _ & _ & Hreset & _).
  split; [|exact Hreset].
  apply (Hhit 1%nat); [reflexivity|discriminate].
Defined.
(** ** C9: a submit request that fails *)

(** C9 as stated fails: the [catch] of [submitDream] also receives the
    exception of [renderGraph3D].  A response whose graph has a link to an
    unknown node makes the render throw after it has replaced the current
    graph and the children of the group and has stopped the simulation: the
    error is logged, and the page is not what it was. *)
Lemma submit_throw_counterexample :
  reachable state_1_5
  ∧ console (submitDream (Resolved (SubmitResponse graph_abc)) random_half
               state_1_5)
    = console state_1_5 ++ [Error "Fetch error:"]
  ∧ currentGraph (submitDream (Resolved (SubmitResponse graph_abc))
                    random_half state_1_5)
    ≠ currentGraph state_1_5
  ∧ children (graphGroup (submitDream (Resolved (SubmitResponse graph_abc))
                            random_half state_1_5))
    ≠ children (graphGroup state_1_5)
  ∧ simulation (submitDream (Resolved (SubmitResponse graph_abc))
                  random_half state_1_5)
    ≠ simulation state_1_5.
Proof.
  split; [apply reachable_1_5|]. split; [reflexivity|].
  split; [|split]; vm_compute; discriminate.
Qed.

(** C9, amended: when the request of [submitDream] is rejected, or its body
    is not JSON, the only effect is the error written to the console: the
    current graph, the group with all its meshes and lines, the simulation
    and the highlighted node are what they were, and [renderGraph3D] is not
    run.  When the response arrives, the same error is written exactly when
    [renderGraph3D] throws, which it does when the font is loaded and the id
    of an endpoint of a link of the graph is the id of no node: the render
    has then replaced the current graph and the children of the group, the
    former simulation is stopped and no simulation makes steps. *)
Theorem submit_failure_effects (res : fetched submit_response)
  (random : nat → Q) (st : state) :
  (res = FetchRejected ∨ res = JsonRejected →
   submitDream res random st = log (Error "Fetch error:") st
   ∧ currentGraph (submitDream res random st) = currentGraph st
   ∧ graphGroup (submitDream res random st) = graphGroup st
   ∧ simulation (submitDream res random st) = simulation st
   ∧ highlightedNode (submitDream res random st) = highlightedNode st
   ∧ console (submitDream res random st)
     = console st ++ [Error "Fetch error:"])
  ∧ (∀ data, res = Resolved data →
       let g := response_graph data in
       (renderGraph3D_throws g st = true
        ↔ loadedFont st = true
          ∧ ∃ lj, lj ∈ links g
                  ∧ (source lj ∉ map id (nodes g)
                     ∨ target lj ∉ map id (nodes g)))
       ∧ (renderGraph3D_throws g st = false →
          submitDream res random st = renderGraph3D g random st)
       ∧ (renderGraph3D_throws g st = true →
          submitDream res random st
          = log (Error "Fetch error:") (renderGraph3D g random st)
          ∧ console (submitDream res random st)
            = console st ++ [Error "Fetch error:"]
          ∧ children (graphGroup (submitDream res random st))
            = map ChildMesh
                (seq (length (meshes (graphGroup st))) (length (nodes g)))
              ++ map ChildLine
                   (seq (length (lines (graphGroup st))) (rendered_links g))
          ∧ simulation (submitDream res random st) = stop <$> simulation st
          ∧ running (submitDream res random st) = false)).
Proof.
  split; [by intros [-> | ->]|].
  intros data -> g. split; [apply renderGraph3D_throws_spec|].
  unfold submitDream. fold g. split; intros Ht; rewrite Ht; [done|].
  destruct (renderGraph3D_thrown g random st Ht) as [Hsim Hrun].
  apply renderGraph3D_throws_spec in Ht as [Hfont _].
  split; [done|]. split; [|split; [|split; [done|]]]; simpl.
  - by rewrite renderGraph3D_loaded.
  - rewrite renderGraph3D_loaded by done. apply render_children.
  - unfold running in *. simpl. exact Hrun.
Qed.

Lemma submit_failure_effects_witness :
  graphGroup (submitDream FetchRejected random_half state_1_5)
  = graphGroup state_1_5.
Proof.
  apply (proj1 (submit_failure_effects FetchRejected random_half state_1_5)).
  by left.
Defined.

(** ** C10: the bounds of the normalisation *)

(** C10: the minimum and the maximum that colour the lines are those of the
    weights of all the links of the snapshot, the links that get no line
    included: the line of every link has the colour of its weight between
    these two bounds, and the weight of every link, dropped or not, lies
    between them.  Changing only the weight of a dropped link can therefore
    change the colours of the lines: with 3 on the link to the unknown node
    the two lines of the example are blue and red, with 9 the second one is
    purple. *)
Theorem bounds_over_all_links (g : graph_json) (random : nat → Q)
  (st : state) :
  loadedFont st = true →
  let st' := renderGraph3D g random st in
  let min := Math_min (map effective_weight (links g)) in
  let max := Math_max (map effective_weight (links g)) in
  (∀ k l r, graph_links (currentGraph st') !! k = Some l →
       line l = Some r →
       ∃ ln, lines (graphGroup st') !! r = Some ln
             ∧ line_color ln
               = getColorForWeight (effective_weight (json l)) min max)
  ∧ (∀ lj, lj ∈ links g →
       ∃ mn mx : Q, min = Num mn ∧ max = Num mx
                    ∧ (mn <= effective_weight lj <= mx)%Q)
  ∧ (∃ (g1 g2 : graph_json) (k : nat) (lj1 lj2 : link_json),
       nodes g1 = nodes g2
       ∧ links g1 !! k = Some lj1 ∧ links g2 !! k = Some lj2
       ∧ source lj1 = source lj2 ∧ target lj1 = target lj2
       ∧ endpoints_known g1 lj1 = false ∧ endpoints_known g2 lj2 = false
       ∧ (∀ j, j ≠ k → links g1 !! j = links g2 !! j)
       ∧ child_line_colors
           (graphGroup (renderGraph3D g1 random_half state_font))
         = [0x0000ff; 0xff0000]
       ∧ child_line_colors
           (graphGroup (renderGraph3D g2 random_half state_font))
         = [0x0000ff; 0x7f007f]).
Proof.
  intros Hfont st' min max. unfold st'.
  rewrite renderGraph3D_loaded by done. simpl.
  split; [|split].
  - intros k l r Hl Hr.
    destruct (render_links_lookup g random st k l Hl)
      as (lj & _ & Hj & _ & _ & Hn & Hres).
    destruct (resolved l); [|rewrite Hn in Hr; done].
    destruct Hres as (r' & s & t & Hr' & _ & _ & Hln); [done|].
    assert (r' = r) as -> by congruence. subst lj.
    eexists. split; [exact Hln|done].
  - intros lj Hlj. by apply weight_between.
  - exists graph_abc, graph_abc_9, 2%nat, (LinkJson "a" "x" (Some 3%Q) None),
      (LinkJson "a" "x" (Some 9%Q) None).
    repeat split; try done. by intros [|[|[|j]]].
Qed.

Lemma bounds_over_all_links_witness :
  ∃ mn mx : Q,
    Math_min (map effective_weight (links graph_abc_9)) = Num mn
    ∧ Math_max (map effective_weight (links graph_abc_9)) = Num mx
    ∧ (mn <= effective_weight (LinkJson "a" "x" (Some 9%Q) None) <= mx)%Q.
Proof.
  destruct (bounds_over_all_links graph_abc_9 random_half state_font eq_refl)
    as (_ & H & _).
  apply H. right. right. left.
Defined.

(** * Further properties of the code *)

(** ** The pointer *)

Section Pointer.
Local Open Scope Q_scope.

Lemma js_div_fin (a b : Q) : ¬ b == 0 → JS.div (Num a) (Num b) = Num (a / b).
Proof.
  intros Hb. simpl. unfold sgn. destruct (0 ?= b) eqn:E; [|done..].
  apply Qeq_alt in E. exfalso. apply Hb. by symmetry.
Qed.

Lemma Qpos_nonzero (b : Q) : 0 < b → ¬ b == 0.
Proof. intros H E. rewrite E in H. by apply Qlt_irrefl in H. Qed.

(** X1: for a window of positive size and a pointer inside it, [mouse.x]
    and [mouse.y] are finite and between -1 and 1; the left edge gives -1,
    the right edge 1, and the vertical axis is flipped: the top edge gives 1,
    the bottom edge -1. *)
Theorem pointer_to_ndc (cx cy W H : Q) :
  0 < W → 0 < H → 0 <= cx <= W → 0 <= cy <= H →
  ∃ x y, mouse_x cx W = Num x ∧ mouse_y cy H = Num y
         ∧ -1 <= x <= 1 ∧ -1 <= y <= 1
         ∧ (cx == 0 → x == -1) ∧ (cx == W → x == 1)
         ∧ (cy == 0 → y == 1) ∧ (cy == H → y == -1).
Proof.
  intros HW HH [Hx0 Hx1] [Hy0 Hy1].
  unfold mouse_x, mouse_y.
  rewrite !js_div_fin by (by apply Qpos_nonzero). simpl.
  eexists _, _. split; [done|]. split; [done|].
  assert (0 <= cx / W <= 1) as [Ha0 Ha1].
  { split; [by apply Qle_shift_div_l; [|ring_simplify]|].
    apply Qle_shift_div_r; [done|]. by ring_simplify. }
  assert (0 <= cy / H <= 1) as [Hb0 Hb1].
  { split; [by apply Qle_shift_div_l; [|ring_simplify]|].
    apply Qle_shift_div_r; [done|]. by ring_simplify. }
  assert (∀ a, 0 <= a → a <= 1 → -1 <= a * 2 - 1 <= 1) as Hrange.
  { intros a H0 H1. split.
    - apply (Qplus_le_l _ _ 1). ring_simplify.
      setoid_replace 0 with (2 * 0) using relation Qeq by ring.
      by apply Qmult_le_l.
    - apply (Qplus_le_l _ _ 1). ring_simplify.
      setoid_replace 2 with (2 * 1) using relation Qeq at 2 by ring.
      by apply Qmult_le_l. }
  assert (∀ a, 0 <= a → a <= 1 → -1 <= - a * 2 + 1 <= 1) as Hrange'.
  { intros a H0 H1. destruct (Hrange a H0 H1) as [H2 H3]. split.
    - apply Qopp_le_compat in H3.
      eapply Qle_trans; [exact H3|]. apply Qle_lteq. right. ring.
    - apply Qopp_le_compat in H2.
      eapply Qle_trans; [|exact H2]. apply Qle_lteq. right. ring. }
  split; [by apply Hrange|]. split; [by apply Hrange'|].
  repeat split.
  - intros E. rewrite E. field. by apply Qpos_nonzero.
  - intros E. rewrite E. field. by apply Qpos_nonzero.
  - intros E. rewrite E. field. by apply Qpos_nonzero.
  - intros E. rewrite E. field. by apply Qpos_nonzero.
Qed.

Lemma pointer_to_ndc_witness :
  ∃ x y, mouse_x (Num 400) (Num 800) = Num x
         ∧ mouse_y (Num 150) (Num 600) = Num y
         ∧ -1 <= x <= 1 ∧ -1 <= y <= 1
         ∧ (400 == 0 → x == -1) ∧ (400 == 800 → x == 1)
         ∧ (150 == 0 → y == 1) ∧ (150 == 600 → y == -1).
Proof.
  apply (pointer_to_ndc 400 150 800 600); try reflexivity;
    split; discriminate.
Defined.

End Pointer.

(** ** The gradient and the bounds of the weights *)

Section Gradient.
Local Open Scope Q_scope.

(** X3: for two distinct bounds whose difference does not overflow (it is
    at most [Number.MAX_VALUE]), the minimum weight gets pure blue
    [0x0000ff] and the maximum weight pure red [0xff0000]. *)
Theorem gradient_endpoints (mn mx : Q) :
  mn < mx → mx - mn <= MAX_VALUE →
  getColorForWeight mn mn mx = 0x0000ff%Z
  ∧ getColorForWeight mx mn mx = 0xff0000%Z.
Proof.
  intros Hlt _.
  assert (¬ mx - mn == 0) as Hne.
  { intros E. apply (proj1 (Qminus_0 mx mn)) in E. rewrite E in Hlt.
    by apply Qlt_irrefl in Hlt. }
  split.
  - rewrite getColorForWeight_fin; [|done|split; [apply Qle_refl|by apply Qlt_le_weak]].
    assert ((mn - mn) / (mx - mn) == 0) as E by (field; done).
    unfold red_Z, blue_Z. by rewrite !E.
  - rewrite getColorForWeight_fin; [|done|split; [by apply Qlt_le_weak|apply Qle_refl]].
    assert ((mx - mn) / (mx - mn) == 1) as E by (field; done).
    unfold red_Z, blue_Z. by rewrite !E.
Qed.

Lemma gradient_endpoints_witness :
  getColorForWeight (Num 2) (Num 2) (Num 7) = 0x0000ff%Z
  ∧ getColorForWeight (Num 7) (Num 2) (Num 7) = 0xff0000%Z.
Proof. apply (gradient_endpoints 2 7); [reflexivity|discriminate]. Defined.

(** X4: between two distinct bounds whose difference does not overflow (it
    is at most [Number.MAX_VALUE]) the red and the blue channel of the colour
    add up to 254 or 255: what red gains, blue loses. *)
Theorem gradient_channel_sum (w mn mx : Q) :
  mn < mx → mx - mn <= MAX_VALUE → mn <= w <= mx →
  let c := getColorForWeight w mn mx in
  (hex_red c + hex_blue c = 254 ∨ hex_red c + hex_blue c = 255)%Z.
Proof.
  intros Hlt _ Hw c. unfold c. rewrite getColorForWeight_fin by done.
  set (t := (w - mn) / (mx - mn)).
  pose proof (fraction_bounds w mn mx Hlt Hw) as Ht. fold t in Ht.
  destruct (hex_channels _ _ (red_Z_bounds _ Ht) (blue_Z_bounds _ Ht))
    as (-> & _ & ->).
  pose proof (Qfloor_le (255 * t)) as H1.
  pose proof (Qfloor_le (255 * (1 - t))) as H2.
  pose proof (Qlt_floor (255 * t)) as H3.
  pose proof (Qlt_floor (255 * (1 - t))) as H4.
  fold (red_Z t) in H1, H3. fold (blue_Z t) in H2, H4.
  assert (red_Z t + blue_Z t ≤ 255)%Z as Hle.
  { rewrite Zle_Qle, inject_Z_plus.
    eapply Qle_trans; [apply (Qplus_le_compat _ _ _ _ H1 H2)|].
    apply Qle_lteq. right. ring. }
  assert (255 < (red_Z t + 1) + (blue_Z t + 1))%Z as Hgt.
  { rewrite Zlt_Qlt, inject_Z_plus.
    eapply Qle_lt_trans;
      [|apply (Qplus_lt_le_compat _ _ _ _ H3 (Qlt_le_weak _ _ H4))].
    apply Qle_lteq. right. ring. }
  lia.
Qed.

Lemma gradient_channel_sum_witness :
  (hex_red (getColorForWeight (Num 3) (Num 1) (Num 5))
   + hex_blue (getColorForWeight (Num 3) (Num 1) (Num 5)) = 254
   ∨ hex_red (getColorForWeight (Num 3) (Num 1) (Num 5))
     + hex_blue (getColorForWeight (Num 3) (Num 1) (Num 5)) = 255)%Z.
Proof.
  apply (gradient_channel_sum 3 1 5); [reflexivity|discriminate|].
  split; discriminate.
Defined.

Lemma Math_min_elem (ws : list Q) m : Math_min ws = Num m → m ∈ ws.
Proof.
  revert m. induction ws as [|w ws IH]; intros m Hm; [done|].
  simpl in Hm. destruct (Math_min ws) as [m'| | |] eqn:E.
  - injection Hm as <-. unfold Qmin, GenericMinMax.gmin.
    destruct (w ?= m'); [left|left|right; by apply IH].
  - injection Hm as <-. left.
  - injection Hm as <-. left.
  - injection Hm as <-. left.
Qed.

Lemma Math_max_elem (ws : list Q) m : Math_max ws = Num m → m ∈ ws.
Proof.
  revert m. induction ws as [|w ws IH]; intros m Hm; [done|].
  simpl in Hm. destruct (Math_max ws) as [m'| | |] eqn:E.
  - injection Hm as <-. unfold Qmax, GenericMinMax.gmax.
    destruct (w ?= m'); [left|right; by apply IH|left].
  - injection Hm as <-. left.
  - injection Hm as <-. left.
  - injection Hm as <-. left.
Qed.

Lemma effective_weight_nonzero (l : link_json) : ¬ effective_weight l == 0.
Proof.
  unfold effective_weight. destruct (weight_or_value l) as [w|]; [|discriminate].
  destruct (Qeq_bool w 0) eqn:E; [discriminate|]. by apply Qeq_bool_false.
Qed.

(** X5: the bounds of a snapshot.  With no link they are [Infinity] and
    [-Infinity]; with at least one link they are finite, each is the
    effective weight of some link, the minimum is at most the maximum, and
    neither is 0, as no effective weight is. *)
Theorem weight_bounds (ls : list link_json) :
  (ls = [] → Math_min (weights ls) = PosInf ∧ Math_max (weights ls) = NegInf)
  ∧ (ls ≠ [] →
     ∃ mn mx l1 l2,
       Math_min (weights ls) = Num mn ∧ Math_max (weights ls) = Num mx
       ∧ l1 ∈ ls ∧ effective_weight l1 = mn
       ∧ l2 ∈ ls ∧ effective_weight l2 = mx
       ∧ mn <= mx ∧ ¬ mn == 0 ∧ ¬ mx == 0)
  ∧ (∀ l, ¬ effective_weight l == 0).
Proof.
  split; [by intros ->|]. split; [|apply effective_weight_nonzero].
  intros Hne.
  assert (weights ls ≠ []) as Hw by (by destruct ls).
  destruct (Math_min_Num _ Hw) as [mn Hmn].
  destruct (Math_max_Num _ Hw) as [mx Hmx].
  pose proof (Math_min_elem _ _ Hmn) as H1.
  pose proof (Math_max_elem _ _ Hmx) as H2.
  pose proof (Math_max_le _ _ _ Hmx H1) as Hle.
  apply list_elem_of_fmap in H1 as (l1 & -> & Hl1).
  apply list_elem_of_fmap in H2 as (l2 & -> & Hl2).
  exists (effective_weight l1), (effective_weight l2), l1, l2.
  repeat split; try done; apply effective_weight_nonzero.
Qed.

Lemma weight_bounds_witness :
  ∃ mn mx l1 l2,
    Math_min (weights (links graph_abc)) = Num mn
    ∧ Math_max (weights (links graph_abc)) = Num mx
    ∧ l1 ∈ links graph_abc ∧ effective_weight l1 = mn
    ∧ l2 ∈ links graph_abc ∧ effective_weight l2 = mx
    ∧ mn <= mx ∧ ¬ mn == 0 ∧ ¬ mx == 0.
Proof.
  apply (weight_bounds (links graph_abc)). discriminate.
Defined.

End Gradient.
(** ** The initial load and the time before the font has loaded *)

(** X6: an initial load does to the page what a submit with the same
    outcome does, but for the text of the error.  Whatever the outcome of
    the request, the current graph, the group, the simulation, the
    highlighted node and the tooltip after [loadInitialGraph] are those
    after [submitDream]; and ["Graph load error:"] is written, as
    ["Fetch error:"] is, exactly when the request is rejected, or the body is
    not JSON, or the render throws, which it does when the font is loaded and
    the id of an endpoint of a link is the id of no node.  Otherwise the two
    consoles are the same and no error is written. *)
Theorem load_like_submit (res : fetched graph_json) (random : nat → Q)
  (st : state) :
  let a := loadInitialGraph res random st in
  let b := submitDream (as_response res) random st in
  let fails :=
    res = FetchRejected ∨ res = JsonRejected
    ∨ ∃ g, res = Resolved g ∧ loadedFont st = true
           ∧ ∃ lj, lj ∈ links g
                   ∧ (source lj ∉ map id (nodes g)
                      ∨ target lj ∉ map id (nodes g)) in
  (currentGraph a = currentGraph b ∧ graphGroup a = graphGroup b
   ∧ simulation a = simulation b ∧ highlightedNode a = highlightedNode b
   ∧ tooltip_visible a = tooltip_visible b
   ∧ tooltip_innerHTML a = tooltip_innerHTML b
   ∧ loadedFont a = loadedFont b)
  ∧ (fails → console a = console st ++ [Error "Graph load error:"]
             ∧ console b = console st ++ [Error "Fetch error:"])
  ∧ (¬ fails → console a = console b
               ∧ ∀ e, console a ≠ console st ++ [Error e]).
Proof.
  intros a b fails. unfold a, b, fails. clear a b fails.
  destruct res as [| |g]; simpl.
  - split; [done|]. split; [done|]. intros H. exfalso. apply H. by left.
  - split; [done|]. split; [done|]. intros H. exfalso. apply H. by right; left.
  - destruct (renderGraph3D_throws g st) eqn:Ht.
    + pose proof Ht as [Hfont Hlj]%renderGraph3D_throws_spec.
      simpl. rewrite renderGraph3D_loaded by done. simpl.
      split; [done|]. split; [done|]. intros H. exfalso. apply H.
      right. right. by exists g.
    + split; [done|]. split.
      * intros [H|[H|(g0 & [= <-] & Hfont & Hlj)]]; try done.
        assert (renderGraph3D_throws g st = true) as H
          by (by apply renderGraph3D_throws_spec).
        congruence.
      * intros _. split; [done|]. intros e.
        destruct (loadedFont st) eqn:Hfont.
        -- rewrite renderGraph3D_loaded by done. simpl. intros H.
           apply (f_equal length) in H. rewrite length_app in H. simpl in H.
           lia.
        -- unfold renderGraph3D. rewrite Hfont. simpl. intros H.
           by apply app_inv_head in H.
Qed.

Lemma load_like_submit_witness :
  console (loadInitialGraph (Resolved graph_abc) random_half state_font)
  = console state_font ++ [Error "Graph load error:"]
  ∧ console (submitDream (as_response (Resolved graph_abc)) random_half
               state_font)
    = console state_font ++ [Error "Fetch error:"].
Proof.
  destruct (load_like_submit (Resolved graph_abc) random_half state_font)
    as (_ & H & _).
  apply H. right. right. exists graph_abc. split; [done|]. split; [done|].
  exists (LinkJson "a" "x" (Some 3%Q) None). split; [right; right; left|].
  right. vm_compute. intros H'.
  repeat (apply elem_of_cons in H' as [H'|H']; [discriminate H'|]).
  by apply elem_of_nil in H'.
Defined.

Section BeforeRender.

Lemma step_font e st :
  loadedFont st = true → loadedFont (step e st) = true.
Proof.
  intros H.
  destruct e as [|res random|res random|coords|coords|hit]; simpl; try done.
  - destruct res; simpl; try done.
    destruct (renderGraph3D_throws _ _); simpl;
      by rewrite renderGraph3D_loaded.
  - destruct res; simpl; try done.
    destruct (renderGraph3D_throws _ _); simpl;
      by rewrite renderGraph3D_loaded.
  - unfold tick, on_tick. simpl. destruct (simulation st); [|done].
    by destruct (for_each_link _ _ _).
  - unfold mousemove. destruct hit; [|done]. by case_decide.
Qed.

Lemma renderGraph3D_simulation g random st :
  is_Some (simulation st) → is_Some (simulation (renderGraph3D g random st)).
Proof.
  intros [sim Hsim]. destruct (loadedFont st) eqn:Hfont.
  - rewrite renderGraph3D_loaded by done. simpl. rewrite Hsim.
    by destruct (forceLink_throws g).
  - unfold renderGraph3D. rewrite Hfont. simpl. by rewrite Hsim.
Qed.

Lemma step_simulation e st :
  is_Some (simulation st) → is_Some (simulation (step e st)).
Proof.
  intros H.
  destruct e as [|res random|res random|coords|coords|hit]; simpl; try done.
  - destruct res; simpl; try done.
    destruct (renderGraph3D_throws _ _); simpl;
      by apply renderGraph3D_simulation.
  - destruct res; simpl; try done.
    destruct (renderGraph3D_throws _ _); simpl;
      by apply renderGraph3D_simulation.
  - unfold tick, on_tick. simpl. destruct (simulation st) eqn:E; [|done].
    destruct (for_each_link _ _ _). simpl. rewrite E. by eexists.
  - unfold mousemove. destruct hit; [|done]. by case_decide.
Qed.

Lemma render_before_font g random st :
  loadedFont st = false →
  renderGraph3D_throws g st = false
  ∧ renderGraph3D g random st
    = log (Warn "Font not loaded yet, skipping render") st.
Proof.
  intros Hfont. unfold renderGraph3D_throws, renderGraph3D, log.
  by rewrite Hfont.
Qed.

(** X7: before the font has loaded nothing is rendered: there is no
    simulation, the current graph and the group are empty, no node is
    highlighted and the tooltip is hidden; every response that settles
    before is dropped.  The font, once loaded, stays loaded, and
    [simulation], once it refers to a simulation, always does. *)
Theorem nothing_before_font (st : state) :
  reachable st →
  (loadedFont st = false → simulation st = None ∧ nothing_rendered st)
  ∧ (∀ e, loadedFont st = true → loadedFont (step e st) = true)
  ∧ (∀ e, is_Some (simulation st) → is_Some (simulation (step e st))).
Proof.
  intros Hreach.
  split; [|split; [intros e; apply step_font|intros e; apply step_simulation]].
  induction Hreach as [|e st Hst IH He]; [done|].
  intros Hfont.
  assert (loadedFont st = false) as Hf.
  { destruct (loadedFont st) eqn:E; [|done].
    by rewrite (step_font e st E) in Hfont. }
  destruct (IH Hf) as (Hsim & Hg & Hsc & Hh & Ht).
  assert (∀ g random,
            simulation (renderGraph3D g random st) = None
            ∧ nothing_rendered (renderGraph3D g random st)) as Hrender.
  { intros g random.
    destruct (render_before_font g random st Hf) as [_ ->]. done. }
  destruct e as [|res random|res random|coords|coords|hit]; unfold step in *.
  - done.
  - destruct res as [| |data]; try done. unfold submitDream.
    destruct (render_before_font (response_graph data) random st Hf)
      as [-> _].
    apply Hrender.
  - destruct res as [| |g]; try done. unfold loadInitialGraph.
    destruct (render_before_font g random st Hf) as [-> _].
    apply Hrender.
  - simpl in He. unfold running in He. by rewrite Hsim in He.
  - unfold nothing_rendered. simpl. by rewrite Hg.
  - destruct hit as [obj|].
    + simpl in He. apply bool_decide_eq_true in He.
      unfold node_meshes in He. rewrite Hsc in He.
      by apply elem_of_nil in He.
    + unfold nothing_rendered. simpl. by rewrite Hsc.
Qed.

Lemma nothing_before_font_witness :
  simulation
    (step (SubmitSettled (Resolved (SubmitResponse graph_abc)) random_half)
       initial_state) = None
  ∧ nothing_rendered
      (step (SubmitSettled (Resolved (SubmitResponse graph_abc)) random_half)
         initial_state).
Proof.
  apply (nothing_before_font
           (step (SubmitSettled (Resolved (SubmitResponse graph_abc))
                    random_half) initial_state)).
  - apply reachable_step; [apply reachable_initial|reflexivity].
  - reflexivity.
Defined.

End BeforeRender.

(** ** What a render builds *)

Section StartPositions.
Local Open Scope Q_scope.
Context (random : nat → Q).

Lemma init_nodes_coordinates k0 ns sc k n :
  (init_nodes random k0 ns sc).1 !! k = Some n →
  x n = (random (3 * (k0 + k))%nat - (1 # 2)) * axisLength
  ∧ y n = (random (3 * (k0 + k) + 1)%nat - (1 # 2)) * axisLength
  ∧ z n = (random (3 * (k0 + k) + 2)%nat - (1 # 2)) * axisLength.
Proof.
  revert k0 sc k. induction ns as [|nj ns IH]; intros k0 sc k; [done|].
  simpl. specialize (IH (S k0) (init_node random k0 nj sc).2).
  destruct (init_nodes random (S k0) ns _) as [nds sc2] eqn:E. simpl in *.
  destruct k as [|k]; simpl; intros H.
  - injection H as <-. repeat split; simpl; repeat f_equal; lia.
  - replace (k0 + S k)%nat with (S (k0 + k)) by lia. by apply IH.
Qed.

Lemma cube_bounds (u : Q) :
  0 <= u → u < 1 →
  -20 <= (u - (1 # 2)) * axisLength ∧ (u - (1 # 2)) * axisLength < 20.
Proof.
  intros H0 H1. unfold axisLength. split.
  - apply Qle_trans with ((0 - (1 # 2)) * 40); [discriminate|].
    apply Qmult_le_compat_r; [|discriminate]. by apply Qplus_le_l.
  - apply Qlt_le_trans with ((1 - (1 # 2)) * 40); [|discriminate].
    apply Qmult_lt_compat_r; [reflexivity|]. by apply Qplus_lt_l.
Qed.

(** X8: when [Math.random] returns numbers from 0 (included) to 1
    (excluded), a render gives every node a starting position in the cube of
    side 40 centred at the origin: each coordinate is at least -20 and less
    than 20. *)
Theorem start_positions_in_cube (g : graph_json) (st : state) :
  (∀ k, 0 <= random k ∧ random k < 1) →
  loadedFont st = true →
  ∀ k n,
    graph_nodes (currentGraph (renderGraph3D g random st)) !! k = Some n →
    (-20 <= x n ∧ x n < 20) ∧ (-20 <= y n ∧ y n < 20)
    ∧ (-20 <= z n ∧ z n < 20).
Proof.
  intros Hrandom Hfont k n Hn.
  rewrite renderGraph3D_loaded in Hn by done. simpl in Hn.
  apply init_nodes_coordinates in Hn as (-> & -> & ->). simpl.
  repeat split; apply cube_bounds; apply Hrandom.
Qed.

End StartPositions.

Lemma start_positions_in_cube_witness :
  ∃ n,
    graph_nodes (currentGraph (renderGraph3D graph_abc random_half state_font))
      !! 1%nat = Some n
    ∧ ((-20 <= x n ∧ x n < 20) ∧ (-20 <= y n ∧ y n < 20)
       ∧ (-20 <= z n ∧ z n < 20))%Q.
Proof.
  eexists. split; [vm_compute; reflexivity|].
  apply (start_positions_in_cube random_half graph_abc state_font) with 1%nat.
  - intros k. split; [discriminate|reflexivity].
  - reflexivity.
  - vm_compute; reflexivity.
Defined.

Section Painted.
Context (ns : list node) (min max : jsnum) (sc0 : scene).

Lemma painted_step done l sc :
  painted min max sc0 done sc →
  painted min max sc0 (done ++ [l]) (create_link ns min max l sc).2.
Proof.
  intros [Hlen Hcol]. destruct (resolved l) eqn:Hres.
  - destruct (resolved_true _ Hres) as (s & t & Hs & Ht).
    unfold create_link. rewrite Hs, Ht. unfold create_line. simpl.
    split; rewrite !push_to_node_lines; simpl.
    + rewrite length_app. lia.
    + rewrite drop_app_le by done. rewrite map_app, Hcol.
      rewrite filter_app, map_app. f_equal.
      by rewrite filter_cons_True.
  - rewrite create_link_unresolved by done. simpl. split; [done|].
    rewrite filter_app, filter_cons_False by congruence.
    by rewrite filter_nil, app_nil_r.
Qed.

Lemma create_links_painted ls :
  painted min max sc0 ls (for_each_link (create_link ns min max) ls sc0).2.
Proof.
  apply (for_each_link_inv (create_link ns min max)
           (λ done _ sc, painted min max sc0 done sc)).
  - split; [done|]. by rewrite drop_all.
  - intros done done' l sc. apply painted_step.
Qed.

End Painted.

Lemma omap_lookup_seq {A B} (f : A → B) (pre l : list A) :
  omap (λ r, f <$> (pre ++ l) !! r) (seq (length pre) (length l)) = map f l.
Proof.
  revert pre. induction l as [|a l IH]; intros pre; [done|].
  simpl. rewrite list_lookup_middle by done. simpl. f_equal.
  specialize (IH (pre ++ [a])).
  rewrite <- app_assoc, length_app, Nat.add_1_r in IH. done.
Qed.

Lemma child_line_colors_split sc (a b : list nat) :
  children sc = map ChildMesh a ++ map ChildLine b →
  child_line_colors sc = omap (λ r, line_color <$> lines sc !! r) b.
Proof.
  unfold child_line_colors. intros ->. rewrite omap_app.
  induction a as [|i a IH]; simpl; [|done].
  induction b as [|j b IH]; simpl; [done|].
  destruct (lines sc !! j); simpl; [f_equal|]; apply IH.
Qed.

Section RenderedColours.
Context (g : graph_json) (random : nat → Q) (st : state).
Context (Hfont : loadedFont st = true).

Lemma known_links_bound :
  map (λ l, getColorForWeight (effective_weight (json l))
              (Math_min (weights (links g))) (Math_max (weights (links g))))
    (filter (λ l, resolved l = true)
       (map (bind_link (render_nodes g random st).1) (links g)))
  = map (colour_of g) (known_links g).
Proof.
  unfold known_links, colour_of.
  generalize (Math_min (weights (links g))) (Math_max (weights (links g))).
  intros mn mx. induction (links g) as [|lj ljs IH]; [done|].
  simpl. rewrite !filter_cons. rewrite resolved_bind_link.
  repeat case_decide; simpl; congruence.
Qed.

(** X9: the colours of the lines of the group after a render, in order, are
    the colours of the links of the snapshot whose two ids are known, in the
    order of the snapshot; they do not depend on what was rendered before, on
    the random numbers or on the state of the page. *)
Theorem rendered_line_colors :
  child_line_colors (graphGroup (renderGraph3D g random st))
  = map (colour_of g) (known_links g).
Proof.
  rewrite renderGraph3D_loaded by done. simpl.
  rewrite (child_line_colors_split _ _ _ (render_children g random st)).
  set (sc2 := (render_links g random st).2).
  set (L0 := length (lines (graphGroup st))).
  pose proof (create_links_painted (render_nodes g random st).1
                (Math_min (weights (links g))) (Math_max (weights (links g)))
                (render_nodes g random st).2
                (map (bind_link (render_nodes g random st).1) (links g)))
    as [Hlen Hcol].
  fold (render_links g random st) in Hlen, Hcol. fold sc2 in Hlen, Hcol.
  rewrite render_nodes_lines in Hlen, Hcol. fold L0 in Hlen, Hcol.
  rewrite known_links_bound in Hcol. rewrite <- Hcol.
  pose proof (render_lines_length g random st) as Hl. fold sc2 L0 in Hl.
  pose proof (omap_lookup_seq line_color (take L0 (lines sc2))
                (drop L0 (lines sc2))) as H.
  rewrite take_drop, length_take, length_drop in H.
  replace (L0 `min` length (lines sc2))%nat with L0 in H by lia.
  by replace (length (lines sc2) - L0)%nat with (rendered_links g) in H by lia.
Qed.

End RenderedColours.

Lemma rendered_line_colors_witness :
  child_line_colors
    (graphGroup (renderGraph3D graph_abc_9 random_half state_abc))
  = map (colour_of graph_abc_9) (known_links graph_abc_9).
Proof.
  apply (rendered_line_colors graph_abc_9 random_half state_abc).
  reflexivity.
Defined.

Section FreshScene.
Context (g : graph_json) (random : nat → Q) (st : state).
Context (Hfont : loadedFont st = true).

Lemma render_nodes_position i :
  position_of (render_nodes g random st).1 (render_nodes g random st).2 i
  = origin.
Proof.
  unfold position_of.
  destruct ((render_nodes g random st).1 !! i) as [n|] eqn:Hn; [|done].
  destruct (render_nodes_lookup g random st i n Hn) as [-> Hi].
  rewrite render_nodes_meshes, lookup_app_r by lia.
  rewrite list_lookup_fmap.
  by destruct (nodes g !! _).
Qed.

(** X10: a render does not place anything: right after it, before any tick,
    the mesh of every node of the snapshot is white, labelled with the id of
    the node and at the origin, and the line of every link that has one joins
    the origin to the origin, with the colour of the link as colour and as
    recorded colour, opacity 0.9, and the two node objects and the effective
    weight in its [userData]. *)
Theorem render_starts_at_origin :
  (∀ k nj, nodes g !! k = Some nj →
     ∃ n m mo,
       graph_nodes (currentGraph (renderGraph3D g random st)) !! k = Some n
       ∧ mesh n = Some m
       ∧ ChildMesh m ∈ children (graphGroup (renderGraph3D g random st))
       ∧ meshes (graphGroup (renderGraph3D g random st)) !! m = Some mo
       ∧ mesh_id mo = id nj ∧ mesh_color mo = default_color
       ∧ mesh_position mo = origin)
  ∧ (∀ k l r,
       graph_links (currentGraph (renderGraph3D g random st)) !! k = Some l →
       line l = Some r →
       ∃ s t,
         sourceObj l = Some s ∧ targetObj l = Some t
         ∧ ChildLine r ∈ children (graphGroup (renderGraph3D g random st))
         ∧ lines (graphGroup (renderGraph3D g random st)) !! r
           = Some (new_line origin origin (colour_of g (json l))
                     (effective_weight (json l)) s t)).
Proof.
  rewrite renderGraph3D_loaded by done. simpl. split.
  - intros k nj Hk. pose proof (lookup_lt_Some _ _ _ Hk) as Hlt.
    destruct (render_mesh g random st k nj Hk)
      as (n & mo & Hn & _ & Hm & Hmo & Hid & _).
    eexists n, _, mo. do 2 (split; [done|]). split.
    { rewrite render_children. apply elem_of_app. left.
      apply list_elem_of_fmap. eexists. split; [done|].
      apply elem_of_seq. lia. }
    split; [done|]. split; [done|].
    destruct (cr_meshes _ _ _ _ _ _ _ (render_created g random st) _ _ Hmo)
      as (mo0 & Hmo0 & _ & Hc & Hp & _).
    rewrite render_nodes_meshes, lookup_app_r in Hmo0 by lia.
    replace (length (meshes (graphGroup st)) + k
             - length (meshes (graphGroup st)))%nat with k in Hmo0 by lia.
    rewrite list_lookup_fmap, Hk in Hmo0. injection Hmo0 as <-.
    by rewrite Hc, Hp.
  - intros k l r Hl Hr.
    destruct (render_links_lookup g random st k l Hl)
      as (lj & Hlj & Hj & _ & _ & Hn & Hres).
    destruct (resolved l); [|rewrite Hn in Hr; done].
    destruct Hres as (r' & s & t & Hr' & Hs & Ht & Hln); [done|].
    assert (r' = r) as -> by congruence. subst lj.
    exists s, t. do 2 (split; [done|]). split.
    { rewrite render_children. apply elem_of_app. right.
      apply list_elem_of_fmap. exists r. split; [done|].
      rewrite <- (render_line_refs g random st).
      apply list_elem_of_omap. exists l. split; [|done].
      by eapply list_elem_of_lookup_2. }
    by rewrite Hln, !render_nodes_position.
Qed.

End FreshScene.

Lemma render_starts_at_origin_witness :
  ∃ l r,
    graph_links (currentGraph (renderGraph3D graph_abc random_half state_font))
      !! 1%nat = Some l
    ∧ line l = Some r
    ∧ ∃ s t,
        sourceObj l = Some s ∧ targetObj l = Some t
        ∧ ChildLine r
          ∈ children
              (graphGroup (renderGraph3D graph_abc random_half state_font))
        ∧ lines (graphGroup (renderGraph3D graph_abc random_half state_font))
            !! r
          = Some (new_line origin origin (colour_of graph_abc (json l))
                    (effective_weight (json l)) s t).
Proof.
  eexists _, _. split; [vm_compute; reflexivity|]. split; [reflexivity|].
  apply (proj2 (render_starts_at_origin graph_abc random_half state_font
                  eq_refl) 1%nat);
    [vm_compute; reflexivity|reflexivity].
Defined.

(** ** What the handlers leave as it is *)

Section TickRel.
Context (RM : relation mesh_obj) (RL : relation line_obj).
Context `{!Reflexive RM, !Transitive RM, !Reflexive RL, !Transitive RL}.
Context (Hposition : ∀ p m, RM m (set_position p m)).
Context (Hupdate : ∀ p1 p2 c w ln, RL ln (update_line p1 p2 c w ln)).

Lemma tick_nodes_rel ns sc : scene_rel RM RL sc (tick_nodes ns sc).
Proof.
  unfold tick_nodes.
  apply (foldl_shape (scene_rel RM RL) (λ sc n, tick_node n sc)).
  intros a n. unfold tick_node. destruct (mesh n); [|reflexivity].
  by apply scene_rel_meshes.
Qed.

Lemma tick_lines_rel ns sc min max ls lns :
  Forall2 RL lns (foldl (λ lns l, tick_line ns sc min max l lns) lns ls).
Proof.
  apply (foldl_shape (Forall2 RL) (λ lns l, tick_line ns sc min max l lns)).
  intros a l. unfold tick_line. repeat case_match; try reflexivity.
  by apply Forall2_alter_refl.
Qed.

(** Whatever a change of position of a mesh and an update of a line preserve
    is preserved by a tick. *)
Lemma tick_rel coords st :
  wf (currentGraph st) (graphGroup st) →
  scene_rel RM RL (graphGroup st) (graphGroup (tick coords st)).
Proof.
  intros Hwf0.
  set (st1 := simulation_step coords st).
  assert (wf (currentGraph st1) (graphGroup st1)) as Hwf.
  { simpl. apply wf_move_nodes. by destruct (currentGraph st). }
  unfold tick. fold st1.
  destruct (simulation st1) as [sim|] eqn:Hsim.
  - rewrite (on_tick_spec st1 sim) by done. simpl.
    etransitivity;
      [apply (tick_nodes_rel
                (imap (move_node coords) (graph_nodes (currentGraph st))))|].
    repeat split; simpl; [reflexivity|].
    rewrite tick_nodes_lines. apply tick_lines_rel.
  - unfold on_tick. rewrite Hsim. reflexivity.
Qed.

End TickRel.

Lemma tick_fields coords st :
  wf (currentGraph st) (graphGroup st) →
  currentGraph (tick coords st)
  = Graph (imap (move_node coords) (graph_nodes (currentGraph st)))
      (graph_links (currentGraph st))
  ∧ simulation (tick coords st) = simulation st
  ∧ highlightedNode (tick coords st) = highlightedNode st
  ∧ tooltip_visible (tick coords st) = tooltip_visible st
  ∧ tooltip_innerHTML (tick coords st) = tooltip_innerHTML st
  ∧ loadedFont (tick coords st) = loadedFont st
  ∧ console (tick coords st) = console st.
Proof.
  intros Hwf0.
  set (st1 := simulation_step coords st).
  assert (wf (currentGraph st1) (graphGroup st1)) as Hwf.
  { simpl. apply wf_move_nodes. by destruct (currentGraph st). }
  unfold tick. fold st1.
  destruct (simulation st1) as [sim|] eqn:Hsim.
  - by rewrite (on_tick_spec st1 sim).
  - unfold on_tick. by rewrite Hsim.
Qed.

Lemma tick_static coords st :
  wf (currentGraph st) (graphGroup st) →
  scene_rel mesh_paint line_static (graphGroup st) (graphGroup (tick coords st)).
Proof. by apply (tick_rel mesh_paint line_static). Qed.

Lemma mousemove_static hit st :
  scene_rel mesh_static line_static (graphGroup st)
    (graphGroup (mousemove hit st)).
Proof. by apply (mousemove_rel mesh_static line_static). Qed.

Lemma scene_rel_impl (RM RM' : relation mesh_obj) (RL RL' : relation line_obj)
  sc sc' :
  (∀ a b, RM a b → RM' a b) → (∀ a b, RL a b → RL' a b) →
  scene_rel RM RL sc sc' → scene_rel RM' RL' sc sc'.
Proof.
  intros HM HL (? & ? & ?). repeat split; [done|..];
    by eapply Forall2_impl.
Qed.

Lemma mousemove_fields hit st :
  currentGraph (mousemove hit st) = currentGraph st
  ∧ simulation (mousemove hit st) = simulation st
  ∧ loadedFont (mousemove hit st) = loadedFont st
  ∧ console (mousemove hit st) = console st.
Proof. unfold mousemove. destruct hit; [case_decide|]; done. Qed.

(** ** The structure of the group *)

Section Pushed.
Context (ns : list node) (min max : jsnum) (sc0 : scene).
Context (Hinj : ∀ k1 k2 n1 n2 m, ns !! k1 = Some n1 → ns !! k2 = Some n2 →
                  mesh n1 = Some m → mesh n2 = Some m → k1 = k2).
Context (Hmesh : ∀ k n, ns !! k = Some n → is_Some (mesh n)).

Lemma push_to_node_links i r sc k n m mo :
  ns !! k = Some n → mesh n = Some m → is_Some (ns !! i) →
  meshes (push_to_node ns i r sc) !! m = Some mo →
  ∃ mo0, meshes sc !! m = Some mo0
         ∧ ∀ x, x ∈ mesh_links mo ↔ x ∈ mesh_links mo0 ∨ (x = r ∧ i = k).
Proof.
  intros Hk Hm [ni Hi] Hmo. unfold push_to_node in Hmo. rewrite Hi in Hmo.
  destruct (Hmesh i ni Hi) as [mi Hmi]. rewrite Hmi in Hmo. simpl in Hmo.
  destruct (decide (mi = m)) as [->|Hne].
  - assert (i = k) as -> by (by eapply Hinj).
    rewrite list_lookup_alter_eq in Hmo.
    destruct (meshes sc !! m) as [mo0|]; [|done]. injection Hmo as <-.
    exists mo0. split; [done|]. intros x. simpl. rewrite elem_of_app.
    rewrite list_elem_of_singleton. split.
    + intros [?| ->]; [by left|by right].
    + intros [?|[-> _]]; [by left|by right].
  - rewrite list_lookup_alter_ne in Hmo by done.
    exists mo. split; [done|]. intros x. split; [by left|].
    intros [?|[_ ->]]; [done|]. congruence.
Qed.

Lemma pushed_start : pushed ns sc0 [] sc0.
Proof.
  intros k n m mo Hk Hm Hmo. exists mo. split; [done|].
  intros r. split; [by left|]. intros [?|(l & Hl & _)]; [done|].
  by apply elem_of_nil in Hl.
Qed.

Lemma pushed_step done' l sc :
  line l = None →
  (∀ s, sourceObj l = Some s → is_Some (ns !! s)) →
  (∀ t, targetObj l = Some t → is_Some (ns !! t)) →
  pushed ns sc0 done' sc →
  pushed ns sc0 (done' ++ [(create_link ns min max l sc).1])
    (create_link ns min max l sc).2.
Proof.
  intros Hline Hsrc Htgt Hp k n m mo Hk Hm Hmo.
  destruct (resolved l) eqn:Hres.
  - destruct (resolved_true _ Hres) as (s & t & Hs & Ht).
    pose proof (Hsrc s Hs) as Hns. pose proof (Htgt t Ht) as Hnt.
    clear Hsrc Htgt.
    unfold create_link in *. rewrite Hs, Ht in *. unfold create_line in *.
    simpl in *.
    destruct (push_to_node_links _ _ _ k n m mo Hk Hm Hnt Hmo)
      as (mo2 & Hmo2 & H2).
    destruct (push_to_node_links _ _ _ k n m mo2 Hk Hm Hns Hmo2)
      as (mo1 & Hmo1 & H1).
    simpl in Hmo1. destruct (Hp k n m mo1 Hk Hm Hmo1) as (mo0 & Hmo0 & H0).
    exists mo0. split; [done|]. intros r. rewrite H2, H1, H0. split.
    + intros [[[?|(l0 & Hl0 & ? & ?)]|[-> ->]]|[-> ->]].
      * by left.
      * right. exists l0. split; [apply elem_of_app; by left|done].
      * right. eexists. split; [apply elem_of_app; right; left|].
        simpl. split; [done|by left].
      * right. eexists. split; [apply elem_of_app; right; left|].
        simpl. split; [done|by right].
    + intros [?|(l0 & Hl0 & Hr & He)]; [by left; left; left|].
      apply elem_of_app in Hl0 as [Hl0|Hl0].
      * left; left; right. by exists l0.
      * apply list_elem_of_singleton in Hl0 as ->. simpl in *.
        injection Hr as <-. destruct He as [He|He].
        -- left; right. split; [done|congruence].
        -- right. split; [done|congruence].
  - rewrite create_link_unresolved in * by done. simpl in *.
    destruct (Hp k n m mo Hk Hm Hmo) as (mo0 & Hmo0 & H0).
    exists mo0. split; [done|]. intros r. rewrite H0. split.
    + intros [?|(l0 & Hl0 & ? & ?)]; [by left|].
      right. exists l0. split; [apply elem_of_app; by left|done].
    + intros [?|(l0 & Hl0 & Hr & He)]; [by left|].
      apply elem_of_app in Hl0 as [Hl0|Hl0]; [right; by exists l0|].
      apply list_elem_of_singleton in Hl0 as ->. congruence.
Qed.

Lemma create_links_pushed ls :
  Forall (λ l, line l = None
               ∧ (∀ s, sourceObj l = Some s → is_Some (ns !! s))
               ∧ (∀ t, targetObj l = Some t → is_Some (ns !! t))) ls →
  pushed ns sc0 (for_each_link (create_link ns min max) ls sc0).1
    (for_each_link (create_link ns min max) ls sc0).2.
Proof.
  intros Hls.
  apply (for_each_link_inv (create_link ns min max)
           (λ done done' sc,
              Forall (λ l, line l = None
                           ∧ (∀ s, sourceObj l = Some s → is_Some (ns !! s))
                           ∧ (∀ t, targetObj l = Some t → is_Some (ns !! t)))
                done →
              pushed ns sc0 done' sc)); [| |done].
  - intros _. apply pushed_start.
  - intros done done' l sc IH Hall.
    apply Forall_app in Hall as [Hdone Hl].
    apply Forall_cons in Hl as [(Hline & Hsrc & Htgt) _].
    apply pushed_step; try done. by apply IH.
Qed.

End Pushed.

Section Structure.

Lemma structure_initial :
  structure (currentGraph initial_state) (graphGroup initial_state).
Proof.
  split; simpl; try done.
  - intros m. split; [intros H; by apply elem_of_nil in H|].
    by intros (k & n & H & _).
  - intros r. split; [intros H; by apply elem_of_nil in H|].
    by intros (k & l & H & _).
Qed.

Lemma structure_static g sc sc' :
  structure g sc → scene_rel mesh_static line_static sc sc' →
  structure g sc'.
Proof.
  intros [Hcm Hcl He Hi] (Hch & HM & HL). split.
  - intros m. rewrite Hch. apply Hcm.
  - intros r. rewrite Hch. apply Hcl.
  - intros k l r Hl Hr. destruct (He k l r Hl Hr)
      as (ln & s & t & Hln & Hs & Ht & Hus & Hut).
    destruct (Forall2_lookup_l _ _ _ _ _ HL Hln) as (ln' & Hln' & _ & E1 & E2).
    exists ln', s, t. repeat split; try done; congruence.
  - intros k n m mo' r Hk Hm Hmo'.
    destruct (Forall2_lookup_r _ _ _ _ _ HM Hmo') as (mo & Hmo & _ & E).
    rewrite E. by eapply Hi.
Qed.

Lemma structure_move coords ns ls sc :
  structure (Graph ns ls) sc →
  structure (Graph (imap (move_node coords) ns) ls) sc.
Proof.
  intros [Hcm Hcl He Hi]. simpl in *.
  assert (∀ k m, (∃ n, imap (move_node coords) ns !! k = Some n
                       ∧ mesh n = Some m)
                 ↔ (∃ n, ns !! k = Some n ∧ mesh n = Some m)) as Hlook.
  { intros k m. rewrite list_lookup_imap. split.
    - intros (n & H & Hm). destruct (ns !! k) as [n0|]; [|done].
      injection H as <-. by exists n0.
    - intros (n & -> & Hm). by eexists. }
  split; simpl; try done.
  - intros m. rewrite Hcm. split; intros (k & H); exists k; by apply Hlook.
  - intros k n m mo r Hk Hm Hmo.
    destruct (proj1 (Hlook k m)) as (n0 & Hn0 & Hm0); [by exists n|].
    by eapply Hi.
Qed.

Lemma render_structure g random st :
  structure (Graph (render_nodes g random st).1 (render_links g random st).1)
    (render_links g random st).2.
Proof.
  set (ns := (render_nodes g random st).1).
  set (ls := (render_links g random st).1).
  set (sc2 := (render_links g random st).2).
  assert (∀ r, (∃ k l, ls !! k = Some l ∧ line l = Some r)
               ↔ r ∈ seq (length (lines (graphGroup st))) (rendered_links g))
    as Hrefs.
  { intros r. rewrite <- (render_line_refs g random st).
    rewrite list_elem_of_omap. split.
    - intros (k & l & Hl & Hr). exists l. split; [|done].
      by eapply list_elem_of_lookup_2.
    - intros (l & Hl & Hr). apply list_elem_of_lookup in Hl as [k Hk].
      by exists k, l. }
  split; simpl.
  - intros m. unfold sc2. rewrite render_children, elem_of_app. split.
    + intros [H|H]; apply list_elem_of_fmap in H as (j & [=] & Hj). subst j.
      apply elem_of_seq in Hj.
      destruct (lookup_lt_is_Some_2 ns
                  (m - length (meshes (graphGroup st)))) as [n Hn].
      { unfold ns. rewrite render_nodes_length. lia. }
      exists (m - length (meshes (graphGroup st)))%nat, n. split; [done|].
      destruct (render_nodes_lookup g random st _ n Hn) as [-> _].
      f_equal. lia.
    + intros (k & n & Hn & Hm).
      destruct (render_nodes_lookup g random st k n Hn) as [Hm' Hk].
      left. apply list_elem_of_fmap. exists m. split; [done|].
      apply elem_of_seq. rewrite Hm' in Hm. injection Hm as <-. lia.
  - intros r. unfold sc2. rewrite render_children, elem_of_app, Hrefs. split.
    + intros [H|H]; apply list_elem_of_fmap in H as (j & [=] & Hj).
      by subst j.
    + intros H. right. apply list_elem_of_fmap. by exists r.
  - intros k l r Hl Hr.
    destruct (render_links_lookup g random st k l Hl)
      as (lj & _ & _ & _ & _ & Hn & Hres).
    destruct (resolved l); [|rewrite Hn in Hr; done].
    destruct Hres as (r' & s & t & Hr' & Hs & Ht & Hln); [done|].
    assert (r' = r) as -> by congruence.
    eexists _, s, t. by repeat split.
  - intros k n m mo r Hk Hm Hmo.
    assert (pushed ns (render_nodes g random st).2 ls sc2) as Hp.
    { unfold ls, sc2, render_links. apply create_links_pushed.
      - intros k1 k2 n1 n2 m0 H1 H2 E1 E2.
        apply render_nodes_lookup in H1 as [Hm1 _].
        apply render_nodes_lookup in H2 as [Hm2 _].
        rewrite Hm1 in E1. rewrite Hm2 in E2. simplify_eq. lia.
      - intros k0 n0 H0. apply render_nodes_lookup in H0 as [-> _].
        by eexists.
      - apply Forall_forall. intros l Hl.
        apply list_elem_of_fmap in Hl as (lj & -> & _). simpl.
        split; [done|]. split; intros i Hi;
          apply find_node_Some in Hi as (n0 & -> & _); by eexists. }
    destruct (Hp k n m mo Hk Hm Hmo) as (mo0 & Hmo0 & H0).
    destruct (render_nodes_lookup g random st k n Hk) as [Hm' Hlt].
    rewrite Hm' in Hm. injection Hm as <-.
    rewrite render_nodes_meshes, lookup_app_r in Hmo0 by lia.
    rewrite list_lookup_fmap in Hmo0.
    destruct (nodes g !! _); [|done]. injection Hmo0 as <-.
    rewrite H0. simpl. split.
    + intros [H|(l & Hl & ? & ?)]; [by apply elem_of_nil in H|].
      apply list_elem_of_lookup in Hl as [j Hj]. by exists j, l.
    + intros (j & l & Hj & ? & ?). right. exists l. split; [|done].
      by eapply list_elem_of_lookup_2.
Qed.

Lemma step_structure e st :
  wf (currentGraph st) (graphGroup st) →
  structure (currentGraph st) (graphGroup st) →
  structure (currentGraph (step e st)) (graphGroup (step e st)).
Proof.
  intros Hwf Hs.
  assert (∀ g random,
            structure (currentGraph (renderGraph3D g random st))
              (graphGroup (renderGraph3D g random st))) as Hrender.
  { intros g random. destruct (loadedFont st) eqn:Hfont.
    - rewrite renderGraph3D_loaded by done. simpl. apply render_structure.
    - unfold renderGraph3D. by rewrite Hfont. }
  destruct e as [|res random|res random|coords|coords|hit]; unfold step.
  - done.
  - destruct res; try done. unfold submitDream.
    destruct (renderGraph3D_throws _ _); apply Hrender.
  - destruct res; try done. unfold loadInitialGraph.
    destruct (renderGraph3D_throws _ _); apply Hrender.
  - destruct (tick_fields coords st Hwf) as (-> & _).
    eapply structure_static.
    + apply structure_move. by destruct (currentGraph st).
    + eapply scene_rel_impl; [| |apply (tick_static coords st Hwf)].
      * by intros a b [? _].
      * done.
  - simpl. apply structure_move. by destruct (currentGraph st).
  - destruct (mousemove_fields hit st) as (-> & _).
    eapply structure_static; [exact Hs|apply mousemove_static].
Qed.

Lemma reachable_structure st :
  reachable st → structure (currentGraph st) (graphGroup st).
Proof.
  induction 1 as [|e st Hst IH He]; [apply structure_initial|].
  apply step_structure; [by apply reachable_wf|done].
Qed.

End Structure.

(** X11: in every reachable state the group holds exactly the meshes of the
    nodes and the lines of the links of the current graph; the [userData] of
    the line of a link refers to the two endpoints of the link; and a line is
    in the incident-line list of the mesh of a node exactly when it is the
    line of a link that has the node as source or as target. *)
Theorem incident_lines (st : state) :
  reachable st →
  (∀ m, ChildMesh m ∈ children (graphGroup st) ↔
     ∃ k n, graph_nodes (currentGraph st) !! k = Some n ∧ mesh n = Some m)
  ∧ (∀ r, ChildLine r ∈ children (graphGroup st) ↔
       ∃ j l, graph_links (currentGraph st) !! j = Some l ∧ line l = Some r)
  ∧ (∀ j l r,
       graph_links (currentGraph st) !! j = Some l → line l = Some r →
       ∃ ln s t, lines (graphGroup st) !! r = Some ln
                 ∧ sourceObj l = Some s ∧ targetObj l = Some t
                 ∧ ud_source ln = s ∧ ud_target ln = t)
  ∧ (∀ k n m mo r,
       graph_nodes (currentGraph st) !! k = Some n → mesh n = Some m →
       meshes (graphGroup st) !! m = Some mo →
       (r ∈ mesh_links mo ↔
        ∃ j l, graph_links (currentGraph st) !! j = Some l
               ∧ line l = Some r
               ∧ (sourceObj l = Some k ∨ targetObj l = Some k))).
Proof.
  intros Hreach. by destruct (reachable_structure st Hreach).
Qed.

Lemma incident_lines_witness :
  ChildLine 0 ∈ children (graphGroup state_hover_tick) ↔
  ∃ j l, graph_links (currentGraph state_hover_tick) !! j = Some l
         ∧ line l = Some 0%nat.
Proof.
  destruct (incident_lines state_hover_tick reachable_hover_tick)
    as (_ & H & _).
  apply (H 0%nat).
Defined.

(** X12: hovering a node highlights the lines of the links of that node and
    no other: in a reachable state, after the pointer has met the mesh of the
    [k]-th node, which was not the highlighted one, the line of a link has
    the highlight colour exactly when the link has the [k]-th node as source
    or as target. *)
Theorem hover_highlights_links_of_node (st : state) (k obj : nat) (n : node) :
  reachable st →
  graph_nodes (currentGraph st) !! k = Some n → mesh n = Some obj →
  highlightedNode st ≠ Some obj →
  enabled (MouseMove (Some obj)) st = true
  ∧ ∀ j l r,
      graph_links (currentGraph (mousemove (Some obj) st)) !! j = Some l →
      line l = Some r →
      ∃ ln, lines (graphGroup (mousemove (Some obj) st)) !! r = Some ln
            ∧ (line_color ln = highlight_color
               ↔ sourceObj l = Some k ∨ targetObj l = Some k).
Proof.
  intros Hreach Hk Hm Hne.
  pose proof (reachable_wf st Hreach) as Hwf.
  destruct (reachable_structure st Hreach) as [Hcm Hcl He Hi].
  assert (ChildMesh obj ∈ children (graphGroup st)) as Hobj
    by (apply Hcm; by exists k, n).
  split.
  { simpl. apply bool_decide_eq_true. unfold node_meshes.
    by apply list_elem_of_filter. }
  intros j l r Hl Hr. rewrite mousemove_graph in Hl.
  unfold mousemove. rewrite decide_False by done.
  set (st1 := set_tooltip true (userData_id (graphGroup st) obj) st).
  destruct (highlight_exactly obj st1 Hwf Hobj) as ((mo' & Hmo' & _ & Hyes) & _ & Hno).
  assert (children (graphGroup (highlight obj (resetHighlights st1)))
          = children (graphGroup st)) as Hch.
  { destruct (mousemove_static (Some obj) st) as [H _].
    unfold mousemove in H. by rewrite decide_False in H. }
  assert (∃ mo, meshes (graphGroup st) !! obj = Some mo
                ∧ mesh_links mo' = mesh_links mo) as (mo & Hmo & Hlinks).
  { destruct (mousemove_static (Some obj) st) as (_ & HM & _).
    unfold mousemove in HM. rewrite decide_False in HM by done.
    destruct (Forall2_lookup_r _ _ _ _ _ HM Hmo') as (mo & ? & _ & ?).
    by exists mo. }
  assert (r ∈ mesh_links mo' ↔ sourceObj l = Some k ∨ targetObj l = Some k)
    as Hin.
  { rewrite Hlinks, (Hi k n obj mo r Hk Hm Hmo). split.
    - intros (j' & l' & Hl' & Hr' & H).
      assert (j' = j) as -> by (by eapply (wf_line_inj _ _ Hwf)).
      by assert (l' = l) as -> by congruence.
    - intros H. by exists j, l. }
  destruct (decide (r ∈ mesh_links mo')) as [Hr'|Hr'].
  - destruct (Hyes r Hr') as (ln & Hln & Hc). exists ln. split; [done|].
    split; [intros _; by apply Hin|done].
  - destruct (Hno r) as (ln & Hln & _ & Hc & _).
    + rewrite Hch. apply Hcl. by exists j, l.
    + unfold userData_links. by rewrite Hmo'.
    + exists ln. split; [done|]. split; [done|]. intros H. by apply Hin in H.
Qed.

Lemma hover_highlights_links_of_node_witness :
  enabled (MouseMove (Some 1%nat)) state_abc = true
  ∧ ∀ j l r,
      graph_links (currentGraph (mousemove (Some 1%nat) state_abc)) !! j
      = Some l →
      line l = Some r →
      ∃ ln, lines (graphGroup (mousemove (Some 1%nat) state_abc)) !! r = Some ln
            ∧ (line_color ln = highlight_color
               ↔ sourceObj l = Some 1%nat ∨ targetObj l = Some 1%nat).
Proof.
  eapply (hover_highlights_links_of_node state_abc 1 1 _ reachable_abc);
    [vm_compute; reflexivity|reflexivity|discriminate].
Defined.

(** X13: a link is bound to the first node of the snapshot that has the id:
    after a render the source (or the target) of a link object is the node at
    the least position whose id is the [source] (the [target]) of the link,
    and is unset exactly when no node of the snapshot has that id. *)
Theorem link_binds_first_node (g : graph_json) (random : nat → Q)
  (st : state) :
  loadedFont st = true →
  ∀ j l,
    graph_links (currentGraph (renderGraph3D g random st)) !! j = Some l →
    (∀ s, sourceObj l = Some s ↔
       (∃ nj, nodes g !! s = Some nj ∧ id nj = source (json l))
       ∧ ∀ i ni, nodes g !! i = Some ni → (i < s)%nat →
                 id ni ≠ source (json l))
    ∧ (∀ t, targetObj l = Some t ↔
         (∃ nj, nodes g !! t = Some nj ∧ id nj = target (json l))
         ∧ ∀ i ni, nodes g !! i = Some ni → (i < t)%nat →
                   id ni ≠ target (json l))
    ∧ (sourceObj l = None ↔ source (json l) ∉ map id (nodes g))
    ∧ (targetObj l = None ↔ target (json l) ∉ map id (nodes g)).
Proof.
  intros Hfont j l Hl. rewrite renderGraph3D_loaded in Hl by done.
  simpl in Hl.
  destruct (render_links_lookup g random st j l Hl)
    as (lj & _ & -> & Hs & Ht & _).
  rewrite Hs, Ht. clear Hs Ht Hl.
  pose proof (render_node_ids g random st) as Hids.
  set (ns := (render_nodes g random st).1) in *.
  assert (∀ i, node_id <$> ns !! i = id <$> nodes g !! i) as Hid.
  { intros i. rewrite <- !list_lookup_fmap.
    exact (f_equal (λ l, l !! i) Hids). }
  assert (∀ x s, find_node ns x = Some s ↔
            (∃ nj, nodes g !! s = Some nj ∧ id nj = x)
            ∧ ∀ i ni, nodes g !! i = Some ni → (i < s)%nat → id ni ≠ x)
    as Hfind.
  { intros x s. unfold find_node. split.
    - intros H. destruct (list_find _ ns) as [[s' n]|] eqn:E; [|done].
      injection H as ->. apply list_find_Some in E as (Hn & Hx & Hfirst).
      split.
      + specialize (Hid s). rewrite Hn in Hid. simpl in Hid.
        destruct (nodes g !! s) as [nj|]; [|done]. exists nj.
        split; [done|]. simpl in Hid. congruence.
      + intros i ni Hi Hlt Hx'. specialize (Hid i). rewrite Hi in Hid.
        destruct (ns !! i) as [n'|] eqn:En; [|done]. simpl in Hid.
        apply (Hfirst i n' En Hlt). congruence.
    - intros [(nj & Hnj & Hx) Hfirst].
      specialize (Hid s) as Hs. rewrite Hnj in Hs.
      destruct (ns !! s) as [n|] eqn:En; [|done]. simpl in Hs.
      assert (list_find (λ n, node_id n = x) ns = Some (s, n)) as ->; [|done].
      apply list_find_Some. split; [done|]. split; [congruence|].
      intros i n' Hi Hlt Hx'. specialize (Hid i). rewrite Hi in Hid.
      destruct (nodes g !! i) as [ni|] eqn:Eni; [|done]. simpl in Hid.
      apply (Hfirst i ni Eni Hlt). congruence. }
  assert (∀ x, find_node ns x = None ↔ x ∉ map id (nodes g)) as Hnone.
  { intros x. pose proof (render_find_is_Some g random st x) as H.
    fold ns in H. rewrite <- H. split.
    - intros -> [? ?]. done.
    - intros Hn. destruct (find_node ns x) eqn:E; [|done].
      exfalso. apply Hn. by eexists. }
  split; [intros s; apply Hfind|]. split; [intros t; apply Hfind|].
  split; apply Hnone.
Qed.

Lemma link_binds_first_node_witness :
  ∃ l,
    graph_links (currentGraph (renderGraph3D graph_abc random_half state_font))
      !! 2%nat = Some l
    ∧ (targetObj l = None ↔ target (json l) ∉ map id (nodes graph_abc)).
Proof.
  eexists. split; [vm_compute; reflexivity|].
  destruct (link_binds_first_node graph_abc random_half state_font eq_refl
              2%nat _ eq_refl) as (_ & _ & _ & H).
  exact H.
Defined.

(** ** The colours of the lines *)

Section Coloured.

Lemma render_links_json g random st :
  map json (render_links g random st).1 = links g.
Proof.
  apply list_eq. intros i. rewrite list_lookup_fmap.
  destruct ((render_links g random st).1 !! i) as [l|] eqn:Hl; simpl.
  - destruct (render_links_lookup g random st i l Hl) as (lj & -> & -> & _).
    done.
  - apply lookup_ge_None in Hl. rewrite render_links_length in Hl.
    symmetry. by apply lookup_ge_None.
Qed.

Lemma render_coloured g random st :
  loadedFont st = true → coloured (renderGraph3D g random st).
Proof.
  intros Hfont. rewrite renderGraph3D_loaded by done.
  split; unfold current_weights; simpl; rewrite render_links_json.
  - intros k l r Hl Hr.
    destruct (render_links_lookup g random st k l Hl)
      as (lj & Hlj & Hj & _ & _ & Hn & Hres).
    destruct (resolved l); [|rewrite Hn in Hr; done].
    destruct Hres as (r' & s & t & Hr' & _ & _ & Hln); [done|].
    assert (r' = r) as -> by congruence. subst lj.
    destruct (weight_between g (json l)) as (mn & mx & Hmn & Hmx & Hw);
      [by eapply list_elem_of_lookup_2|].
    eexists _, mn, mx. split; [exact Hln|]. done.
  - intros sim Hsim Hrun. destruct (forceLink_throws g).
    + destruct (simulation st); [|done]. injection Hsim as <-. done.
    + by injection Hsim as <-.
Qed.

Lemma coloured_static st st' :
  graph_links (currentGraph st') = graph_links (currentGraph st) →
  simulation st' = simulation st →
  scene_rel mesh_static line_static (graphGroup st) (graphGroup st') →
  coloured st → coloured st'.
Proof.
  intros Hg Hsim (_ & _ & HL) [Hc Hr].
  split; unfold current_weights; rewrite ?Hg, ?Hsim; [|done].
  intros k l r Hl Hr'.
  destruct (Hc k l r Hl Hr') as (ln & mn & mx & Hln & ? & ? & ? & Ho).
  destruct (Forall2_lookup_l _ _ _ _ _ HL Hln) as (ln' & Hln' & Ho' & _).
  exists ln', mn, mx. do 4 (split; [done|]). by rewrite Ho'.
Qed.

Lemma step_coloured e st :
  wf (currentGraph st) (graphGroup st) →
  coloured st → coloured (step e st).
Proof.
  intros Hwf Hc.
  assert (∀ g random, coloured (renderGraph3D g random st)) as Hrender.
  { intros g random. destruct (loadedFont st) eqn:Hfont.
    - by apply render_coloured.
    - unfold renderGraph3D. rewrite Hfont. by destruct Hc. }
  assert (∀ e st0, coloured st0 → coloured (log e st0)) as Hlog
    by (by intros ? ? []).
  destruct e as [|res random|res random|coords|coords|hit]; unfold step.
  - by destruct Hc.
  - destruct res; try (by apply Hlog). unfold submitDream.
    destruct (renderGraph3D_throws _ _); [apply Hlog|]; apply Hrender.
  - destruct res; try (by apply Hlog). unfold loadInitialGraph.
    destruct (renderGraph3D_throws _ _); [apply Hlog|]; apply Hrender.
  - destruct (tick_fields coords st Hwf) as (Hg & Hsim & _).
    eapply coloured_static; [by rewrite Hg|done| |done].
    eapply scene_rel_impl; [| |apply (tick_static coords st Hwf)].
    + by intros a b [? _].
    + done.
  - by destruct Hc.
  - destruct (mousemove_fields hit st) as (Hg & Hsim & _).
    eapply coloured_static; [by rewrite Hg|done|apply mousemove_static|done].
Qed.

Lemma reachable_coloured st : reachable st → coloured st.
Proof.
  induction 1 as [|e st Hst IH He]; [by split|].
  apply step_coloured; [by apply reachable_wf|done].
Qed.

Lemma weight_color_orig ln c :
  originalColor ln = Some c → weight_color c →
  orig_or_gray ln ≠ highlight_color ∧ c ≠ highlight_color.
Proof.
  intros Hc Hg. unfold orig_or_gray. rewrite Hc.
  destruct (c =? 0)%Z eqn:E; (split; [|intros ->; vm_compute in Hg; done]);
    [done|intros ->; vm_compute in Hg; done].
Qed.

End Coloured.

(** X14: a tick takes the highlight off the lines and leaves it on the node.
    In a reachable state whose simulation makes steps, after a tick the line
    of every
    link has the colour of the weight of the link between the bounds of the
    simulation, which is the colour recorded when the line was created and
    is never the highlight colour, and carries that weight; every mesh has
    the colour it had, and the highlighted node and the tooltip are as they
    were. *)
Theorem tick_restores_line_colours (coords : nat → vec3) (st : state) :
  reachable st → enabled (Tick coords) st = true →
  (∀ k l r,
     graph_links (currentGraph (tick coords st)) !! k = Some l →
     line l = Some r →
     ∃ sim ln,
       simulation st = Some sim
       ∧ lines (graphGroup (tick coords st)) !! r = Some ln
       ∧ line_color ln
         = getColorForWeight (effective_weight (json l))
             (minWeight sim) (maxWeight sim)
       ∧ originalColor ln = Some (line_color ln)
       ∧ line_color ln ≠ highlight_color
       ∧ ud_weight ln = effective_weight (json l))
  ∧ (∀ m mo, meshes (graphGroup st) !! m = Some mo →
       ∃ mo', meshes (graphGroup (tick coords st)) !! m = Some mo'
              ∧ mesh_color mo' = mesh_color mo)
  ∧ highlightedNode (tick coords st) = highlightedNode st
  ∧ tooltip_visible (tick coords st) = tooltip_visible st
  ∧ tooltip_innerHTML (tick coords st) = tooltip_innerHTML st.
Proof.
  intros Hreach Hen.
  pose proof (reachable_wf st Hreach) as Hwf0.
  destruct (reachable_coloured st Hreach) as [Hc Hrun].
  pose proof (reachable_structure st Hreach) as Hs.
  destruct (tick_fields coords st Hwf0) as (Hg & _ & Hh & Hv & Hi & _).
  simpl in Hen. unfold running in Hen.
  destruct (simulation st) as [sim|] eqn:Hsim; [|done].
  destruct (Hrun sim eq_refl) as [Hmin Hmax]; [by destruct (stopped sim)|].
  split; [|split; [|done]].
  - intros k l r Hl Hr. rewrite Hg in Hl. simpl in Hl.
    destruct (Hc k l r Hl Hr) as (ln & mn & mx & Hln & Hmn & Hmx & Hw & Ho).
    destruct (st_ends _ _ Hs k l r Hl Hr) as (ln0 & s & t & _ & Hso & Hta & _).
    set (st1 := simulation_step coords st).
    assert (wf (currentGraph st1) (graphGroup st1)) as Hwf.
    { simpl. apply wf_move_nodes. by destruct (currentGraph st). }
    unfold tick. fold st1. rewrite (on_tick_spec st1 sim) by done. simpl.
    exists sim. eexists. split; [done|]. split.
    { apply (tick_lines_lookup _ _ _ _ _ _ k l s t r ln); try done.
      - intros k1 k2 l1 l2 r0. apply (wf_line_inj _ _ Hwf0).
      - by rewrite tick_nodes_lines. }
    simpl. split; [done|]. rewrite Hmin, Hmax. split; [done|].
    split; [|done].
    apply (weight_color_orig ln); [done|].
    rewrite Hmn, Hmx. by apply getColorForWeight_weight_color.
  - intros m mo Hmo.
    destruct (tick_static coords st Hwf0) as (_ & HM & _).
    destruct (Forall2_lookup_l _ _ _ _ _ HM Hmo) as (mo' & Hmo' & _ & ?).
    by exists mo'.
Qed.

Lemma tick_restores_line_colours_witness :
  ∃ l r,
    graph_links (currentGraph (tick coords_k (mousemove (Some 1%nat) state_1_5)))
      !! 0%nat = Some l
    ∧ line l = Some r
    ∧ ∃ sim ln,
        simulation (mousemove (Some 1%nat) state_1_5) = Some sim
        ∧ lines (graphGroup (tick coords_k (mousemove (Some 1%nat) state_1_5)))
            !! r = Some ln
        ∧ line_color ln
          = getColorForWeight (effective_weight (json l))
              (minWeight sim) (maxWeight sim)
        ∧ originalColor ln = Some (line_color ln)
        ∧ line_color ln ≠ highlight_color
        ∧ ud_weight ln = effective_weight (json l).
Proof.
  eexists _, _. split; [vm_compute; reflexivity|]. split; [reflexivity|].
  apply (proj1 (tick_restores_line_colours coords_k
                  (mousemove (Some 1%nat) state_1_5)
                  (reachable_step (MouseMove (Some 1%nat)) state_1_5
                     reachable_1_5 eq_refl)
                  eq_refl) 0%nat);
    [vm_compute; reflexivity|reflexivity].
Defined.

(** X15: when the pointer leaves the nodes, the line of every link gets the
    colour recorded for it when it was created, which is the colour of the
    weight of the link between the least and the greatest weight of the
    links of the current graph, or the gray of the fallback where that
    colour is 0; it is not the highlight colour, and the opacity is 0.9. *)
Theorem leave_restores_line_colours (st : state) :
  reachable st →
  ∀ k l r,
    graph_links (currentGraph (mousemove None st)) !! k = Some l →
    line l = Some r →
    ∃ ln,
      lines (graphGroup (mousemove None st)) !! r = Some ln
      ∧ originalColor ln
        = Some (getColorForWeight (effective_weight (json l))
                  (Math_min (current_weights st))
                  (Math_max (current_weights st)))
      ∧ line_color ln = orig_or_gray ln
      ∧ line_color ln ≠ highlight_color
      ∧ opacity ln = (9 # 10)%Q.
Proof.
  intros Hreach k l r Hl Hr.
  destruct (reachable_coloured st Hreach) as [Hc _].
  pose proof (reachable_structure st Hreach) as Hs.
  simpl in Hl.
  destruct (Hc k l r Hl Hr) as (ln & mn & mx & Hln & Hmn & Hmx & Hw & Ho).
  assert (ChildLine r ∈ children (graphGroup st)) as Hin
    by (apply (st_child_line _ _ Hs); by exists k, l).
  exists (reset_line ln). split.
  { simpl. unfold reset_scene. rewrite reset_children_line_in by done.
    by rewrite Hln. }
  split; [done|]. split; [done|]. split; [|done]. simpl.
  apply (weight_color_orig ln _ Ho).
  rewrite Hmn, Hmx. by apply getColorForWeight_weight_color.
Qed.

Lemma leave_restores_line_colours_witness :
  ∃ l r,
    graph_links (currentGraph (mousemove None state_hover_tick)) !! 0%nat
    = Some l
    ∧ line l = Some r
    ∧ ∃ ln,
        lines (graphGroup (mousemove None state_hover_tick)) !! r = Some ln
        ∧ originalColor ln
          = Some (getColorForWeight (effective_weight (json l))
                    (Math_min (current_weights state_hover_tick))
                    (Math_max (current_weights state_hover_tick)))
        ∧ line_color ln = orig_or_gray ln
        ∧ line_color ln ≠ highlight_color
        ∧ opacity ln = (9 # 10)%Q.
Proof.
  eexists _, _. split; [vm_compute; reflexivity|]. split; [reflexivity|].
  apply (leave_restores_line_colours state_hover_tick reachable_hover_tick
           0%nat);
    [vm_compute; reflexivity|reflexivity].
Defined.

(** ** The highlighted node and the tooltip *)

Section Lit.

Lemma lit_fields st st' :
  graphGroup st' = graphGroup st →
  highlightedNode st' = highlightedNode st →
  tooltip_visible st' = tooltip_visible st →
  tooltip_innerHTML st' = tooltip_innerHTML st →
  lit st → lit st'.
Proof.
  intros Hg Hh Hv Hi [H1 H2 H3]. split; rewrite ?Hg, ?Hh, ?Hv, ?Hi; done.
Qed.

Lemma render_old_mesh g random st h :
  (h < length (meshes (graphGroup st)))%nat →
  userData_id (render_links g random st).2 h = userData_id (graphGroup st) h.
Proof.
  intros Hh. unfold userData_id.
  pose proof (render_meshes_length g random st) as Hlen.
  destruct (lookup_lt_is_Some_2 (meshes (render_links g random st).2) h)
    as [mo Hmo]; [lia|].
  rewrite Hmo.
  destruct (cr_meshes _ _ _ _ _ _ _ (render_created g random st) _ _ Hmo)
    as (mo0 & Hmo0 & -> & _).
  rewrite render_nodes_meshes, lookup_app_l in Hmo0 by done.
  by rewrite Hmo0.
Qed.

Lemma render_new_mesh g random st m :
  ChildMesh m ∈ children (render_links g random st).2 →
  (length (meshes (graphGroup st)) ≤ m)%nat
  ∧ ∃ mo, meshes (render_links g random st).2 !! m = Some mo
          ∧ mesh_color mo = default_color.
Proof.
  intros Hm. rewrite render_children in Hm.
  apply elem_of_app in Hm as [Hm|Hm];
    apply list_elem_of_fmap in Hm as (j & [=] & Hj). subst j.
  apply elem_of_seq in Hj. split; [lia|].
  pose proof (render_meshes_length g random st) as Hlen.
  destruct (lookup_lt_is_Some_2 (meshes (render_links g random st).2) m)
    as [mo Hmo]; [lia|].
  exists mo. split; [done|].
  destruct (cr_meshes _ _ _ _ _ _ _ (render_created g random st) _ _ Hmo)
    as (mo0 & Hmo0 & _ & -> & _).
  rewrite render_nodes_meshes, lookup_app_r in Hmo0 by lia.
  rewrite list_lookup_fmap in Hmo0.
  destruct (nodes g !! _); [|done]. by injection Hmo0 as <-.
Qed.

Lemma render_lit g random st :
  loadedFont st = true → lit st → lit (renderGraph3D g random st).
Proof.
  intros Hfont [Hlive Hnone Hcol]. rewrite renderGraph3D_loaded by done.
  split; simpl.
  - intros h Hh. destruct (Hlive h Hh) as (Hlt & Hv & Hi).
    rewrite render_meshes_length. split; [lia|]. split; [done|].
    by rewrite render_old_mesh.
  - done.
  - intros m Hm. destruct (render_new_mesh g random st m Hm) as (Hle & mo & Hmo & Hc).
    exists mo. split; [done|]. rewrite decide_False; [done|].
    intros Hh. destruct (Hlive m Hh) as (Hlt & _). lia.
Qed.

Lemma tick_lit coords st :
  wf (currentGraph st) (graphGroup st) → lit st → lit (tick coords st).
Proof.
  intros Hwf [Hlive Hnone Hcol].
  destruct (tick_fields coords st Hwf) as (_ & _ & Hh & Hv & Hi & _).
  destruct (tick_static coords st Hwf) as (Hch & HM & _).
  pose proof (Forall2_length _ _ _ HM) as Hlen.
  split; rewrite ?Hh, ?Hv, ?Hi, ?Hch.
  - intros h Hh'. destruct (Hlive h Hh') as (Hlt & ? & ->).
    split; [lia|]. split; [done|]. unfold userData_id.
    destruct (lookup_lt_is_Some_2 _ _ Hlt) as [mo Hmo].
    destruct (Forall2_lookup_l _ _ _ _ _ HM Hmo) as (mo' & -> & [-> _] & _).
    by rewrite Hmo.
  - done.
  - intros m Hm. destruct (Hcol m Hm) as (mo & Hmo & Hc).
    destruct (Forall2_lookup_l _ _ _ _ _ HM Hmo) as (mo' & Hmo' & _ & Hc').
    exists mo'. split; [done|]. by rewrite Hc'.
Qed.

Lemma mousemove_id hit st obj :
  userData_id (graphGroup (mousemove hit st)) obj
  = userData_id (graphGroup st) obj.
Proof.
  destruct (mousemove_static hit st) as (_ & HM & _).
  pose proof (Forall2_length _ _ _ HM) as Hlen.
  unfold userData_id.
  destruct (meshes (graphGroup st) !! obj) as [mo|] eqn:Hmo.
  - by destruct (Forall2_lookup_l _ _ _ _ _ HM Hmo) as (mo' & -> & -> & _).
  - apply lookup_ge_None in Hmo.
    rewrite (proj2 (lookup_ge_None _ _)); [done|lia].
Qed.

Lemma mousemove_lit hit st :
  wf (currentGraph st) (graphGroup st) →
  enabled (MouseMove hit) st = true →
  lit st → lit (mousemove hit st).
Proof.
  intros Hwf He [Hlive Hnone Hcol]. destruct hit as [obj|].
  - simpl in He. apply bool_decide_eq_true in He.
    apply list_elem_of_filter in He as [_ Hobj].
    pose proof (mousemove_id (Some obj) st obj) as Hid.
    unfold mousemove in *.
    destruct (decide (highlightedNode
                        (set_tooltip true (userData_id (graphGroup st) obj) st)
                      = Some obj)) as [Hh|Hh].
    + simpl in Hh. split; simpl.
      * intros h Hh'. destruct (Hlive h Hh') as (? & _ & _).
        do 2 (split; [done|]). congruence.
      * by rewrite Hh.
      * done.
    + set (st1 := set_tooltip true (userData_id (graphGroup st) obj) st) in *.
      destruct (highlight_exactly obj st1 Hwf Hobj)
        as ((mo & Hmo & Hc & _) & Hothers & _).
      split.
      * intros h [= <-]. split; [by eapply lookup_lt_Some|]. split; [done|].
        by rewrite Hid.
      * done.
      * intros m Hm. destruct (decide (m = obj)) as [->|Hne].
        -- exists mo. split; [done|]. by rewrite decide_True.
        -- destruct (Hothers m Hm Hne) as (mo' & ? & ?). exists mo'.
           split; [done|]. rewrite decide_False; [done|]. simpl. congruence.
  - unfold mousemove.
    destruct (reset_scene_reset _ _ Hwf) as [Hm _].
    split; simpl; [done|done|].
    intros m Hin. destruct (Hm m Hin) as (mo & ? & ?). by exists mo.
Qed.

Lemma step_lit e st :
  wf (currentGraph st) (graphGroup st) → enabled e st = true →
  lit st → lit (step e st).
Proof.
  intros Hwf He Hl.
  assert (∀ g random, lit (renderGraph3D g random st)) as Hrender.
  { intros g random. destruct (loadedFont st) eqn:Hfont.
    - by apply render_lit.
    - unfold renderGraph3D. rewrite Hfont. simpl. by apply (lit_fields st). }
  destruct e as [|res random|res random|coords|coords|hit]; unfold step.
  - by apply (lit_fields st).
  - destruct res; try (by apply (lit_fields st)). unfold submitDream.
    destruct (renderGraph3D_throws _ _); [|apply Hrender].
    by apply (lit_fields (renderGraph3D (response_graph data) random st)).
  - destruct res; try (by apply (lit_fields st)). unfold loadInitialGraph.
    destruct (renderGraph3D_throws _ _); [|apply Hrender].
    by apply (lit_fields (renderGraph3D data random st)).
  - by apply tick_lit.
  - by apply (lit_fields st).
  - by apply mousemove_lit.
Qed.

Lemma reachable_lit st : reachable st → lit st.
Proof.
  induction 1 as [|e st Hst IH He].
  - split; simpl; [done|done|]. intros m Hm. by apply elem_of_nil in Hm.
  - apply step_lit; [by apply reachable_wf|done|done].
Qed.

End Lit.

(** X16: at most one node is highlighted.  In every reachable state a node
    mesh of the group has the highlight colour when it is the highlighted
    node and the default colour otherwise; the tooltip is visible exactly
    when there is a highlighted node, and then shows the id of that node. *)
Theorem one_highlighted_node (st : state) :
  reachable st →
  (∀ m, ChildMesh m ∈ children (graphGroup st) →
     ∃ mo, meshes (graphGroup st) !! m = Some mo
           ∧ (highlightedNode st = Some m → mesh_color mo = highlight_color)
           ∧ (highlightedNode st ≠ Some m → mesh_color mo = default_color))
  ∧ (tooltip_visible st = true ↔ is_Some (highlightedNode st))
  ∧ (∀ h, highlightedNode st = Some h →
       ∃ mo, meshes (graphGroup st) !! h = Some mo
             ∧ tooltip_innerHTML st = mesh_id mo).
Proof.
  intros Hreach. destruct (reachable_lit st Hreach) as [Hlive Hnone Hcol].
  split; [|split].
  - intros m Hm. destruct (Hcol m Hm) as (mo & Hmo & Hc). exists mo.
    split; [done|]. rewrite Hc. split; intros H.
    + by rewrite decide_True.
    + by rewrite decide_False.
  - split.
    + intros Hv. destruct (highlightedNode st) eqn:E; [by eexists|].
      rewrite Hnone in Hv; done.
    + intros [h Hh]. by destruct (Hlive h Hh) as (_ & ? & _).
  - intros h Hh. destruct (Hlive h Hh) as (Hlt & _ & ->).
    destruct (lookup_lt_is_Some_2 _ _ Hlt) as [mo Hmo]. exists mo.
    split; [done|]. unfold userData_id. by rewrite Hmo.
Qed.

Lemma one_highlighted_node_witness :
  tooltip_visible state_hover_tick = true
  ↔ is_Some (highlightedNode state_hover_tick).
Proof.
  apply (one_highlighted_node state_hover_tick). apply reachable_hover_tick.
Defined.

(** X17: a render does not end the highlight.  When a graph is rendered
    while a node is highlighted, the highlighted node stays the mesh it was
    and the tooltip stays visible with the id of that mesh, although the mesh
    is no longer in the group and is the mesh of no node of the new graph:
    every node mesh of the group has the default colour. *)
Theorem render_keeps_stale_highlight (g : graph_json) (random : nat → Q)
  (st : state) (h : nat) :
  reachable st → loadedFont st = true → highlightedNode st = Some h →
  let st' := renderGraph3D g random st in
  highlightedNode st' = Some h
  ∧ tooltip_visible st' = true
  ∧ tooltip_innerHTML st' = userData_id (graphGroup st') h
  ∧ (ChildMesh h ∉ children (graphGroup st'))
  ∧ (∀ k n, graph_nodes (currentGraph st') !! k = Some n → mesh n ≠ Some h)
  ∧ (∀ m, ChildMesh m ∈ children (graphGroup st') →
       ∃ mo, meshes (graphGroup st') !! m = Some mo
             ∧ mesh_color mo = default_color).
Proof.
  intros Hreach Hfont Hh st'.
  destruct (reachable_lit st Hreach) as [Hlive _ _].
  destruct (Hlive h Hh) as (Hlt & Hv & Hi).
  unfold st'. rewrite renderGraph3D_loaded by done. simpl.
  do 2 (split; [done|]). split; [by rewrite render_old_mesh|].
  split; [|split].
  - intros Hin. destruct (render_new_mesh g random st h Hin) as [? _]. lia.
  - intros k n Hn Hm.
    destruct (render_nodes_lookup g random st k n Hn) as [Hm' _].
    rewrite Hm' in Hm. injection Hm as <-. lia.
  - intros m Hm. by destruct (render_new_mesh g random st m Hm) as [_ ?].
Qed.

Lemma render_keeps_stale_highlight_witness :
  highlightedNode (renderGraph3D graph_1_5 random_half state_hover_tick)
  = Some 1%nat
  ∧ tooltip_visible (renderGraph3D graph_1_5 random_half state_hover_tick)
    = true
  ∧ tooltip_innerHTML (renderGraph3D graph_1_5 random_half state_hover_tick)
    = userData_id
        (graphGroup (renderGraph3D graph_1_5 random_half state_hover_tick))
        1%nat
  ∧ (ChildMesh 1%nat
     ∉ children
         (graphGroup (renderGraph3D graph_1_5 random_half state_hover_tick))).
Proof.
  destruct (render_keeps_stale_highlight graph_1_5 random_half state_hover_tick
              1%nat reachable_hover_tick eq_refl eq_refl)
    as (H1 & H2 & H3 & H4 & _).
  done.
Defined.

(** ** Moving the pointer twice *)

Section Twice.

Lemma scene_eq (a b : scene) :
  meshes a = meshes b → lines a = lines b → children a = children b → a = b.
Proof. destruct a, b. simpl. by intros -> -> ->. Qed.

Lemma reset_children_mesh_notin cs sc m :
  ChildMesh m ∉ cs →
  meshes (foldl (λ sc c, reset_child c sc) sc cs) !! m = meshes sc !! m.
Proof.
  induction cs as [|c cs IH] using rev_ind; intros Hcs; [done|].
  rewrite foldl_app. simpl.
  rewrite <- IH by (intros H; apply Hcs, elem_of_app; by left).
  destruct c as [m'|r']; simpl; [|done].
  apply list_lookup_alter_ne. intros ->.
  apply Hcs, elem_of_app. right. left.
Qed.

Lemma reset_scene_children sc : children (reset_scene sc) = children sc.
Proof. apply reset_children_children. Qed.

Lemma reset_scene_mesh sc m :
  meshes (reset_scene sc) !! m
  = if decide (ChildMesh m ∈ children sc)
    then set_mesh_color 0xffffff <$> meshes sc !! m
    else meshes sc !! m.
Proof.
  unfold reset_scene. case_decide.
  - by apply reset_children_mesh_in.
  - by apply reset_children_mesh_notin.
Qed.

Lemma reset_scene_line sc r :
  lines (reset_scene sc) !! r
  = if decide (ChildLine r ∈ children sc)
    then reset_line <$> lines sc !! r
    else lines sc !! r.
Proof.
  unfold reset_scene. case_decide.
  - by apply reset_children_line_in.
  - by apply reset_children_line_notin.
Qed.

Lemma reset_scene_idemp sc : reset_scene (reset_scene sc) = reset_scene sc.
Proof.
  apply scene_eq.
  - apply list_eq. intros m.
    rewrite (reset_scene_mesh (reset_scene sc)), reset_scene_children.
    case_decide; [|done]. rewrite reset_scene_mesh, decide_True by done.
    by destruct (meshes sc !! m).
  - apply list_eq. intros r.
    rewrite (reset_scene_line (reset_scene sc)), reset_scene_children.
    case_decide; [|done]. rewrite reset_scene_line, decide_True by done.
    by destruct (lines sc !! r).
  - by rewrite !reset_scene_children.
Qed.

Lemma highlight_line_lookup sc obj r :
  foldl (λ lns r, alter (set_line_color 0xffff00) r lns) (lines sc)
    (userData_links sc obj) !! r
  = if decide (r ∈ userData_links sc obj)
    then set_line_color 0xffff00 <$> lines sc !! r
    else lines sc !! r.
Proof.
  case_decide.
  - by apply foldl_alter_in.
  - by apply foldl_alter_notin.
Qed.

End Twice.

(** X18: leaving twice is leaving once: when the pointer meets no node, a
    second [mousemove] that meets none changes nothing. *)
Theorem leave_twice (st : state) :
  mousemove None (mousemove None st) = mousemove None st.
Proof.
  unfold mousemove, resetHighlights, set_tooltip. simpl.
  by rewrite reset_scene_idemp.
Qed.

(** X19: a [mousemove] that meets the node the preceding one met changes
    nothing, whatever the page was before. *)
Theorem hover_twice (obj : nat) (st : state) :
  mousemove (Some obj) (mousemove (Some obj) st) = mousemove (Some obj) st.
Proof.
  pose proof (mousemove_id (Some obj) st obj) as Hid.
  set (st' := mousemove (Some obj) st) in *.
  assert (highlightedNode st' = Some obj
          ∧ tooltip_visible st' = true
          ∧ tooltip_innerHTML st' = userData_id (graphGroup st) obj)
    as (Hh & Hv & Hi).
  { unfold st', mousemove. by case_decide. }
  unfold mousemove at 1. rewrite decide_True by done.
  rewrite Hid. unfold set_tooltip. rewrite <- Hv at 1. rewrite <- Hi.
  by destruct st'.
Qed.

(** X20: going from one node to another by way of the empty space gives the
    page that going there directly gives: a [mousemove] that meets a node
    which is not the highlighted one has the same result after a [mousemove]
    that met no node. *)
Theorem hover_after_leave (obj : nat) (st : state) :
  highlightedNode st ≠ Some obj →
  mousemove (Some obj) (mousemove None st) = mousemove (Some obj) st.
Proof.
  intros Hne. pose proof (mousemove_id None st obj) as Hid.
  unfold mousemove at 1. rewrite decide_False by done.
  rewrite Hid. unfold mousemove. rewrite decide_False by done.
  unfold highlight, resetHighlights, set_tooltip. simpl.
  by rewrite reset_scene_idemp.
Qed.

Lemma hover_after_leave_witness :
  mousemove (Some 2%nat) (mousemove None state_hover_tick)
  = mousemove (Some 2%nat) state_hover_tick.
Proof. apply (hover_after_leave 2 state_hover_tick). discriminate. Defined.

(** X21: leaving undoes hovering.  In a reachable state, when the pointer
    meets a node mesh of the group and then none, the scene is the one it
    would be had the pointer met none at once, no node is highlighted and
    the tooltip is hidden: every line a node lights is a child of the group,
    which the reset visits. *)
Theorem leave_undoes_hover (obj : nat) (st : state) :
  reachable st → enabled (MouseMove (Some obj)) st = true →
  graphGroup (mousemove None (mousemove (Some obj) st))
  = graphGroup (mousemove None st)
  ∧ highlightedNode (mousemove None (mousemove (Some obj) st)) = None
  ∧ tooltip_visible (mousemove None (mousemove (Some obj) st)) = false.
Proof.
  intros Hreach He. split; [|done].
  pose proof (reachable_wf st Hreach) as Hwf.
  destruct (reachable_structure st Hreach) as [Hcm Hcl _ Hinc].
  simpl in He. apply bool_decide_eq_true in He.
  apply list_elem_of_filter in He as [_ Hobj].
  unfold mousemove at 2. case_decide; [done|].
  unfold mousemove, highlight, resetHighlights, set_tooltip. simpl.
  set (sc := graphGroup st).
  set (scr := reset_scene sc).
  assert (children scr = children sc) as Hch by apply reset_scene_children.
  assert (∀ r, r ∈ userData_links
                  {| meshes := alter (set_mesh_color 0xffff00) obj (meshes scr);
                     lines := lines scr; children := children scr |} obj →
               ChildLine r ∈ children sc) as Hlit.
  { intros r. unfold userData_links. simpl.
    rewrite list_lookup_alter_eq. unfold scr.
    rewrite reset_scene_mesh, decide_True by done.
    destruct (meshes sc !! obj) as [mo|] eqn:Hmo; simpl; [|by intros ?%elem_of_nil].
    intros Hr. destruct (proj1 (Hcm obj) Hobj) as (k & n & Hk & Hm).
    destruct (proj1 (Hinc k n obj mo r Hk Hm Hmo) Hr) as (j & l & Hl & Hr' & _).
    apply Hcl. by exists j, l. }
  apply scene_eq.
  - apply list_eq. intros m. rewrite reset_scene_mesh. simpl. rewrite Hch.
    fold scr. destruct (decide (m = obj)) as [->|Hm].
    + rewrite decide_True by done. rewrite list_lookup_alter_eq.
      unfold scr. rewrite reset_scene_mesh, decide_True by done.
      by destruct (meshes sc !! obj).
    + rewrite list_lookup_alter_ne by done.
      unfold scr. rewrite reset_scene_mesh.
      case_decide; [|done]. by destruct (meshes sc !! m).
  - apply list_eq. intros r. rewrite reset_scene_line. simpl. rewrite Hch.
    fold scr.
    pose proof (highlight_line_lookup
                  {| meshes := alter (set_mesh_color 0xffff00) obj (meshes scr);
                     lines := lines scr; children := children scr |} obj r)
      as Hl.
    simpl in Hl. rewrite Hch in Hl, Hlit. rewrite Hl. clear Hl.
    assert (lines scr !! r
            = if decide (ChildLine r ∈ children sc)
              then reset_line <$> lines sc !! r else lines sc !! r) as Hscr
      by apply reset_scene_line.
    rewrite !Hscr. clear Hscr.
    destruct (decide (ChildLine r ∈ children sc)) as [Hin|Hin].
    + case_decide; by destruct (lines sc !! r).
    + rewrite decide_False; [done|]. intros Hr. by apply Hin, Hlit.
  - simpl. by rewrite reset_scene_children.
Qed.

Lemma leave_undoes_hover_witness :
  graphGroup (mousemove None (mousemove (Some 2%nat) state_abc))
  = graphGroup (mousemove None state_abc).
Proof.
  apply (leave_undoes_hover 2 state_abc reachable_abc). reflexivity.
Defined.

(** X22: a tick creates nothing.  In a reachable state every link whose
    endpoints resolved has its line, so the handler never takes the branch
    that creates a missing line: after a tick the link objects, the children
    of the group and the number of meshes and of lines are what they were,
    each mesh has its label, its incident lines and its colour, and the
    nodes have the coordinates of the step and nothing else new. *)
Theorem tick_creates_nothing (coords : nat → vec3) (st : state) :
  reachable st →
  graph_links (currentGraph (tick coords st)) = graph_links (currentGraph st)
  ∧ graph_nodes (currentGraph (tick coords st))
    = imap (move_node coords) (graph_nodes (currentGraph st))
  ∧ children (graphGroup (tick coords st)) = children (graphGroup st)
  ∧ length (meshes (graphGroup (tick coords st)))
    = length (meshes (graphGroup st))
  ∧ length (lines (graphGroup (tick coords st)))
    = length (lines (graphGroup st))
  ∧ (∀ m mo, meshes (graphGroup st) !! m = Some mo →
       ∃ mo', meshes (graphGroup (tick coords st)) !! m = Some mo'
              ∧ mesh_id mo' = mesh_id mo ∧ mesh_links mo' = mesh_links mo
              ∧ mesh_color mo' = mesh_color mo).
Proof.
  intros Hreach. pose proof (reachable_wf st Hreach) as Hwf.
  destruct (tick_fields coords st Hwf) as (-> & _).
  destruct (tick_static coords st Hwf) as (Hch & HM & HL).
  do 3 (split; [done|]).
  split; [symmetry; by eapply Forall2_length|].
  split; [symmetry; by eapply Forall2_length|].
  intros m mo Hmo.
  destruct (Forall2_lookup_l _ _ _ _ _ HM Hmo) as (mo' & Hmo' & [? ?] & ?).
  by exists mo'.
Qed.

Lemma tick_creates_nothing_witness :
  graph_links (currentGraph (tick coords_k state_1_5))
  = graph_links (currentGraph state_1_5)
  ∧ graph_nodes (currentGraph (tick coords_k state_1_5))
    = imap (move_node coords_k) (graph_nodes (currentGraph state_1_5))
  ∧ children (graphGroup (tick coords_k state_1_5))
    = children (graphGroup state_1_5).
Proof.
  destruct (tick_creates_nothing coords_k state_1_5 reachable_1_5)
    as (H1 & H2 & H3 & _).
  done.
Defined.

(** ** Which graphs the simulation lays out *)

Section LaidOut.

Lemma render_resolved g random st k l :
  forceLink_throws g = false →
  (render_links g random st).1 !! k = Some l → resolved l = true.
Proof.
  intros Ht Hl.
  destruct (render_links_lookup g random st k l Hl)
    as (lj & Hlj & _ & Hs & Ht' & _).
  assert (resolved l = resolved (bind_link (render_nodes g random st).1 lj))
    as -> by (unfold resolved; simpl; by rewrite Hs, Ht').
  rewrite resolved_bind_link.
  unfold forceLink_throws in Ht. apply negb_false_iff in Ht.
  rewrite forallb_forall in Ht. apply Ht.
  apply list_elem_of_In. by eapply list_elem_of_lookup_2.
Qed.

Lemma render_mesh_origin g random st m :
  ChildMesh m ∈ children (render_links g random st).2 →
  ∃ mo, meshes (render_links g random st).2 !! m = Some mo
        ∧ mesh_position mo = origin.
Proof.
  intros Hm. rewrite render_children in Hm.
  apply elem_of_app in Hm as [Hm|Hm];
    apply list_elem_of_fmap in Hm as (j & [=] & Hj). subst j.
  apply elem_of_seq in Hj.
  pose proof (render_meshes_length g random st) as Hlen.
  destruct (lookup_lt_is_Some_2 (meshes (render_links g random st).2) m)
    as [mo Hmo]; [lia|].
  exists mo. split; [done|].
  destruct (cr_meshes _ _ _ _ _ _ _ (render_created g random st) _ _ Hmo)
    as (mo0 & Hmo0 & _ & _ & -> & _).
  rewrite render_nodes_meshes, lookup_app_r in Hmo0 by lia.
  rewrite list_lookup_fmap in Hmo0.
  destruct (nodes g !! _); [|done]. by injection Hmo0 as <-.
Qed.

Lemma render_laid_out g random st :
  loadedFont st = true → laid_out (renderGraph3D g random st).
Proof.
  intros Hfont. rewrite renderGraph3D_loaded by done.
  split; unfold running; simpl.
  - destruct (forceLink_throws g) eqn:Ht.
    + by destruct (simulation st).
    + intros _ k l. by apply render_resolved.
  - intros _ m. apply render_mesh_origin.
Qed.

Lemma laid_out_fields st st' :
  graph_links (currentGraph st') = graph_links (currentGraph st) →
  simulation st' = simulation st →
  same_geometry (graphGroup st) (graphGroup st') →
  laid_out st → laid_out st'.
Proof.
  intros Hg Hsim (Hch & HM & _) [Hr Hs].
  split; unfold running in *; rewrite ?Hg, ?Hsim, ?Hch; [done|].
  intros Hrun m Hm. destruct (Hs Hrun m Hm) as (mo & Hmo & Hp).
  destruct (Forall2_lookup_l _ _ _ _ _ HM Hmo) as (mo' & Hmo' & Hp').
  exists mo'. split; [done|]. by rewrite Hp'.
Qed.

Lemma step_laid_out e st :
  wf (currentGraph st) (graphGroup st) → enabled e st = true →
  laid_out st → laid_out (step e st).
Proof.
  intros Hwf He Hl.
  assert (∀ g random, laid_out (renderGraph3D g random st)) as Hrender.
  { intros g random. destruct (loadedFont st) eqn:Hfont.
    - by apply render_laid_out.
    - unfold renderGraph3D. rewrite Hfont. by destruct Hl. }
  assert (∀ e st0, laid_out st0 → laid_out (log e st0)) as Hlog
    by (by intros ? ? []).
  destruct e as [|res random|res random|coords|coords|hit]; unfold step.
  - by destruct Hl.
  - destruct res; try (by apply Hlog). unfold submitDream.
    destruct (renderGraph3D_throws _ _); [apply Hlog|]; apply Hrender.
  - destruct res; try (by apply Hlog). unfold loadInitialGraph.
    destruct (renderGraph3D_throws _ _); [apply Hlog|]; apply Hrender.
  - destruct (tick_fields coords st Hwf) as (Hg & Hsim & _).
    simpl in He. destruct Hl as [Hr _].
    split; unfold running in *; rewrite Hsim, ?Hg; simpl; [done|].
    intros Hrun. by rewrite Hrun in He.
  - by destruct Hl.
  - destruct (mousemove_fields hit st) as (Hg & Hsim & _).
    eapply laid_out_fields;
      [by rewrite Hg|done|apply mousemove_geometry|done].
Qed.

Lemma reachable_laid_out st : reachable st → laid_out st.
Proof.
  induction 1 as [|e st Hst IH He].
  - split; [done|]. intros _ m Hm. by apply elem_of_nil in Hm.
  - apply step_laid_out; [by apply reachable_wf|done|done].
Qed.

End LaidOut.

(** X2: a graph with a dropped link is never laid out.  In every reachable
    state, while a simulation makes steps every link of the current graph has
    its two endpoints and its line, so that the guard of the tick handler
    never fires; and while none does, and so whenever a link of the current
    graph has no line, every node mesh of the group is at the origin and
    every line joins the origin to the origin. *)
Theorem dropped_link_no_layout (st : state) :
  reachable st →
  (running st = true →
   ∀ k l, graph_links (currentGraph st) !! k = Some l →
          ∃ s t r, sourceObj l = Some s ∧ targetObj l = Some t
                   ∧ line l = Some r)
  ∧ (∀ k l, graph_links (currentGraph st) !! k = Some l → line l = None →
            running st = false)
  ∧ (running st = false →
     (∀ m, ChildMesh m ∈ children (graphGroup st) →
           ∃ mo, meshes (graphGroup st) !! m = Some mo
                 ∧ mesh_position mo = origin)
     ∧ (∀ k l r, graph_links (currentGraph st) !! k = Some l →
                 line l = Some r →
                 ∃ ln, lines (graphGroup st) !! r = Some ln
                       ∧ positions ln
                         = [to_float32 origin; to_float32 origin])).
Proof.
  intros Hreach.
  pose proof (reachable_wf st Hreach) as Hwf.
  destruct (reachable_laid_out st Hreach) as [Hrun Hstill].
  assert (running st = true →
          ∀ k l, graph_links (currentGraph st) !! k = Some l →
                 ∃ s t r, sourceObj l = Some s ∧ targetObj l = Some t
                          ∧ line l = Some r) as Hall.
  { intros Hr k l Hl. pose proof (Hrun Hr k l Hl) as Hres.
    destruct (resolved_true l Hres) as (s & t & Hs & Ht).
    destruct (wf_line _ _ Hwf k l Hl Hres) as (r & _ & Hline & _).
    by exists s, t, r. }
  split; [done|]. split.
  - intros k l Hl Hnone. destruct (running st) eqn:Hr; [|done].
    destruct (Hall eq_refl k l Hl) as (_ & _ & r & _ & _ & Hline).
    congruence.
  - intros Hr. split; [by apply Hstill|].
    intros k l r Hl Hline.
    destruct (st_ends _ _ (reachable_structure st Hreach) k l r Hl Hline)
      as (ln0 & s & t & _ & Hs & Ht & _).
    destruct (synced_line_between st k l s t Hwf (reachable_synced st Hreach)
                Hl Hs Ht)
      as (r' & ln & n1 & n2 & m1 & m2 & mo1 & mo2 & Hr' & Hln & Hn1 & Hn2
          & Hm1 & Hm2 & Hmo1 & Hmo2 & Hp1 & Hp2 & Hpos).
    assert (r' = r) as -> by congruence.
    exists ln. split; [done|]. rewrite Hpos, <- Hp1, <- Hp2.
    destruct (reachable_structure st Hreach) as [Hcm _ _ _].
    destruct (Hstill Hr m1) as (mo1' & Hmo1' & Ho1);
      [apply Hcm; by exists s, n1|].
    destruct (Hstill Hr m2) as (mo2' & Hmo2' & Ho2);
      [apply Hcm; by exists t, n2|].
    assert (mo1' = mo1) as -> by congruence.
    assert (mo2' = mo2) as -> by congruence.
    by rewrite Ho1, Ho2.
Qed.

Lemma dropped_link_no_layout_witness :
  running state_abc = false.
Proof.
  destruct (dropped_link_no_layout state_abc reachable_abc) as (_ & H & _).
  apply (H 2%nat (Link (LinkJson "a" "x" (Some 3%Q) None) (Some 0%nat) None
                    None)); reflexivity.
Defined.
